(** * Delivery cost calculator: a shallow embedding of [app.py]

    The development embeds the cost core of the repository
    (the Flask application [src/app.py] and its serverless twin
    [src/netlify/functions/app.py]) and proves properties of it.

    Numbers.  The core is embedded twice.

    - [App64] is the core of [src/app.py] as Python runs it: floats are
      IEEE 754 binary64 numbers ([B64]), every operation rounds to the
      nearest float, a product can overflow to infinity, the conversion of
      an [int] that is too large raises [OverflowError] (caught by the
      [try] block of the parsing loop), and [math.ceil] raises on an
      infinite argument (not caught: the function is left by the
      exception).

    - [App] and [Netlify] are the two cores in exact arithmetic: the same
      code with rationals ([Q]) for floats and the sentinel [PInf] for
      [float('inf')].  They serve the properties that do not depend on
      rounding (which branch is taken, which entries are compared, which
      minimum is selected) and, through [Spec], the comparison with the
      specification.

    The two meet in the exact range: on every mapping whose entries pass
    the parsing loop and whose total weight is at most [2 ** 40], [App64]
    returns what [App] returns (lemma [exact_range_calculation]).  Every
    catalog weight and every distance is a multiple of 1/2 and every rate
    is an even integer, so there all weights and costs are floats and no
    operation rounds; the one inexact step, the subtraction of [epsilon]
    and the division by 5.0 in the tariff, is shown to give the exact
    number of blocks.  Outside of that range the float core rounds,
    overflows and raises, and the theorems about it say so.

    Equality of rationals is [Qeq] ([==]); integers are [Z].

    Containers.  Python dicts are [gmap]s, the set of needed centers is a
    [gset].  The order mapping is an association list in insertion order,
    because the parsing loop stops at the first offending entry. *)

From Stdlib Require Import ZArith QArith Qround Qabs Qpower Lqa Lia.
From Stdlib Require PrimFloat SpecFloat FloatOps.
From stdpp Require Import gmap strings list fin_maps.

Local Open Scope Z_scope.

(** ** Locations *)

Inductive location : Type := C1 | C2 | C3 | L1.

#[global] Instance location_eq_dec : EqDecision location.
Proof. solve_decision. Defined.

Definition location_to_nat (l : location) : nat :=
  match l with C1 => 0 | C2 => 1 | C3 => 2 | L1 => 3 end%nat.

Definition location_of_nat (n : nat) : option location :=
  match n with
  | 0 => Some C1 | 1 => Some C2 | 2 => Some C3 | 3 => Some L1 | _ => None
  end%nat.

#[global] Instance location_countable : Countable location.
Proof.
  apply (inj_countable location_to_nat location_of_nat).
  intros []; reflexivity.
Defined.

(** ** Exact arithmetic with the infinity sentinel *)

Inductive pyfloat : Type :=
| Fin (q : Q)
| PInf.

(** [x == float('inf')] *)
Definition is_inf (x : pyfloat) : bool :=
  match x with PInf => true | Fin _ => false end.

(** Equality of floats up to equality of rationals. *)
Definition feq (x y : pyfloat) : Prop :=
  match x, y with
  | Fin a, Fin b => (a == b)%Q
  | PInf, PInf => True
  | _, _ => False
  end.

(** [x <= y] on floats. *)
Definition fle (x y : pyfloat) : Prop :=
  match x, y with
  | Fin a, Fin b => (a <= b)%Q
  | _, PInf => True
  | PInf, Fin _ => False
  end.

(** Python's [min(a, b)]: the first argument unless the second is smaller. *)
Definition fmin (a b : pyfloat) : pyfloat :=
  match a, b with
  | Fin x, Fin y => if Qlt_le_dec y x then Fin y else Fin x
  | Fin x, PInf => Fin x
  | PInf, _ => b
  end.

(** Float addition. *)
Definition fadd (a b : pyfloat) : pyfloat :=
  match a, b with
  | Fin x, Fin y => Fin (x + y)
  | _, _ => PInf
  end.

(** Python's [max(a, b)] on finite floats. *)
Definition py_max (a b : Q) : Q := if Qlt_le_dec a b then b else a.

(** Python's [round] to an integer: nearest, ties to the even neighbour. *)
Definition py_round (q : Q) : Z :=
  let f := Qfloor q in
  let r := (q - inject_Z f)%Q in
  if Qlt_le_dec r (1 # 2) then f
  else if Qlt_le_dec (1 # 2) r then f + 1
  else if Z.even f then f else f + 1.

(** ** Order values and results *)

(** A value of the order mapping.  [isinstance(v, int)] holds exactly for
    [PyInt] (Python booleans are the integers 1 and 0). *)
Inductive pyvalue : Type :=
| PyInt (z : Z)
| PyOther.

(** The error half of the returned pair, by message template.  The two
    files word the templates slightly differently ("for product X" and
    "for X"); the constructor records the template and its arguments. *)
Inductive error : Type :=
| InvalidQuantity (quantity : pyvalue) (product_code : string)
| ProductNotFound (product_code : string)
| ProcessingError
| NoValidPath.

(** The pair [(cost, error_message)] returned by the calculation. *)
Inductive result : Type :=
| Cost (c : Z)
| Failure (e : error).

Record product_info : Type := { center : location; weight : Q }.

Definition order_data : Type := list (string * pyvalue).

(** [itertools.permutations]: every ordering of the list, by position. *)
Section Permutations.
Context {A : Type}.

Fixpoint selections (l : list A) : list (A * list A) :=
    match l with
    | [] => []
    | x :: r => (x, r) :: map (fun p => (fst p, x :: snd p)) (selections r)
    end.

Fixpoint permutations_n (n : nat) (l : list A) : list (list A) :=
    match n with
    | O => [[]]
    | S n' =>
        flat_map (fun p => map (cons (fst p)) (permutations_n n' (snd p)))
                 (selections l)
    end.

Definition permutations (l : list A) : list (list A) :=
    permutations_n (length l) l.
End Permutations.

(** The local variables filled by the parsing loop. *)
Record demand : Type := {
  items_needed : gmap string Z;
  needed_centers : gset location;
  weight_from_center : gmap location Q;
  total_weight : Q
}.

(** How the parsing loop ends: normally, with [parse_error] set, or with
    an exception caught by the [except Exception] clause. *)
Inductive parse_outcome : Type :=
| Parsed (st : demand)
| ParseError (e : error)
| Raised.

(** The loop variables of the walk along one permutation. *)
Record walk : Type := {
  walk_cost : Q;
  walk_weight : Q;
  walk_loc : location;
  walk_valid : bool
}.

Definition epsilon : Q := 1 # 1000000000.

(** ** The application core, [src/app.py] *)

Module App.

Definition PRODUCTS : gmap string product_info :=
    list_to_map
      [ ("A", {| center := C1; weight := 3 |});
        ("B", {| center := C1; weight := 2 |});
        ("C", {| center := C1; weight := 8 |});
        ("D", {| center := C2; weight := 12 |});
        ("E", {| center := C2; weight := 25 |});
        ("F", {| center := C2; weight := 15 |});
        ("G", {| center := C3; weight := 1 # 2 |});
        ("H", {| center := C3; weight := 1 |});
        ("I", {| center := C3; weight := 2 |}) ]%string.

  (** No direct edge between [C1] and [C3]. *)
Definition DISTANCES : gmap (location * location) Q :=
    list_to_map
      [ ((C1, L1), 3%Q); ((L1, C1), 3%Q);
        ((C2, L1), 5 # 2); ((L1, C2), 5 # 2);
        ((C3, L1), 2%Q); ((L1, C3), 2%Q);
        ((C1, C2), 4%Q); ((C2, C1), 4%Q);
        ((C2, C3), 3%Q); ((C3, C2), 3%Q) ].

Definition CENTERS : list location := [C1; C2; C3].
Definition LOCATIONS : list location := [C1; C2; C3; L1].

  (** The weight tariff of [calculate_segment_cost]: [cost_per_unit]. *)
Definition cost_per_unit (weight : Q) : Q :=
    if Qle_bool weight epsilon then 10
    else if Qle_bool weight (5 + epsilon) then 10
    else
      let additional_blocks :=
        Qceiling (py_max 0 (weight - 5 - epsilon) / 5) in
      (10 + 8 * inject_Z additional_blocks)%Q.

Definition calculate_segment_cost (weight : Q) (distance : pyfloat) : pyfloat :=
    match distance with
    | PInf => Fin 0
    | Fin d =>
        if Qle_bool d 0 then Fin 0
        else Fin (cost_per_unit weight * d)
    end.

  (** The functions below read the module-level table [DISTANCES]; the table
      is a section variable so that other topologies can be stated. *)
Section WithDistances.
Variable DIST : gmap (location * location) Q.

Definition get_distance (loc1 loc2 : location) : pyfloat :=
      if decide (loc1 = loc2) then Fin 0
      else
        match DIST !! (loc1, loc2) with
        | Some d => Fin d
        | None =>
            match DIST !! (loc2, loc1) with
            | Some d => Fin d
            | None => PInf
            end
        end.

Definition _calculate_travel_cost_between_stops
        (loc_a loc_b : location) (weight_carried : Q) : pyfloat :=
      let direct_dist := get_distance loc_a loc_b in
      if negb (is_inf direct_dist) then
        calculate_segment_cost weight_carried direct_dist
      else if (bool_decide (loc_a = C1) && bool_decide (loc_b = C3))
              || (bool_decide (loc_a = C3) && bool_decide (loc_b = C1)) then
        let dist_a_c2 := get_distance loc_a C2 in
        let cost_a_c2 := calculate_segment_cost weight_carried dist_a_c2 in
        let dist_c2_b := get_distance C2 loc_b in
        let cost_c2_b := calculate_segment_cost weight_carried dist_c2_b in
        if is_inf cost_a_c2 || is_inf cost_c2_b then PInf
        else fadd cost_a_c2 cost_c2_b
      else PInf.

    (** *** Parsing and validating the order *)

Definition initial_demand : demand :=
      {| items_needed := ∅;
         needed_centers := ∅;
         weight_from_center := list_to_map (map (fun c => (c, 0%Q)) CENTERS);
         total_weight := 0 |}.

Fixpoint parse_order (entries : order_data) (st : demand) : parse_outcome :=
      match entries with
      | [] => Parsed st
      | (product_code, quantity) :: rest =>
          match quantity with
          | PyOther => ParseError (InvalidQuantity quantity product_code)
          | PyInt q =>
              if q <? 0 then ParseError (InvalidQuantity quantity product_code)
              else if q =? 0 then parse_order rest st
              else
                match PRODUCTS !! product_code with
                | None => ParseError (ProductNotFound product_code)
                | Some info =>
                    let item_total_weight := (weight info * inject_Z q)%Q in
                    match weight_from_center st !! center info with
                    | None => Raised
                    | Some w =>
                        parse_order rest
                          {| items_needed := <[product_code := q]> (items_needed st);
                             needed_centers := needed_centers st ∪ {[center info]};
                             weight_from_center :=
                               <[center info := (w + item_total_weight)%Q]>
                                 (weight_from_center st);
                             total_weight := (total_weight st + item_total_weight)%Q |}
                    end
                end
          end
      end.

    (** *** Route search *)

    (** [weight_from_center.get(loc, 0.0)]; also [weight_from_center[loc]]
        where the code has just tested the entry to be positive. *)
Definition weight_at (st : demand) (loc : location) : Q :=
      default 0%Q (weight_from_center st !! loc).

    (** One iteration of [for loc_b in order]; after [break] the remaining
        iterations leave the variables unchanged. *)
Definition walk_step (st : demand) (s : walk) (loc_b : location) : walk :=
      if walk_valid s then
        match _calculate_travel_cost_between_stops
                (walk_loc s) loc_b (walk_weight s) with
        | PInf =>
            {| walk_cost := walk_cost s; walk_weight := walk_weight s;
               walk_loc := walk_loc s; walk_valid := false |}
        | Fin segment_cost =>
            {| walk_cost := (walk_cost s + segment_cost)%Q;
               walk_weight := (walk_weight s + weight_at st loc_b)%Q;
               walk_loc := loc_b;
               walk_valid := true |}
        end
      else s.

    (** The loop over [itertools.permutations(...)], shared in shape by both
        strategies: walk the pickups, add the final leg to [L1] carrying
        [final_weight], keep the running minimum. *)
Definition min_over_permutations (st : demand) (first_loc : location)
        (first_weight : Q) (to_visit : list location) (final_weight : Q)
      : pyfloat :=
      fold_left
        (fun min_perm_cost order =>
           let s := fold_left (walk_step st) order
                      {| walk_cost := 0; walk_weight := first_weight;
                         walk_loc := first_loc; walk_valid := true |} in
           if negb (walk_valid s) then min_perm_cost
           else
             match _calculate_travel_cost_between_stops
                     (walk_loc s) L1 final_weight with
             | PInf => min_perm_cost
             | Fin final_leg_cost =>
                 fmin min_perm_cost (Fin (walk_cost s + final_leg_cost))
             end)
        (permutations to_visit) PInf.

    (** Strategy 1: simple pickup. *)
Definition cost_simple (st : demand) (start_center : location) : pyfloat :=
      let pickup_centers_to_visit :=
        elements (needed_centers st ∖ {[start_center]}) in
      match pickup_centers_to_visit with
      | [] =>
          if bool_decide (start_center ∈ needed_centers st)
             || bool_decide (needed_centers st = ∅)
          then _calculate_travel_cost_between_stops start_center L1 (total_weight st)
          else PInf
      | _ =>
          min_over_permutations st start_center (weight_at st start_center)
            pickup_centers_to_visit (total_weight st)
      end.

    (** Strategy 2: partial delivery (start, hub, remaining pickups, hub). *)
Definition cost_partial (st : demand) (start_center : location) : pyfloat :=
      if (if Qlt_le_dec 0 (weight_at st start_center) then true else false)
         && bool_decide (1 < size (needed_centers st))%nat then
        let w_leg1 := weight_at st start_center in
        let cost_leg1 :=
          _calculate_travel_cost_between_stops start_center L1 w_leg1 in
        if negb (is_inf cost_leg1) then
          let remaining_centers :=
            elements (needed_centers st ∖ {[start_center]}) in
          let weight_remaining := (total_weight st - w_leg1)%Q in
          let cost_pickup_and_final_leg :=
            match remaining_centers with
            | [] => Fin 0
            | _ => min_over_permutations st L1 0 remaining_centers weight_remaining
            end in
          if negb (is_inf cost_pickup_and_final_leg)
          then fadd cost_leg1 cost_pickup_and_final_leg
          else PInf
        else PInf
      else PInf.

    (** The loop over the start centers. *)
Definition search (st : demand) : pyfloat :=
      fold_left
        (fun min_overall_cost start_center =>
           let current_min_for_start :=
             fmin (cost_simple st start_center) (cost_partial st start_center) in
           fmin min_overall_cost current_min_for_start)
        CENTERS PInf.

Definition _calculate_overall_minimum_cost (order : order_data) : result :=
      match parse_order order initial_demand with
      | ParseError e => Failure e
      | Raised => Failure ProcessingError
      | Parsed st =>
          if decide (items_needed st = ∅) then Cost 0
          else
            match search st with
            | PInf => Failure NoValidPath
            | Fin min_overall_cost => Cost (py_round min_overall_cost)
            end
      end.
End WithDistances.

End App.

(** ** The serverless core, [src/netlify/functions/app.py] *)

Module Netlify.

Definition PRODUCTS : gmap string product_info :=
    list_to_map
      [ ("A", {| center := C1; weight := 3 |});
        ("B", {| center := C1; weight := 2 |});
        ("C", {| center := C1; weight := 8 |});
        ("D", {| center := C2; weight := 12 |});
        ("E", {| center := C2; weight := 25 |});
        ("F", {| center := C2; weight := 15 |});
        ("G", {| center := C3; weight := 1 # 2 |});
        ("H", {| center := C3; weight := 1 |});
        ("I", {| center := C3; weight := 2 |}) ]%string.

Definition DISTANCES : gmap (location * location) Q :=
    list_to_map
      [ ((C1, L1), 3%Q); ((L1, C1), 3%Q);
        ((C2, L1), 5 # 2); ((L1, C2), 5 # 2);
        ((C3, L1), 2%Q); ((L1, C3), 2%Q);
        ((C1, C2), 4%Q); ((C2, C1), 4%Q);
        ((C2, C3), 3%Q); ((C3, C2), 3%Q) ].

Definition CENTERS : list location := [C1; C2; C3].
Definition LOCATIONS : list location := [C1; C2; C3; L1].

  (** The weight tariff of [calculate_segment_cost]: [cost_per_unit]. *)
Definition cost_per_unit (weight : Q) : Q :=
    if Qle_bool weight epsilon then 10
    else if Qle_bool weight (5 + epsilon) then 10
    else
      let additional_blocks :=
        Qceiling (py_max 0 (weight - 5 - epsilon) / 5) in
      (10 + 8 * inject_Z additional_blocks)%Q.

Definition calculate_segment_cost (weight : Q) (distance : pyfloat) : pyfloat :=
    match distance with
    | PInf => Fin 0
    | Fin d =>
        if Qle_bool d 0 then Fin 0
        else Fin (cost_per_unit weight * d)
    end.

Definition get_distance (loc1 loc2 : location) : pyfloat :=
    if decide (loc1 = loc2) then Fin 0
    else
      match DISTANCES !! (loc1, loc2) with
      | Some d => Fin d
      | None =>
          match DISTANCES !! (loc2, loc1) with
          | Some d => Fin d
          | None => PInf
          end
      end.

Definition _calculate_travel_cost_between_stops
      (loc_a loc_b : location) (weight_carried : Q) : pyfloat :=
    let direct_dist := get_distance loc_a loc_b in
    if negb (is_inf direct_dist) then
      calculate_segment_cost weight_carried direct_dist
    else if bool_decide ((loc_a, loc_b) ∈ [(C1, C3); (C3, C1)]) then
      let dist_a_c2 := get_distance loc_a C2 in
      let cost_a_c2 := calculate_segment_cost weight_carried dist_a_c2 in
      let dist_c2_b := get_distance C2 loc_b in
      let cost_c2_b := calculate_segment_cost weight_carried dist_c2_b in
      if is_inf cost_a_c2 || is_inf cost_c2_b then PInf
      else fadd cost_a_c2 cost_c2_b
    else PInf.

  (** *** Parsing and validating the order *)

Definition initial_demand : demand :=
    {| items_needed := ∅;
       needed_centers := ∅;
       weight_from_center := list_to_map (map (fun c => (c, 0%Q)) CENTERS);
       total_weight := 0 |}.

Fixpoint parse_order (entries : order_data) (st : demand) : parse_outcome :=
    match entries with
    | [] => Parsed st
    | (product_code, quantity) :: rest =>
        match quantity with
        | PyOther => ParseError (InvalidQuantity quantity product_code)
        | PyInt q =>
            if q <? 0 then ParseError (InvalidQuantity quantity product_code)
            else if q =? 0 then parse_order rest st
            else
              match PRODUCTS !! product_code with
              | None => ParseError (ProductNotFound product_code)
              | Some info =>
                  let item_total_weight := (weight info * inject_Z q)%Q in
                  match weight_from_center st !! center info with
                  | None => Raised
                  | Some w =>
                      parse_order rest
                        {| items_needed := <[product_code := q]> (items_needed st);
                           needed_centers := needed_centers st ∪ {[center info]};
                           weight_from_center :=
                             <[center info := (w + item_total_weight)%Q]>
                               (weight_from_center st);
                           total_weight := (total_weight st + item_total_weight)%Q |}
                  end
              end
        end
    end.

  (** *** Route search *)

  (** [weight_from_center.get(loc, 0.0)] *)
Definition weight_at (st : demand) (loc : location) : Q :=
    default 0%Q (weight_from_center st !! loc).

  (** One iteration of [for loc_b in order]; after [break] the remaining
      iterations leave the variables unchanged. *)
Definition walk_step (st : demand) (s : walk) (loc_b : location) : walk :=
    if walk_valid s then
      match _calculate_travel_cost_between_stops
              (walk_loc s) loc_b (walk_weight s) with
      | PInf =>
          {| walk_cost := walk_cost s; walk_weight := walk_weight s;
             walk_loc := walk_loc s; walk_valid := false |}
      | Fin segment_cost =>
          {| walk_cost := (walk_cost s + segment_cost)%Q;
             walk_weight := (walk_weight s + weight_at st loc_b)%Q;
             walk_loc := loc_b;
             walk_valid := true |}
      end
    else s.

  (** The loop over [itertools.permutations(...)], shared in shape by both
      strategies: walk the pickups, add the final leg to [L1] carrying
      [final_weight], keep the running minimum. *)
Definition min_over_permutations (st : demand) (first_loc : location)
      (first_weight : Q) (to_visit : list location) (final_weight : Q)
    : pyfloat :=
    fold_left
      (fun min_perm_cost order =>
         let s := fold_left (walk_step st) order
                    {| walk_cost := 0; walk_weight := first_weight;
                       walk_loc := first_loc; walk_valid := true |} in
         if negb (walk_valid s) then min_perm_cost
         else
           match _calculate_travel_cost_between_stops
                   (walk_loc s) L1 final_weight with
           | PInf => min_perm_cost
           | Fin final_leg_cost =>
               fmin min_perm_cost (Fin (walk_cost s + final_leg_cost))
           end)
      (permutations to_visit) PInf.

  (** Strategy 1: simple pickup. *)
Definition cost_simple (st : demand) (start_center : location) : pyfloat :=
    let pickup_centers_to_visit :=
      elements (needed_centers st ∖ {[start_center]}) in
    match pickup_centers_to_visit with
    | [] =>
        if bool_decide (start_center ∈ needed_centers st)
           || bool_decide (needed_centers st = ∅)
        then _calculate_travel_cost_between_stops start_center L1 (total_weight st)
        else PInf
    | _ =>
        min_over_permutations st start_center (weight_at st start_center)
          pickup_centers_to_visit (total_weight st)
    end.

  (** Strategy 2: partial delivery (start, hub, remaining pickups, hub). *)
Definition cost_partial (st : demand) (start_center : location) : pyfloat :=
    if (if Qlt_le_dec 0 (weight_at st start_center) then true else false)
       && bool_decide (1 < size (needed_centers st))%nat then
      let w_leg1 := weight_at st start_center in
      let cost_leg1 :=
        _calculate_travel_cost_between_stops start_center L1 w_leg1 in
      if negb (is_inf cost_leg1) then
        let remaining_centers :=
          elements (needed_centers st ∖ {[start_center]}) in
        let weight_remaining := (total_weight st - w_leg1)%Q in
        let cost_pickup_and_final_leg :=
          match remaining_centers with
          | [] => Fin 0
          | _ => min_over_permutations st L1 0 remaining_centers weight_remaining
          end in
        if negb (is_inf cost_pickup_and_final_leg)
        then fadd cost_leg1 cost_pickup_and_final_leg
        else PInf
      else PInf
    else PInf.

  (** The loop over the start centers, with the three-argument [min]. *)
Definition search (st : demand) : pyfloat :=
    fold_left
      (fun min_overall_cost start_center =>
         fmin (fmin min_overall_cost (cost_simple st start_center))
              (cost_partial st start_center))
      CENTERS PInf.

Definition _calculate_overall_minimum_cost (order : order_data) : result :=
    match parse_order order initial_demand with
    | ParseError e => Failure e
    | Raised => Failure ProcessingError
    | Parsed st =>
        if decide (items_needed st = ∅) then Cost 0
        else
          match search st with
          | PInf => Failure NoValidPath
          | Fin min_overall_cost => Cost (py_round min_overall_cost)
          end
    end.

End Netlify.

(** ** The specification's reading of the cost model

    Definitions in this module follow the wording of the specification
    (Segment Pricer, Route Resolver, Order Aggregator, Route Cost Enumerator,
    Minimum Cost Selector); they are compared with the code above.  The
    specification gives no numbers for the catalog and the distance table,
    which are those of the program. *)

Module Spec.

(** Tariff: 10 up to 5 (+epsilon), then 8 more per started block of 5. *)
Definition rate (w : Q) : Q :=
  if Qle_bool w (5 + epsilon) then 10
  else (10 + 8 * inject_Z (Qceiling ((w - 5 - epsilon) / 5)))%Q.

(** Segment Pricer: cost = rate x distance. *)
Definition price (w d : Q) : Q := (rate w * d)%Q.

(** A direct edge, looked up in both orientations. *)
Definition edge (a b : location) : option Q :=
  match App.DISTANCES !! (a, b) with
  | Some d => Some d
  | None => App.DISTANCES !! (b, a)
  end.

(** A leg over a direct edge; [PInf] stands for Unreachable. *)
Definition direct_cost (a b : location) (w : Q) : pyfloat :=
  if decide (a = b) then Fin 0
  else match edge a b with
       | Some d => Fin (price w d)
       | None => PInf
       end.

(** Route Resolver: direct edge, named detour through [C2], unreachable. *)
Definition leg_cost (a b : location) (w : Q) : pyfloat :=
  match direct_cost a b w with
  | Fin c => Fin c
  | PInf =>
      if decide ((a = C1 /\ b = C3) \/ (a = C3 /\ b = C1))
      then fadd (direct_cost a C2 w) (direct_cost C2 b w)
      else PInf
  end.

(** Order Aggregator: the weight an entry contributes to a center. *)
Definition contribution (c : location) (entry : string * pyvalue) : Q :=
  match snd entry, App.PRODUCTS !! fst entry with
  | PyInt q, Some info =>
      if decide (center info = c) then (weight info * inject_Z q)%Q else 0%Q
  | _, _ => 0%Q
  end.

Definition per_center_weight (order : order_data) (c : location) : Q :=
  fold_right (fun entry acc => (contribution c entry + acc)%Q) 0%Q order.

Definition grand_total (pcw : location -> Q) : Q :=
  (pcw C1 + pcw C2 + pcw C3)%Q.

(** The centers with nonzero demand. *)
Definition needed (pcw : location -> Q) : gset location :=
  list_to_set (filter (fun c => negb (Qeq_bool (pcw c) 0)) App.CENTERS).

(** The least of a list of candidate costs; Infeasible counts as infinity. *)
Definition least (l : list pyfloat) : pyfloat := fold_right fmin PInf l.

Section Enumerator.
Variable pcw : location -> Q.
Variable total : Q.
Variable needed_centers : gset location.

(** The price of a route: each leg at the weight carried at that point,
    then the final leg to the hub at [final_weight]. *)
Fixpoint route_cost (loc : location) (carried : Q) (visits : list location)
    (final_weight : Q) : pyfloat :=
  match visits with
  | [] => leg_cost loc L1 final_weight
  | b :: rest =>
      fadd (leg_cost loc b carried)
           (route_cost b (carried + pcw b)%Q rest final_weight)
  end.

Definition others (start : location) : list location :=
  elements (needed_centers ∖ {[start]}).

(** Strategy A, simple pickup. *)
Definition strategy_A (start : location) : pyfloat :=
  least (map (fun order => route_cost start (pcw start) order total)
             (permutations (others start))).

(** Strategy B, partial delivery. *)
Definition strategy_B (start : location) : pyfloat :=
  if (if Qlt_le_dec 0 (pcw start) then true else false)
     && negb (bool_decide (others start = []))
  then
    fadd (leg_cost start L1 (pcw start))
         (least (map (fun order =>
                        route_cost L1 0 order (total - pcw start)%Q)
                     (permutations (others start))))
  else PInf.

(** Minimum Cost Selector over the fixed center set. *)
Definition minimum_cost : pyfloat :=
  least (map (fun start => fmin (strategy_A start) (strategy_B start))
             App.CENTERS).
End Enumerator.

(** The exact minimum over all start centers and both strategies for the
    aggregate of an order, before the one rounding at the end. *)
Definition minimum_of_order (order : order_data) : pyfloat :=
  let pcw := per_center_weight order in
  minimum_cost pcw (grand_total pcw) (needed pcw).

End Spec.

(** ** Validity of orders *)

(** An entry of a valid order: a known product with a non-negative integer
    quantity. *)
Definition valid_entry (entry : string * pyvalue) : Prop :=
  is_Some (App.PRODUCTS !! fst entry) /\
  exists q, snd entry = PyInt q /\ 0 <= q.

Definition valid_order (order : order_data) : Prop := Forall valid_entry order.

(** Some entry has a positive quantity. *)
Definition has_positive (order : order_data) : Prop :=
  Exists (fun entry => exists q, snd entry = PyInt q /\ 0 < q) order.

(** The product an error message names. *)
Definition error_product (e : error) : option string :=
  match e with
  | InvalidQuantity _ code => Some code
  | ProductNotFound code => Some code
  | _ => None
  end.

(** ** Auxiliary definitions used in the statements and proofs *)

(** The distance the resolver charges between two locations of the
    documented topology: the direct edge, or 4 + 3 through [C2]. *)
Definition charged_distance (a b : location) : Q :=
  match a, b with
  | C1, C1 | C2, C2 | C3, C3 | L1, L1 => 0
  | C1, L1 | L1, C1 => 3
  | C2, L1 | L1, C2 => 5 # 2
  | C3, L1 | L1, C3 => 2
  | C1, C2 | C2, C1 => 4
  | C2, C3 | C3, C2 => 3
  | C1, C3 | C3, C1 => 7
  end.

(** The documented table with the edge between [C1] and [C2] taken out. *)
Definition DISTANCES_without_C1_C2 : gmap (location * location) Q :=
  delete (C1, C2) (delete (C2, C1) App.DISTANCES).

(** What the parsing loop maintains about its variables. *)
Definition demand_ok (st : demand) : Prop :=
  (forall c, c <> L1 -> is_Some (weight_from_center st !! c)) /\
  weight_from_center st !! L1 = None /\
  (forall c, (0 <= App.weight_at st c)%Q) /\
  (forall c, c ∈ needed_centers st <-> (0 < App.weight_at st c)%Q) /\
  (total_weight st ==
     App.weight_at st C1 + App.weight_at st C2 + App.weight_at st C3)%Q /\
  (items_needed st = ∅ <-> needed_centers st = ∅).

(** The state after one accepted entry of positive quantity. *)
Definition add_item (st : demand) (code : string) (q : Z) (info : product_info)
    (w : Q) : demand :=
  {| items_needed := <[code := q]> (items_needed st);
     needed_centers := needed_centers st ∪ {[center info]};
     weight_from_center :=
       <[center info := (w + weight info * inject_Z q)%Q]> (weight_from_center st);
     total_weight := (total_weight st + weight info * inject_Z q)%Q |}.

(** An entry the parsing loop passes over without setting [parse_error]. *)
Definition accepted_entry (entry : string * pyvalue) : Prop :=
  exists q, snd entry = PyInt q /\ 0 <= q /\
            (q = 0 \/ is_Some (App.PRODUCTS !! fst entry)).

(** An entry for a product outside the catalog, with a value other than the
    integer 0. *)
Definition unknown_entry (entry : string * pyvalue) : Prop :=
  App.PRODUCTS !! fst entry = None /\ snd entry <> PyInt 0.

(** Every center has its key in [weight_from_center]. *)
Definition keys_ok (st : demand) : Prop :=
  forall c, c <> L1 -> is_Some (weight_from_center st !! c).

(** The cost the permutation loop computes for one visiting order: the
    pickup legs and the final leg, or infinity when a leg is impossible. *)
Definition walk_candidate (DIST : gmap (location * location) Q) (st : demand)
    (first_loc : location) (first_weight : Q) (order : list location)
    (final_weight : Q) : pyfloat :=
  let s := fold_left (App.walk_step DIST st) order
             {| walk_cost := 0; walk_weight := first_weight;
                walk_loc := first_loc; walk_valid := true |} in
  if negb (walk_valid s) then PInf
  else
    match App._calculate_travel_cost_between_stops DIST (walk_loc s) L1
            final_weight with
    | PInf => PInf
    | Fin final_leg_cost => Fin (walk_cost s + final_leg_cost)
    end.

(** The minimum of the specification on the aggregate [pcw]. *)
Definition minimum_of_weights (pcw : location -> Q) : pyfloat :=
  Spec.minimum_cost pcw (Spec.grand_total pcw) (Spec.needed pcw).

(** The price of a leg of the specification, in closed form. *)
Definition leg_price (a b : location) (w : Q) : Q :=
  match a, b with
  | C1, C3 => Spec.rate w * 4 + Spec.rate w * 3
  | C3, C1 => Spec.rate w * 3 + Spec.rate w * 4
  | C1, C1 | C2, C2 | C3, C3 | L1, L1 => 0
  | _, _ => Spec.rate w * charged_distance a b
  end.

(** A mark left on a pair of weights once their order has been looked at. *)
Definition compared (u v : Q) : Prop := True.

(** ** Further notions used in the statements *)

(** A table that gives no pair of locations two different distances. *)
Definition consistent_table (DIST : gmap (location * location) Q) : Prop :=
  forall a b d d',
    DIST !! (a, b) = Some d -> DIST !! (b, a) = Some d' -> d = d'.

(** Every entry of positive quantity is for a product homed at [c]. *)
Definition only_center (c : location) (order : order_data) : Prop :=
  Forall (fun entry =>
            forall info, App.PRODUCTS !! fst entry = Some info ->
                         snd entry = PyInt 0 \/ center info = c) order.

(** ** Binary64 arithmetic

    The floats of the program are IEEE 754 binary64 numbers.  A finite
    float is kept by its exact rational value; an operation computes the
    exact result and rounds it to the nearest float, ties to the even
    mantissa, which is what IEEE 754 prescribes for [+], [-], [*] and [/].
    The two zeros are not told apart: they compare equal and the program
    neither divides by a float zero nor prints one. *)

(** The Python exceptions that the arithmetic of the program can raise. *)
Inductive exception : Type :=
| OverflowError
| ValueError
| ZeroDivisionError
| KeyError.

(** The end of an evaluation: a value, or an exception on its way up. *)
Inductive outcome (A : Type) : Type :=
| Value (a : A)
| Raise (e : exception).
Arguments Value {A} a.
Arguments Raise {A} e.

#[global] Instance outcome_bind : MBind outcome :=
  fun A B f m => match m with Value a => f a | Raise e => Raise e end.

(** A [for] loop whose body may raise. *)
Fixpoint fold_outcome {A B : Type} (f : A -> B -> outcome A) (l : list B)
    (a : A) : outcome A :=
  match l with
  | [] => Value a
  | x :: r => a' ← f a x; fold_outcome f r a'
  end.

Module B64.

Inductive float : Type :=
| Finite (q : Q)
| Infinite (negative : bool)
| NaN.

(** [float('inf')] *)
Definition inf : float := Infinite false.

(** [2 ** e] *)
Definition pow2 (e : Z) : Q := (2 ^ e)%Q.

(** The binary exponent of a non-zero rational:
    [pow2 (ilog2 q) <= |q| < pow2 (ilog2 q + 1)]. *)
Definition ilog2 (q : Q) : Z :=
  let e0 := Z.log2 (Z.abs (Qnum q)) - Z.log2 (Zpos (Qden q)) in
  if Qle_bool (pow2 e0) (Qabs q) then e0 else e0 - 1.

(** The exponent of the last mantissa bit of the floats around [q]:
    53 bits of mantissa, subnormal below [2 ** -1022]. *)
Definition ulp_exponent (q : Q) : Z := Z.max (ilog2 q - 52) (-1074).

(** Rounding of an exact result to binary64: nearest, ties to even, and
    overflow to infinity from [2 ** 1024] on. *)
Definition nearest (q : Q) : float :=
  if Qeq_bool q 0 then Finite 0
  else
    let e := ulp_exponent q in
    let r := Qred (inject_Z (py_round (q / pow2 e)) * pow2 e) in
    if Qle_bool (pow2 1024) (Qabs r) then Infinite (negb (Qle_bool 0 q))
    else Finite r.

Definition is_negative (q : Q) : bool := negb (Qle_bool 0 q).

Definition fopp (x : float) : float :=
  match x with
  | Finite a => Finite (- a)
  | Infinite s => Infinite (negb s)
  | NaN => NaN
  end.

(** [x + y] *)
Definition fadd (x y : float) : float :=
  match x, y with
  | Finite a, Finite b => nearest (a + b)
  | Finite _, Infinite s => Infinite s
  | Infinite s, Finite _ => Infinite s
  | Infinite s, Infinite t => if Bool.eqb s t then Infinite s else NaN
  | _, _ => NaN
  end.

(** [x - y] *)
Definition fsub (x y : float) : float := fadd x (fopp y).

(** [x * y] *)
Definition fmul (x y : float) : float :=
  match x, y with
  | Finite a, Finite b => nearest (a * b)
  | Finite a, Infinite s =>
      if Qeq_bool a 0 then NaN else Infinite (xorb (is_negative a) s)
  | Infinite s, Finite b =>
      if Qeq_bool b 0 then NaN else Infinite (xorb s (is_negative b))
  | Infinite s, Infinite t => Infinite (xorb s t)
  | _, _ => NaN
  end.

(** [x / y]; Python raises on a zero divisor. *)
Definition fdiv (x y : float) : outcome float :=
  match x, y with
  | NaN, Finite b => if Qeq_bool b 0 then Raise ZeroDivisionError else Value NaN
  | Infinite s, Finite b =>
      if Qeq_bool b 0 then Raise ZeroDivisionError
      else Value (Infinite (xorb s (is_negative b)))
  | Finite a, Finite b =>
      if Qeq_bool b 0 then Raise ZeroDivisionError else Value (nearest (a / b))
  | Finite _, Infinite _ => Value (Finite 0)
  | _, _ => Value NaN
  end.

(** [x <= y] *)
Definition fle (x y : float) : bool :=
  match x, y with
  | Finite a, Finite b => Qle_bool a b
  | Finite _, Infinite s => negb s
  | Infinite s, Finite _ => s
  | Infinite s, Infinite t => s || negb t
  | _, _ => false
  end.

(** [x < y] *)
Definition flt (x y : float) : bool :=
  match x, y with
  | Finite a, Finite b => negb (Qle_bool b a)
  | Finite _, Infinite s => negb s
  | Infinite s, Finite _ => s
  | Infinite s, Infinite t => s && negb t
  | _, _ => false
  end.

(** [x == y] *)
Definition feqb (x y : float) : bool :=
  match x, y with
  | Finite a, Finite b => Qeq_bool a b
  | Infinite s, Infinite t => Bool.eqb s t
  | _, _ => false
  end.

(** [min(a, b)]: the first argument unless the second is smaller. *)
Definition fmin (a b : float) : float := if flt b a then b else a.

(** [max(a, b)]: the first argument unless the second is larger. *)
Definition fmax (a b : float) : float := if flt a b then b else a.

(** [math.ceil(x)] *)
Definition ceil (x : float) : outcome Z :=
  match x with
  | Finite a => Value (Qceiling a)
  | Infinite _ => Raise OverflowError
  | NaN => Raise ValueError
  end.

(** [round(x)] *)
Definition round (x : float) : outcome Z :=
  match x with
  | Finite a => Value (py_round a)
  | Infinite _ => Raise OverflowError
  | NaN => Raise ValueError
  end.

(** The conversion of an [int] operand of a float operation. *)
Definition of_int (z : Z) : outcome float :=
  match nearest (inject_Z z) with
  | Finite a => Value (Finite a)
  | _ => Raise OverflowError
  end.

(** The literal [1e-9]. *)
Definition epsilon : float := nearest (1 # 1000000000).

(** The rationals that are binary64 floats: a mantissa below [2 ** 53]
    at an exponent between that of the smallest subnormal and that of the
    largest float. *)
Definition representable (f : Q) : Prop :=
  exists m x : Z,
    (f == inject_Z m * pow2 x)%Q /\ Z.abs m < 2 ^ 53 /\ -1074 <= x <= 971.

(** The float [x] is finite and its value is [q]. *)
Definition exact (x : float) (q : Q) : Prop :=
  match x with
  | Finite r => (r == q)%Q
  | _ => False
  end.

End B64.

(** ** The application core of [src/app.py] in binary64 *)

(** The local variables filled by the parsing loop. *)
Record demand64 : Type := {
  items_needed64 : gmap string Z;
  needed_centers64 : gset location;
  weight_from_center64 : gmap location B64.float;
  total_weight64 : B64.float
}.

(** The loop variables of the walk along one permutation. *)
Record walk64 : Type := {
  walk_cost64 : B64.float;
  walk_weight64 : B64.float;
  walk_loc64 : location;
  walk_valid64 : bool
}.

(** How the [try] block of the parsing ends. *)
Inductive parse_outcome64 : Type :=
| Parsed64 (st : demand64)
| ParseError64 (e : error)
| Raised64 (e : exception).

Module App64.
Import B64.

(** The weight tariff of [calculate_segment_cost]: [cost_per_unit]. *)
Definition cost_per_unit (weight : float) : outcome float :=
  if fle weight epsilon then Value (Finite 10)
  else if fle weight (fadd (Finite 5) epsilon) then Value (Finite 10)
  else
    x ← fdiv (fmax (Finite 0) (fsub (fsub weight (Finite 5)) epsilon))
             (Finite 5);
    additional_blocks ← ceil x;
    b ← of_int additional_blocks;
    Value (fadd (Finite 10) (fmul (Finite 8) b)).

Definition calculate_segment_cost (weight distance : float) : outcome float :=
  if fle distance (Finite 0) || feqb distance inf then Value (Finite 0)
  else
    cost_per_unit ← cost_per_unit weight;
    Value (fmul cost_per_unit distance).

Definition get_distance (loc1 loc2 : location) : float :=
  if decide (loc1 = loc2) then Finite 0
  else
    match App.DISTANCES !! (loc1, loc2) with
    | Some d => Finite d
    | None =>
        match App.DISTANCES !! (loc2, loc1) with
        | Some d => Finite d
        | None => inf
        end
    end.

Definition _calculate_travel_cost_between_stops
    (loc_a loc_b : location) (weight_carried : float) : outcome float :=
  let direct_dist := get_distance loc_a loc_b in
  if negb (feqb direct_dist inf) then
    calculate_segment_cost weight_carried direct_dist
  else if (bool_decide (loc_a = C1) && bool_decide (loc_b = C3))
          || (bool_decide (loc_a = C3) && bool_decide (loc_b = C1)) then
    let dist_a_c2 := get_distance loc_a C2 in
    cost_a_c2 ← calculate_segment_cost weight_carried dist_a_c2;
    let dist_c2_b := get_distance C2 loc_b in
    cost_c2_b ← calculate_segment_cost weight_carried dist_c2_b;
    if feqb cost_a_c2 inf || feqb cost_c2_b inf then Value inf
    else Value (fadd cost_a_c2 cost_c2_b)
  else Value inf.

(** *** Parsing and validating the order *)

Definition initial_demand : demand64 :=
  {| items_needed64 := ∅;
     needed_centers64 := ∅;
     weight_from_center64 :=
       list_to_map (map (fun c => (c, Finite 0)) App.CENTERS);
     total_weight64 := Finite 0 |}.

(** The loop of the [try] block; an exception leaves it at once. *)
Fixpoint parse_order (entries : order_data) (st : demand64) : parse_outcome64 :=
  match entries with
  | [] => Parsed64 st
  | (product_code, quantity) :: rest =>
      match quantity with
      | PyOther => ParseError64 (InvalidQuantity quantity product_code)
      | PyInt q =>
          if q <? 0 then ParseError64 (InvalidQuantity quantity product_code)
          else if q =? 0 then parse_order rest st
          else
            match App.PRODUCTS !! product_code with
            | None => ParseError64 (ProductNotFound product_code)
            | Some info =>
                match of_int q with
                | Raise e => Raised64 e
                | Value quantity_as_float =>
                    let item_total_weight :=
                      fmul (Finite (weight info)) quantity_as_float in
                    match weight_from_center64 st !! center info with
                    | None => Raised64 KeyError
                    | Some w =>
                        parse_order rest
                          {| items_needed64 :=
                               <[product_code := q]> (items_needed64 st);
                             needed_centers64 :=
                               needed_centers64 st ∪ {[center info]};
                             weight_from_center64 :=
                               <[center info := fadd w item_total_weight]>
                                 (weight_from_center64 st);
                             total_weight64 :=
                               fadd (total_weight64 st) item_total_weight |}
                    end
                end
            end
      end
  end.

(** *** Route search *)

(** [weight_from_center.get(loc, 0.0)]; also [weight_from_center[loc]]
    where the code has just tested the entry to be positive. *)
Definition weight_at (st : demand64) (loc : location) : float :=
  default (Finite 0) (weight_from_center64 st !! loc).

(** One iteration of [for loc_b in order]; after [break] the remaining
    iterations are not run. *)
Definition walk_step (st : demand64) (s : walk64) (loc_b : location)
  : outcome walk64 :=
  if walk_valid64 s then
    segment_cost ← _calculate_travel_cost_between_stops
                     (walk_loc64 s) loc_b (walk_weight64 s);
    if feqb segment_cost inf then
      Value {| walk_cost64 := walk_cost64 s; walk_weight64 := walk_weight64 s;
               walk_loc64 := walk_loc64 s; walk_valid64 := false |}
    else
      Value {| walk_cost64 := fadd (walk_cost64 s) segment_cost;
               walk_weight64 := fadd (walk_weight64 s) (weight_at st loc_b);
               walk_loc64 := loc_b;
               walk_valid64 := true |}
  else Value s.

(** The loop over [itertools.permutations(...)], shared in shape by both
    strategies. *)
Definition min_over_permutations (st : demand64) (first_loc : location)
    (first_weight : float) (to_visit : list location) (final_weight : float)
  : outcome float :=
  fold_outcome
    (fun min_perm_cost order =>
       s ← fold_outcome (walk_step st) order
             {| walk_cost64 := Finite 0; walk_weight64 := first_weight;
                walk_loc64 := first_loc; walk_valid64 := true |};
       if negb (walk_valid64 s) then Value min_perm_cost
       else
         final_leg_cost ← _calculate_travel_cost_between_stops
                            (walk_loc64 s) L1 final_weight;
         if feqb final_leg_cost inf then Value min_perm_cost
         else Value (fmin min_perm_cost (fadd (walk_cost64 s) final_leg_cost)))
    (permutations to_visit) inf.

(** Strategy 1: simple pickup. *)
Definition cost_simple (st : demand64) (start_center : location)
  : outcome float :=
  let pickup_centers_to_visit :=
    elements (needed_centers64 st ∖ {[start_center]}) in
  match pickup_centers_to_visit with
  | [] =>
      if bool_decide (start_center ∈ needed_centers64 st)
         || bool_decide (needed_centers64 st = ∅)
      then _calculate_travel_cost_between_stops start_center L1
             (total_weight64 st)
      else Value inf
  | _ =>
      min_over_permutations st start_center (weight_at st start_center)
        pickup_centers_to_visit (total_weight64 st)
  end.

(** Strategy 2: partial delivery (start, hub, remaining pickups, hub). *)
Definition cost_partial (st : demand64) (start_center : location)
  : outcome float :=
  if flt (Finite 0) (weight_at st start_center)
     && bool_decide (1 < size (needed_centers64 st))%nat then
    let w_leg1 := weight_at st start_center in
    cost_leg1 ← _calculate_travel_cost_between_stops start_center L1 w_leg1;
    if negb (feqb cost_leg1 inf) then
      let remaining_centers :=
        elements (needed_centers64 st ∖ {[start_center]}) in
      let weight_remaining := fsub (total_weight64 st) w_leg1 in
      cost_pickup_and_final_leg ←
        match remaining_centers with
        | [] => Value (Finite 0)
        | _ => min_over_permutations st L1 (Finite 0) remaining_centers
                 weight_remaining
        end;
      if negb (feqb cost_pickup_and_final_leg inf)
      then Value (fadd cost_leg1 cost_pickup_and_final_leg)
      else Value inf
    else Value inf
  else Value inf.

(** The loop over the start centers. *)
Definition search (st : demand64) : outcome float :=
  fold_outcome
    (fun min_overall_cost start_center =>
       cost_simple ← cost_simple st start_center;
       cost_partial ← cost_partial st start_center;
       let current_min_for_start := fmin cost_simple cost_partial in
       Value (fmin min_overall_cost current_min_for_start))
    App.CENTERS inf.

(** The pair returned by the function, or the exception that leaves it. *)
Definition _calculate_overall_minimum_cost (order : order_data)
  : outcome result :=
  match parse_order order initial_demand with
  | ParseError64 e => Value (Failure e)
  | Raised64 _ => Value (Failure ProcessingError)
  | Parsed64 st =>
      if decide (items_needed64 st = ∅) then Value (Cost 0)
      else
        min_overall_cost ← search st;
        if negb (feqb min_overall_cost inf) then
          final_cost ← round min_overall_cost;
          Value (Cost final_cost)
        else Value (Failure NoValidPath)
  end.

End App64.

(** The rationals [n / 2] with [0 <= n <= bound]: the weights of an order
    and the costs of its legs are of this form. *)
Definition half_integer (bound : Z) (q : Q) : Prop :=
  exists n : Z, 0 <= n <= bound /\ (q == inject_Z n * (1 # 2))%Q.

(** The rationals [n / 2] with [0 <= n]. *)
Definition half_integral (q : Q) : Prop :=
  exists n : Z, 0 <= n /\ (q == inject_Z n * (1 # 2))%Q.

(** The weight of one entry and of an order: weight times quantity, summed
    over the entries of catalog products. *)
Definition entry_weight (entry : string * pyvalue) : Q :=
  match snd entry, App.PRODUCTS !! fst entry with
  | PyInt q, Some info => (weight info * inject_Z q)%Q
  | _, _ => 0%Q
  end.

Definition order_weight (order : order_data) : Q :=
  fold_right (fun entry acc => (entry_weight entry + acc)%Q) 0%Q order.

(** The exact range: orders of a total weight up to [2 ** 40], about
    [1.1e12].  There every float of the calculation holds its exact value. *)
Definition exact_range_bound : Q := inject_Z (2 ^ 40).

(** A float cost and an exact cost are the same cost. *)
Definition same_cost (bound : Z) (x : B64.float) (y : pyfloat) : Prop :=
  match x, y with
  | B64.Finite r, Fin q => (r == q)%Q /\ half_integer bound r
  | B64.Infinite false, PInf => True
  | _, _ => False
  end.

(** The float variables of the parsing loop hold the exact values. *)
Definition same_demand (st64 : demand64) (st : demand) : Prop :=
  items_needed64 st64 = items_needed st /\
  needed_centers64 st64 = needed_centers st /\
  (forall c,
     match weight_from_center64 st64 !! c, weight_from_center st !! c with
     | Some x, Some q => B64.exact x q
     | None, None => True
     | _, _ => False
     end) /\
  B64.exact (total_weight64 st64) (total_weight st).

(** The exact loop variables of an order in the exact range. *)
Definition exact_range (st : demand) : Prop :=
  (total_weight st <= exact_range_bound)%Q /\
  half_integral (total_weight st) /\
  forall c, half_integral (App.weight_at st c) /\
            half_integral (total_weight st - App.weight_at st c).

(** The float loop variables of a walk hold the exact values, [i] legs in. *)
Definition same_walk (i : Z) (s64 : walk64) (s : walk) : Prop :=
  walk_valid64 s64 = true /\ walk_valid s = true /\
  walk_loc64 s64 = walk_loc s /\
  same_cost (i * 2 ^ 50) (walk_cost64 s64) (Fin (walk_cost s)) /\
  same_cost ((i + 1) * 2 ^ 41) (walk_weight64 s64) (Fin (walk_weight s)).

(** The largest float, [(2 ** 53 - 1) * 2 ** 971], about [1.8e308]. *)
Definition max_float : Z := (2 ^ 53 - 1) * 2 ^ 971.

(** An entry the parsing loop passes over in binary64: accepted, and of a
    quantity that the conversion to a float does not reject. *)
Definition convertible_entry (entry : string * pyvalue) : Prop :=
  exists q, snd entry = PyInt q /\ 0 <= q /\
            (q = 0 \/ (is_Some (App.PRODUCTS !! fst entry) /\ q <= max_float)).

(** Every center has its key in the float [weight_from_center]. *)
Definition keys_ok64 (st : demand64) : Prop :=
  forall c, c <> L1 -> is_Some (weight_from_center64 st !! c).

(** ** The library's binary64, for comparison

    The standard library has two renderings of binary64: the
    specification [SpecFloat], on mantissa and exponent, and the
    primitive floats [PrimFloat], computed by the processor.  The
    operations of [B64] are compared with both on a list of operands. *)

Module Reference.

Definition of_spec (x : SpecFloat.spec_float) : B64.float :=
  match x with
  | SpecFloat.S754_zero _ => B64.Finite 0
  | SpecFloat.S754_infinity s => B64.Infinite s
  | SpecFloat.S754_nan => B64.NaN
  | SpecFloat.S754_finite s m e =>
      B64.Finite
        (Qred ((if s then inject_Z (Zneg m) else inject_Z (Zpos m)) * B64.pow2 e))
  end.

(** A float by its mantissa and exponent. *)
Definition to_spec (x : B64.float) : SpecFloat.spec_float :=
  match x with
  | B64.Finite q =>
      if Qeq_bool q 0 then SpecFloat.S754_zero false
      else
        let e := B64.ulp_exponent q in
        match py_round (q / B64.pow2 e) with
        | Zpos m => SpecFloat.S754_finite false m e
        | Zneg m => SpecFloat.S754_finite true m e
        | Z0 => SpecFloat.S754_zero false
        end
  | B64.Infinite s => SpecFloat.S754_infinity s
  | B64.NaN => SpecFloat.S754_nan
  end.

Definition of_prim (x : PrimFloat.float) : B64.float :=
  of_spec (FloatOps.Prim2SF x).

Definition to_prim (x : B64.float) : PrimFloat.float :=
  FloatOps.SF2Prim (to_spec x).

(** The same float: the same value, the same infinity, or both not a
    number. *)
Definition same_float (x y : B64.float) : bool :=
  match x, y with
  | B64.Finite a, B64.Finite b => Qeq_bool a b
  | B64.Infinite s, B64.Infinite t => Bool.eqb s t
  | B64.NaN, B64.NaN => true
  | _, _ => false
  end.

Definition same_quotient (x : outcome B64.float) (y : B64.float) (divisor : B64.float)
  : bool :=
  match x with
  | Value q => same_float q y
  | Raise _ => B64.feqb divisor (B64.Finite 0)
  end.

(** The operations of [B64] on [x] and [y] give what the specification and
    the processor give. *)
Definition agree (x y : B64.float) : bool :=
  let sx := to_spec x in
  let sy := to_spec y in
  let px := to_prim x in
  let py := to_prim y in
  same_float x (of_spec sx) && same_float x (of_prim px)
  && same_float (B64.fadd x y)
       (of_spec (SpecFloat.SFadd FloatOps.prec FloatOps.emax sx sy))
  && same_float (B64.fadd x y) (of_prim (PrimFloat.add px py))
  && same_float (B64.fsub x y)
       (of_spec (SpecFloat.SFsub FloatOps.prec FloatOps.emax sx sy))
  && same_float (B64.fsub x y) (of_prim (PrimFloat.sub px py))
  && same_float (B64.fmul x y)
       (of_spec (SpecFloat.SFmul FloatOps.prec FloatOps.emax sx sy))
  && same_float (B64.fmul x y) (of_prim (PrimFloat.mul px py))
  && same_quotient (B64.fdiv x y)
       (of_spec (SpecFloat.SFdiv FloatOps.prec FloatOps.emax sx sy)) y
  && same_quotient (B64.fdiv x y) (of_prim (PrimFloat.div px py)) y
  && Bool.eqb (B64.fle x y) (PrimFloat.leb px py)
  && Bool.eqb (B64.flt x y) (PrimFloat.ltb px py)
  && Bool.eqb (B64.feqb x y) (PrimFloat.eqb px py).

(** The operands: the constants of the program, weights and prices around
    the limits of the exact range and of the mantissa, and values that are
    not floats and have to be rounded first. *)
Definition operands : list B64.float :=
  [B64.NaN; B64.Infinite false; B64.Infinite true]
  ++ map B64.nearest
       [0; 1; -1; 2; 3; 4; 5; 7; 8; 10; 18; 26; 1 # 2; 5 # 2; 25; 1 # 3; 1 # 10;
        1 # 1000000000; 5000000001 # 1000000000; 10000000001 # 1000000000;
        50001 # 10000; 100001 # 10000; - (21 # 4);
        inject_Z (2 ^ 40); inject_Z (2 ^ 52 + 1) * (1 # 2);
        inject_Z (2 ^ 53); inject_Z (2 ^ 53 + 1); inject_Z (2 ^ 53 + 3);
        inject_Z (3 * (2 ^ 53 + 1)); 9007199254741002; 36028797018995936;
        13510798882111488; 14411518807585594; 43234556422756782;
        123456789 # 987654321]%Q.

(** Operands at the limits of the exponent: overflow and subnormals. *)
Definition large_operands : list B64.float :=
  map B64.nearest
    [inject_Z (2 * 10 ^ 307); inject_Z (6 * 10 ^ 307); inject_Z (10 ^ 308);
     inject_Z max_float; - inject_Z (10 ^ 308);
     B64.pow2 (-1022); B64.pow2 (-1074); 3 * B64.pow2 (-1075);
     (inject_Z (2 ^ 53 - 1)) * B64.pow2 (-1075)]%Q.

Definition partners : list B64.float :=
  map B64.nearest
    [3; 5 # 2; 1 # 1000000000; inject_Z (2 ^ 53 + 1); inject_Z max_float;
     B64.pow2 (-1074)]%Q.

Definition all_agree : bool :=
  forallb (fun x => forallb (agree x) operands) operands
  && forallb (fun x => forallb (fun y => agree x y && agree y x) partners)
       large_operands.

End Reference.

(** * Properties *)

(** ** Floats *)

Lemma fle_refl (x : pyfloat) : fle x x.
Proof. destruct x; simpl; [apply Qle_refl | exact I]. Qed.

Lemma fle_trans (x y z : pyfloat) : fle x y -> fle y z -> fle x z.
Proof.
  destruct x, y, z; simpl; try tauto. apply Qle_trans.
Qed.

Lemma feq_fle (x y : pyfloat) : feq x y -> fle x y.
Proof. destruct x, y; simpl; try tauto. intros ->. apply Qle_refl. Qed.

Lemma feq_sym (x y : pyfloat) : feq x y -> feq y x.
Proof. destruct x, y; simpl; try tauto. intros ->. reflexivity. Qed.

Lemma feq_trans (x y z : pyfloat) : feq x y -> feq y z -> feq x z.
Proof. destruct x, y, z; simpl; try tauto. intros -> ->. reflexivity. Qed.

Lemma fle_antisym (x y : pyfloat) : fle x y -> fle y x -> feq x y.
Proof. destruct x, y; simpl; try tauto. apply Qle_antisym. Qed.

Lemma fmin_le_l (a b : pyfloat) : fle (fmin a b) a.
Proof.
  destruct a as [x|], b as [y|]; simpl; try exact I; try apply Qle_refl.
  destruct (Qlt_le_dec y x); simpl; [apply Qlt_le_weak; assumption | apply Qle_refl].
Qed.

Lemma fmin_le_r (a b : pyfloat) : fle (fmin a b) b.
Proof.
  destruct a as [x|], b as [y|]; simpl; try exact I; try apply Qle_refl.
  destruct (Qlt_le_dec y x); simpl; [apply Qle_refl | assumption].
Qed.

Lemma fmin_cases (a b : pyfloat) : fmin a b = a \/ fmin a b = b.
Proof.
  destruct a as [x|], b as [y|]; simpl; auto.
  destruct (Qlt_le_dec y x); auto.
Qed.

Lemma fmin_glb (a b c : pyfloat) : fle c a -> fle c b -> fle c (fmin a b).
Proof. intros Ha Hb. destruct (fmin_cases a b) as [-> | ->]; assumption. Qed.

Lemma fmin_mono (a a' b b' : pyfloat) :
  fle a a' -> fle b b' -> fle (fmin a b) (fmin a' b').
Proof.
  intros Ha Hb. apply fmin_glb.
  - eapply fle_trans; [apply fmin_le_l | exact Ha].
  - eapply fle_trans; [apply fmin_le_r | exact Hb].
Qed.

Lemma fmin_assoc (a b c : pyfloat) : fmin a (fmin b c) = fmin (fmin a b) c.
Proof.
  destruct a as [x|], b as [y|], c as [z|]; simpl; try reflexivity;
    repeat (destruct (Qlt_le_dec _ _); simpl); try reflexivity; exfalso; lra.
Qed.

Lemma fadd_mono (a a' b b' : pyfloat) :
  fle a a' -> fle b b' -> fle (fadd a b) (fadd a' b').
Proof. destruct a, a', b, b'; simpl; try tauto. intros; lra. Qed.

Lemma fmin_PInf_r (a : pyfloat) : fmin a PInf = a.
Proof. destruct a; reflexivity. Qed.

(** ** The rounding *)

Lemma py_round_mono (p q : Q) : (p <= q)%Q -> py_round p <= py_round q.
Proof.
  intros Hpq. unfold py_round.
  pose proof (Qfloor_le p) as Hp1. pose proof (Qlt_floor p) as Hp2.
  pose proof (Qfloor_le q) as Hq1. pose proof (Qlt_floor q) as Hq2.
  pose proof (Qfloor_resp_le _ _ Hpq) as Hfl.
  rewrite inject_Z_plus in Hp2, Hq2.
  assert (Hcase : Qfloor p = Qfloor q \/ Qfloor p + 1 <= Qfloor q) by lia.
  destruct Hcase as [Heq | Hlt].
  - rewrite Heq in *.
    repeat (destruct (Qlt_le_dec _ _)); try lia; try (exfalso; lra);
      destruct (Z.even (Qfloor q)); try lia.
  - repeat (destruct (Qlt_le_dec _ _)); try lia;
      destruct (Z.even (Qfloor p)), (Z.even (Qfloor q)); lia.
Qed.

Lemma py_round_comp (p q : Q) : (p == q)%Q -> py_round p = py_round q.
Proof.
  intros H. apply Z.le_antisymm; apply py_round_mono; rewrite H; apply Qle_refl.
Qed.

Lemma py_round_nonneg (q : Q) : (0 <= q)%Q -> 0 <= py_round q.
Proof.
  intros H. change 0 with (py_round 0). apply py_round_mono. exact H.
Qed.

(** ** The tariff *)

Lemma Qle_bool_false (x y : Q) : Qle_bool x y = false <-> (y < x)%Q.
Proof.
  split; intros H.
  - apply Qnot_le_lt. intros Hle. apply Qle_bool_iff in Hle. congruence.
  - destruct (Qle_bool x y) eqn:E; [|reflexivity].
    apply Qle_bool_iff in E. exfalso; lra.
Qed.

Ltac case_Qle_bool :=
  match goal with
  | |- context [Qle_bool ?x ?y] =>
      let E := fresh "E" in
      destruct (Qle_bool x y) eqn:E;
      [apply Qle_bool_iff in E | apply Qle_bool_false in E]
  end.

Lemma epsilon_pos : (0 < epsilon)%Q.
Proof. reflexivity. Qed.

Lemma epsilon_small : (epsilon < 1 # 10000)%Q.
Proof. reflexivity. Qed.

Lemma cost_per_unit_rate (w : Q) : (App.cost_per_unit w == Spec.rate w)%Q.
Proof.
  unfold App.cost_per_unit, Spec.rate. pose proof epsilon_pos.
  repeat case_Qle_bool; try reflexivity; try (exfalso; lra).
  unfold py_max. destruct (Qlt_le_dec _ _); [reflexivity | exfalso; lra].
Qed.

Lemma rate_mono (u v : Q) : (u <= v)%Q -> (Spec.rate u <= Spec.rate v)%Q.
Proof.
  intros Huv. unfold Spec.rate.
  repeat case_Qle_bool; try lra.
  - assert (0 < (v - 5 - epsilon) / 5)%Q as Hpos.
    { apply Qlt_shift_div_l; lra. }
    pose proof (Qle_ceiling ((v - 5 - epsilon) / 5)) as Hc.
    assert (0 < inject_Z (Qceiling ((v - 5 - epsilon) / 5)))%Q as Hz by lra.
    lra.
  - assert ((u - 5 - epsilon) / 5 <= (v - 5 - epsilon) / 5)%Q as Hdiv.
    { apply Qmult_le_compat_r; [lra | ]. discriminate. }
    apply Qceiling_resp_le in Hdiv.
    rewrite Zle_Qle in Hdiv. lra.
Qed.

Lemma rate_ge_10 (w : Q) : (10 <= Spec.rate w)%Q.
Proof.
  assert (Spec.rate 0 == 10)%Q as H0 by reflexivity.
  destruct (Qlt_le_dec w 0) as [Hneg | Hpos].
  - unfold Spec.rate. pose proof epsilon_pos.
    case_Qle_bool; [lra | exfalso; lra].
  - rewrite <- H0 at 1. apply rate_mono. exact Hpos.
Qed.

Lemma cost_per_unit_mono (u v : Q) :
  (u <= v)%Q -> (App.cost_per_unit u <= App.cost_per_unit v)%Q.
Proof. intros H. rewrite !cost_per_unit_rate. apply rate_mono, H. Qed.

Lemma rate_comp (u v : Q) : (u == v)%Q -> (Spec.rate u == Spec.rate v)%Q.
Proof. intros H. apply Qle_antisym; apply rate_mono; rewrite H; apply Qle_refl. Qed.

(** ** Segment pricing and the route resolver *)

Lemma get_distance_eval (a b : location) :
  App.get_distance App.DISTANCES a b =
  match a, b with
  | C1, C3 | C3, C1 => PInf
  | _, _ => Fin (charged_distance a b)
  end.
Proof. destruct a, b; vm_compute; reflexivity. Qed.

Lemma segment_cost_pos (w d : Q) :
  (0 < d)%Q ->
  App.calculate_segment_cost w (Fin d) = Fin (App.cost_per_unit w * d).
Proof.
  intros Hd. unfold App.calculate_segment_cost.
  case_Qle_bool; [exfalso; lra | reflexivity].
Qed.

Lemma segment_cost_zero (w : Q) : App.calculate_segment_cost w (Fin 0) = Fin 0.
Proof. reflexivity. Qed.

(** Every leg of the documented topology has a finite price. *)
Lemma travel_cost_finite (a b : location) (w : Q) :
  exists c, App._calculate_travel_cost_between_stops App.DISTANCES a b w = Fin c
            /\ (c == Spec.rate w * charged_distance a b)%Q.
Proof.
  unfold App._calculate_travel_cost_between_stops.
  destruct a, b; rewrite !get_distance_eval; cbn [is_inf negb charged_distance];
    rewrite ?segment_cost_zero, ?segment_cost_pos by reflexivity;
    cbn [is_inf negb orb andb bool_decide fadd];
    eexists; (split; [reflexivity | rewrite ?cost_per_unit_rate; lra]).
Qed.

(** C7. With the edge between [C1] and [C2] missing from the table, the
    sub-leg from [C1] to [C2] has no distance, yet the leg from [C1] to [C3]
    at weight 1 is priced 30 (zero for the missing sub-leg plus 10 x 3),
    not reported as unreachable. *)
Theorem C7_missing_subleg_priced_as_zero :
  App.get_distance DISTANCES_without_C1_C2 C1 C2 = PInf /\
  App.get_distance DISTANCES_without_C1_C2 C1 C3 = PInf /\
  App.calculate_segment_cost 1 PInf = Fin 0 /\
  feq (App._calculate_travel_cost_between_stops DISTANCES_without_C1_C2 C1 C3 1)
      (Fin 30).
Proof.
  refine (conj _ (conj _ (conj _ _))); vm_compute; reflexivity.
Qed.

(** C10. The resolved leg cost is symmetric in its two locations. *)
Theorem C10_leg_cost_symmetric (a b : location) (w : Q) :
  (0 <= w)%Q ->
  feq (App._calculate_travel_cost_between_stops App.DISTANCES a b w)
      (App._calculate_travel_cost_between_stops App.DISTANCES b a w).
Proof.
  intros _.
  destruct (travel_cost_finite a b w) as (x & -> & Hx).
  destruct (travel_cost_finite b a w) as (y & -> & Hy).
  cbn [feq]. rewrite Hx, Hy.
  destruct a, b; reflexivity.
Qed.

Lemma C10_leg_cost_symmetric_witness :
  feq (App._calculate_travel_cost_between_stops App.DISTANCES C1 C3 12)
      (App._calculate_travel_cost_between_stops App.DISTANCES C3 C1 12).
Proof.
  apply (C10_leg_cost_symmetric C1 C3 12). discriminate.
Defined.

(** ** The catalog *)

Lemma products_spec (code : string) (info : product_info) :
  App.PRODUCTS !! code = Some info ->
  center info <> L1 /\ (0 < weight info)%Q.
Proof.
  intros H. unfold App.PRODUCTS in H.
  apply elem_of_list_to_map_2 in H.
  repeat (apply elem_of_cons in H; destruct H as [H | H];
          [inversion H; subst; split; [discriminate | reflexivity] | ]).
  apply elem_of_nil in H. contradiction.
Qed.

(** ** The parsing loop *)

Lemma initial_demand_ok : demand_ok App.initial_demand.
Proof.
  unfold demand_ok. refine (conj _ (conj _ (conj _ (conj _ (conj _ _))))).
  - intros [] Hc; try congruence; vm_compute; eauto.
  - reflexivity.
  - intros []; vm_compute; discriminate.
  - intros c. split.
    + intros H. cbn in H. set_solver.
    + intros H. exfalso. destruct c; vm_compute in H; discriminate.
  - reflexivity.
  - cbn. tauto.
Qed.

Lemma weight_at_add_item st code q info w c :
  weight_from_center st !! center info = Some w ->
  App.weight_at (add_item st code q info w) c =
  if decide (center info = c) then (w + weight info * inject_Z q)%Q
  else App.weight_at st c.
Proof.
  intros Hw. unfold App.weight_at, add_item. cbn.
  destruct (decide (center info = c)) as [-> | Hne].
  - rewrite lookup_insert_eq. reflexivity.
  - rewrite lookup_insert_ne by exact Hne. reflexivity.
Qed.

Lemma add_item_ok st code q info w :
  demand_ok st -> 0 < q ->
  App.PRODUCTS !! code = Some info ->
  weight_from_center st !! center info = Some w ->
  demand_ok (add_item st code q info w).
Proof.
  intros (Hkeys & HL1 & Hnn & Hneed & Htot & Hemp) Hq Hinfo Hw.
  destruct (products_spec _ _ Hinfo) as [HcL1 Hwpos].
  assert (0 < weight info * inject_Z q)%Q as Hpos.
  { apply Qmult_lt_0_compat; [exact Hwpos | ].
    change 0%Q with (inject_Z 0). rewrite <- Zlt_Qlt. exact Hq. }
  assert (App.weight_at st (center info) = w) as Hwat.
  { unfold App.weight_at. rewrite Hw. reflexivity. }
  pose proof (Hnn (center info)) as Hwnn. rewrite Hwat in Hwnn.
  unfold demand_ok. refine (conj _ (conj _ (conj _ (conj _ (conj _ _))))).
  - intros c Hc. cbn. destruct (decide (center info = c)) as [-> | Hne].
    + rewrite lookup_insert_eq. eauto.
    + rewrite lookup_insert_ne by exact Hne. auto.
  - cbn. rewrite lookup_insert_ne by exact HcL1. exact HL1.
  - intros c. rewrite (weight_at_add_item _ _ _ _ _ _ Hw).
    destruct (decide _); [lra | apply Hnn].
  - intros c. rewrite (weight_at_add_item _ _ _ _ _ _ Hw). cbn.
    rewrite elem_of_union, elem_of_singleton, Hneed.
    destruct (decide (center info = c)) as [-> | Hne].
    + split; [intros _; lra | auto].
    + split; [intros [H | H]; [exact H | congruence] | auto].
  - rewrite !(weight_at_add_item _ _ _ _ _ _ Hw). cbn [total_weight add_item].
    rewrite Htot.
    destruct (center info) eqn:Ec; try congruence;
      repeat (destruct (decide _) as [? | ?]; try congruence);
      rewrite <- Hwat; lra.
  - cbn. split.
    + intros H. exfalso. exact (insert_non_empty _ _ _ H).
    + intros H. exfalso. revert H. clear. set_solver.
Qed.

(** One iteration of the parsing loop on an accepted entry. *)
Lemma parse_order_zero code rest st :
  App.parse_order ((code, PyInt 0) :: rest) st = App.parse_order rest st.
Proof. reflexivity. Qed.

Lemma parse_order_positive code q rest st info w :
  0 < q ->
  App.PRODUCTS !! code = Some info ->
  weight_from_center st !! center info = Some w ->
  App.parse_order ((code, PyInt q) :: rest) st =
  App.parse_order rest (add_item st code q info w).
Proof.
  intros Hq Hinfo Hw. cbn [App.parse_order].
  destruct (Z.ltb_spec q 0); [lia | ].
  destruct (Z.eqb_spec q 0); [lia | ].
  rewrite Hinfo, Hw. reflexivity.
Qed.

Lemma per_center_weight_cons entry order c :
  Spec.per_center_weight (entry :: order) c =
  (Spec.contribution c entry + Spec.per_center_weight order c)%Q.
Proof. reflexivity. Qed.

(** A valid order is parsed to the end; the loop variables then hold the
    aggregate of the specification. *)
Lemma parse_order_valid (order : order_data) :
  forall st, valid_order order -> demand_ok st ->
  exists st',
    App.parse_order order st = Parsed st' /\ demand_ok st' /\
    (forall c, (App.weight_at st' c ==
                App.weight_at st c + Spec.per_center_weight order c)%Q) /\
    (items_needed st' = ∅ <-> items_needed st = ∅ /\ ~ has_positive order).
Proof.
  induction order as [| [code v] rest IH]; intros st Hvalid Hok.
  - exists st. refine (conj _ (conj _ (conj _ _))).
    + reflexivity.
    + exact Hok.
    + intros c. unfold Spec.per_center_weight. cbn [fold_right]. lra.
    + split; [intros H; split; [exact H | ] | tauto].
      intros Hp. apply Exists_nil in Hp. exact Hp.
  - apply Forall_cons in Hvalid.
    destruct Hvalid as [[[info Hinfo] (q & Hv & Hq)] Hrest].
    cbn [fst snd] in Hinfo, Hv. subst v.
    destruct (Z.eq_dec q 0) as [-> | Hq0].
    + rewrite parse_order_zero.
      destruct (IH st Hrest Hok) as (st' & Hp & Hok' & Hw' & He').
      exists st'. refine (conj _ (conj _ (conj _ _))).
      * exact Hp.
      * exact Hok'.
      * intros c. rewrite Hw', per_center_weight_cons.
        unfold Spec.contribution. cbn [fst snd]. rewrite Hinfo.
        destruct (decide _); rewrite ?Qmult_0_r; lra.
      * rewrite He'. split; intros [H1 H2]; (split; [exact H1 | ]).
        -- intros Hpos. apply H2.
           apply Exists_cons in Hpos.
           destruct Hpos as [(q & Hq' & Hq'') | Hpos];
             [cbn in Hq'; inversion Hq'; lia | exact Hpos].
        -- intros Hpos. apply H2. apply Exists_cons. right. exact Hpos.
    + assert (0 < q) as Hqpos by lia.
      destruct (products_spec _ _ Hinfo) as [HcL1 Hwpos].
      destruct (proj1 Hok _ HcL1) as [w Hw].
      rewrite (parse_order_positive _ _ _ _ _ _ Hqpos Hinfo Hw).
      pose proof (add_item_ok _ _ _ _ _ Hok Hqpos Hinfo Hw) as Hok1.
      destruct (IH _ Hrest Hok1) as (st' & Hp & Hok' & Hw' & He').
      exists st'. refine (conj _ (conj _ (conj _ _))).
      * exact Hp.
      * exact Hok'.
      * intros c. rewrite Hw', per_center_weight_cons.
        rewrite (weight_at_add_item _ _ _ _ _ _ Hw).
        unfold Spec.contribution. cbn [fst snd]. rewrite Hinfo.
        destruct (decide _) as [<- | ?]; [ | lra].
        unfold App.weight_at. rewrite Hw. unfold default, from_option, id. lra.
      * rewrite He'. split.
        -- intros [H _]. cbn in H. exfalso. exact (insert_non_empty _ _ _ H).
        -- intros [_ H]. exfalso. apply H. apply Exists_cons. left.
           exists q. split; [reflexivity | exact Hqpos].
Qed.

Lemma initial_keys_ok : keys_ok App.initial_demand.
Proof. exact (proj1 initial_demand_ok). Qed.

Lemma add_item_keys_ok st code q info w :
  keys_ok st -> keys_ok (add_item st code q info w).
Proof.
  intros Hk c Hc. cbn. destruct (decide (center info = c)) as [-> | Hne].
  - rewrite lookup_insert_eq. eauto.
  - rewrite lookup_insert_ne by exact Hne. auto.
Qed.

(** The outcome of the loop on a first entry, by cases. *)
Lemma parse_order_head code v rest st :
  keys_ok st ->
  (exists e, App.parse_order ((code, v) :: rest) st = ParseError e /\
             error_product e = Some code /\ ~ accepted_entry (code, v)) \/
  (exists st', App.parse_order ((code, v) :: rest) st = App.parse_order rest st' /\
               keys_ok st' /\ accepted_entry (code, v)).
Proof.
  intros Hk. cbn [App.parse_order]. destruct v as [q | ].
  - destruct (Z.ltb_spec q 0) as [Hneg | Hnn].
    { left. eexists. split; [reflexivity | split; [reflexivity | ]].
      intros (q' & Hq' & Hge & _). cbn in Hq'. inversion Hq'. lia. }
    destruct (Z.eqb_spec q 0) as [-> | Hq0].
    { right. exists st. split; [reflexivity | split; [exact Hk | ]].
      exists 0. cbn. auto with zarith. }
    destruct (App.PRODUCTS !! code) as [info | ] eqn:Hinfo.
    + destruct (products_spec _ _ Hinfo) as [HcL1 _].
      destruct (Hk _ HcL1) as [w Hw]. rewrite Hw.
      right. eexists. split; [reflexivity | split].
      * apply (add_item_keys_ok st code q info w Hk).
      * exists q. cbn [fst snd]. rewrite Hinfo. eauto.
    + left. eexists. split; [reflexivity | split; [reflexivity | ]].
      intros (q' & Hq' & Hge & [H0 | Hs]); cbn [fst snd] in *.
      * inversion Hq'. lia.
      * rewrite Hinfo in Hs. destruct Hs; discriminate.
  - left. eexists. split; [reflexivity | split; [reflexivity | ]].
    intros (q' & Hq' & _). cbn in Hq'. discriminate.
Qed.

Lemma unknown_not_accepted entry : unknown_entry entry -> ~ accepted_entry entry.
Proof.
  intros [Hnone Hv] (q & Hq & Hge & [H0 | Hs]).
  - subst q. contradiction.
  - rewrite Hnone in Hs. destruct Hs; discriminate.
Qed.

(** ** The short-circuit on an empty demand *)

Lemma parse_order_all_zero (order : order_data) (st : demand) :
  Forall (fun entry => snd entry = PyInt 0) order ->
  App.parse_order order st = Parsed st.
Proof.
  induction 1 as [| [code v] rest Hv _ IH]; [reflexivity | ].
  cbn [snd] in Hv. subst v. rewrite parse_order_zero. exact IH.
Qed.

(** C8. An order without positive quantities (empty, or every quantity 0)
    returns cost 0 from the short-circuit: the loop variables are still the
    initial ones, and the route search is not what produces the value (run
    on those variables it would give 20). *)
Theorem C8_empty_order_short_circuit (order : order_data) :
  Forall (fun entry => snd entry = PyInt 0) order ->
  App._calculate_overall_minimum_cost App.DISTANCES order = Cost 0 /\
  App.parse_order order App.initial_demand = Parsed App.initial_demand /\
  items_needed App.initial_demand = ∅ /\
  feq (App.search App.DISTANCES App.initial_demand) (Fin 20).
Proof.
  intros Hz. pose proof (parse_order_all_zero order App.initial_demand Hz) as Hp.
  refine (conj _ (conj Hp (conj eq_refl _))).
  - unfold App._calculate_overall_minimum_cost. rewrite Hp. reflexivity.
  - vm_compute. reflexivity.
Qed.

Lemma C8_empty_order_short_circuit_witness :
  App._calculate_overall_minimum_cost App.DISTANCES
    [("A"%string, PyInt 0); ("G"%string, PyInt 0)] = Cost 0.
Proof.
  refine (proj1 (C8_empty_order_short_circuit
                   [("A"%string, PyInt 0); ("G"%string, PyInt 0)] _)).
  repeat constructor.
Defined.

(** ** Minima of candidate lists *)

Lemma elem_of_map {A B} (f : A -> B) (l : list A) (y : B) :
  y ∈ map f l <-> exists x, y = f x /\ x ∈ l.
Proof.
  rewrite list_elem_of_In, in_map_iff. split.
  - intros (x & <- & Hx). exists x. rewrite list_elem_of_In. auto.
  - intros (x & -> & Hx). exists x. rewrite <- list_elem_of_In. auto.
Qed.

Lemma least_le (l : list pyfloat) (x : pyfloat) :
  x ∈ l -> fle (Spec.least l) x.
Proof.
  induction l as [| y l IH]; intros Hx.
  - apply elem_of_nil in Hx. contradiction.
  - apply elem_of_cons in Hx. cbn [Spec.least fold_right].
    destruct Hx as [-> | Hx].
    + apply fmin_le_l.
    + eapply fle_trans; [apply fmin_le_r | apply IH, Hx].
Qed.

Lemma least_glb (l : list pyfloat) (m : pyfloat) :
  (forall x, x ∈ l -> fle m x) -> fle m (Spec.least l).
Proof.
  induction l as [| y l IH]; intros H.
  - destruct m; exact I.
  - cbn [Spec.least fold_right]. apply fmin_glb.
    + apply H. apply elem_of_cons. auto.
    + apply IH. intros x Hx. apply H. apply elem_of_cons. auto.
Qed.

Lemma least_attained (l : list pyfloat) :
  Spec.least l = PInf \/ Spec.least l ∈ l.
Proof.
  induction l as [| y l IH]; [left; reflexivity | ].
  cbn [Spec.least fold_right].
  destruct (fmin_cases y (fold_right fmin PInf l)) as [-> | ->].
  - right. apply elem_of_cons. auto.
  - destruct IH as [IH | IH]; [left; exact IH | right].
    apply elem_of_cons. auto.
Qed.

(** The least of one list is below the least of another as soon as every
    candidate of the second is dominated by a candidate of the first. *)
Lemma least_dominated (l1 l2 : list pyfloat) :
  (forall y, y ∈ l2 -> exists x, x ∈ l1 /\ fle x y) ->
  fle (Spec.least l1) (Spec.least l2).
Proof.
  intros H. apply least_glb. intros y Hy.
  destruct (H y Hy) as (x & Hx & Hxy).
  eapply fle_trans; [apply least_le, Hx | exact Hxy].
Qed.

Lemma least_map_mono {A} (f g : A -> pyfloat) (l : list A) :
  (forall x, x ∈ l -> fle (f x) (g x)) ->
  fle (Spec.least (map f l)) (Spec.least (map g l)).
Proof.
  intros H. apply least_dominated. intros y Hy.
  apply elem_of_map in Hy. destruct Hy as (x & -> & Hx).
  exists (f x). split; [ | apply H, Hx].
  apply elem_of_map. eauto.
Qed.

Lemma least_finite (l : list pyfloat) :
  l <> [] -> (forall x, x ∈ l -> exists c, x = Fin c) ->
  exists c, Spec.least l = Fin c.
Proof.
  intros Hne Hfin. destruct l as [| y l]; [congruence | ].
  destruct (least_attained (y :: l)) as [Hinf | Hin].
  - destruct (Hfin y) as [c Hc]; [apply elem_of_cons; auto | ].
    pose proof (least_le (y :: l) y) as Hle.
    rewrite Hinf, Hc in Hle. exfalso. apply Hle. apply elem_of_cons. auto.
  - apply Hfin, Hin.
Qed.

(** The running minimum of a loop is the least of its candidates. *)
Lemma running_min_le {A} (f : A -> pyfloat) (l : list A) (acc : pyfloat) :
  fle (fold_left (fun m x => fmin m (f x)) l acc) acc /\
  forall x, x ∈ l -> fle (fold_left (fun m x => fmin m (f x)) l acc) (f x).
Proof.
  revert acc. induction l as [| y l IH]; intros acc; cbn [fold_left].
  - split; [apply fle_refl | ]. intros x Hx. apply elem_of_nil in Hx. contradiction.
  - destruct (IH (fmin acc (f y))) as [IH1 IH2]. split.
    + eapply fle_trans; [exact IH1 | apply fmin_le_l].
    + intros x Hx. apply elem_of_cons in Hx. destruct Hx as [-> | Hx].
      * eapply fle_trans; [exact IH1 | apply fmin_le_r].
      * apply IH2, Hx.
Qed.

Lemma running_min_glb {A} (f : A -> pyfloat) (l : list A) (acc m : pyfloat) :
  fle m acc -> (forall x, x ∈ l -> fle m (f x)) ->
  fle m (fold_left (fun m x => fmin m (f x)) l acc).
Proof.
  revert acc. induction l as [| y l IH]; intros acc Hacc H; cbn [fold_left].
  - exact Hacc.
  - apply IH.
    + apply fmin_glb; [exact Hacc | apply H; apply elem_of_cons; auto].
    + intros x Hx. apply H. apply elem_of_cons. auto.
Qed.

Lemma running_min_least {A} (f g : A -> pyfloat) (l : list A) :
  (forall x, x ∈ l -> feq (f x) (g x)) ->
  feq (fold_left (fun m x => fmin m (f x)) l PInf) (Spec.least (map g l)).
Proof.
  intros H. apply fle_antisym.
  - apply least_glb. intros y Hy.
    apply elem_of_map in Hy. destruct Hy as (x & -> & Hx).
    eapply fle_trans; [apply running_min_le, Hx | apply feq_fle, H, Hx].
  - apply running_min_glb.
    + destruct (Spec.least _); exact I.
    + intros x Hx. eapply fle_trans; [ | apply feq_fle, feq_sym, H, Hx].
      apply least_le. apply elem_of_map. eauto.
Qed.

Lemma fmin_feq (a a' b b' : pyfloat) :
  feq a a' -> feq b b' -> feq (fmin a b) (fmin a' b').
Proof.
  intros Ha Hb. apply fle_antisym; apply fmin_mono;
    auto using feq_fle, feq_sym.
Qed.

Lemma fadd_feq (a a' b b' : pyfloat) :
  feq a a' -> feq b b' -> feq (fadd a b) (fadd a' b').
Proof.
  intros Ha Hb. apply fle_antisym; apply fadd_mono;
    auto using feq_fle, feq_sym.
Qed.

Lemma feq_refl (a : pyfloat) : feq a a.
Proof. destruct a; cbn; [reflexivity | exact I]. Qed.

(** ** Permutations *)

Lemma permutations_n_nonempty {A} (n : nat) :
  forall l : list A, length l = n -> permutations_n n l <> [].
Proof.
  induction n as [| n IH]; intros l Hl; cbn [permutations_n]; [discriminate | ].
  destruct l as [| x r]; [discriminate | ].
  cbn [selections flat_map fst snd].
  injection Hl as Hl. specialize (IH r Hl).
  destruct (permutations_n n r); [congruence | discriminate].
Qed.

Lemma permutations_nonempty {A} (l : list A) : permutations l <> [].
Proof. apply permutations_n_nonempty. reflexivity. Qed.

(** ** The route resolver of the specification *)

Lemma charged_distance_nonneg (a b : location) : (0 <= charged_distance a b)%Q.
Proof. destruct a, b; discriminate. Qed.

Lemma direct_cost_eval (a b : location) (w : Q) :
  Spec.direct_cost a b w =
  match a, b with
  | C1, C3 | C3, C1 => PInf
  | C1, C1 | C2, C2 | C3, C3 | L1, L1 => Fin 0
  | _, _ => Fin (Spec.rate w * charged_distance a b)
  end.
Proof. destruct a, b; vm_compute; reflexivity. Qed.

Lemma leg_cost_eval (a b : location) (w : Q) :
  exists c, Spec.leg_cost a b w = Fin c /\
            (c == Spec.rate w * charged_distance a b)%Q.
Proof.
  unfold Spec.leg_cost. rewrite !direct_cost_eval.
  destruct a, b; cbn [charged_distance fadd];
    rewrite ?decide_True by (clear; tauto);
    rewrite ?direct_cost_eval; cbn [charged_distance fadd];
    (eexists; split; [reflexivity | lra]).
Qed.

Lemma leg_cost_travel (a b : location) (w w' : Q) :
  (w == w')%Q ->
  feq (App._calculate_travel_cost_between_stops App.DISTANCES a b w)
      (Spec.leg_cost a b w').
Proof.
  intros Hw.
  destruct (travel_cost_finite a b w) as (x & -> & Hx).
  destruct (leg_cost_eval a b w') as (y & -> & Hy).
  cbn [feq]. rewrite Hx, Hy, (rate_comp _ _ Hw). reflexivity.
Qed.

Lemma leg_cost_mono (a b : location) (w w' : Q) :
  (w <= w')%Q -> fle (Spec.leg_cost a b w) (Spec.leg_cost a b w').
Proof.
  intros Hw.
  destruct (leg_cost_eval a b w) as (x & -> & Hx).
  destruct (leg_cost_eval a b w') as (y & -> & Hy).
  cbn [fle]. rewrite Hx, Hy.
  apply Qmult_le_compat_r; [apply rate_mono, Hw | apply charged_distance_nonneg].
Qed.

Lemma leg_cost_nonneg (a b : location) (w : Q) :
  fle (Fin 0) (Spec.leg_cost a b w).
Proof.
  destruct (leg_cost_eval a b w) as (x & -> & Hx). cbn [fle]. rewrite Hx.
  apply Qmult_le_0_compat; [ | apply charged_distance_nonneg].
  pose proof (rate_ge_10 w). lra.
Qed.

(** ** Routes *)

Lemma walk_step_valid DIST st cost w loc b c :
  App._calculate_travel_cost_between_stops DIST loc b w = Fin c ->
  App.walk_step DIST st
    {| walk_cost := cost; walk_weight := w; walk_loc := loc;
       walk_valid := true |} b =
  {| walk_cost := cost + c; walk_weight := w + App.weight_at st b;
     walk_loc := b; walk_valid := true |}.
Proof.
  intros H. unfold App.walk_step. cbn [walk_valid walk_loc walk_weight walk_cost].
  rewrite H. reflexivity.
Qed.

Section Routes.
Variable pcw : location -> Q.

Lemma route_cost_finite (visits : list location) :
  forall loc carried fw,
  exists c, Spec.route_cost pcw loc carried visits fw = Fin c /\ (0 <= c)%Q.
Proof.
  induction visits as [| b rest IH]; intros loc carried fw; cbn [Spec.route_cost].
  - pose proof (leg_cost_nonneg loc L1 fw) as Hnn.
    destruct (leg_cost_eval loc L1 fw) as (c & Hc & _). rewrite Hc in *.
    exists c. auto.
  - pose proof (leg_cost_nonneg loc b carried) as Hnn.
    destruct (leg_cost_eval loc b carried) as (c & Hc & _). rewrite Hc in *.
    destruct (IH b (carried + pcw b)%Q fw) as (r & -> & Hr).
    cbn [fadd fle] in *. eexists. split; [reflexivity | lra].
Qed.

Lemma route_cost_mono (pcw' : location -> Q) (visits : list location) :
  (forall c, (pcw c <= pcw' c)%Q) ->
  forall loc carried carried' fw fw',
  (carried <= carried')%Q -> (fw <= fw')%Q ->
  fle (Spec.route_cost pcw loc carried visits fw)
      (Spec.route_cost pcw' loc carried' visits fw').
Proof.
  intros Hp. induction visits as [| b rest IH];
    intros loc carried carried' fw fw' Hc Hf; cbn [Spec.route_cost].
  - apply leg_cost_mono, Hf.
  - apply fadd_mono; [apply leg_cost_mono, Hc | ].
    apply IH; [ | exact Hf]. specialize (Hp b). lra.
Qed.

Variable st : demand.
Hypothesis weights_agree : forall c, (App.weight_at st c == pcw c)%Q.

(** The walk along an order never breaks in the documented topology, and
    its cost is the route cost of the specification. *)
Lemma walk_route (order : list location) :
  forall cost w w' loc, (w == w')%Q ->
  let s := fold_left (App.walk_step App.DISTANCES st) order
             {| walk_cost := cost; walk_weight := w;
                walk_loc := loc; walk_valid := true |} in
  walk_valid s = true /\
  forall fw fw', (fw == fw')%Q ->
    exists f,
      App._calculate_travel_cost_between_stops App.DISTANCES (walk_loc s) L1 fw
      = Fin f /\
      feq (Fin (walk_cost s + f))
          (fadd (Fin cost) (Spec.route_cost pcw loc w' order fw')).
Proof.
  induction order as [| b rest IH]; intros cost w w' loc Hw; cbn [fold_left].
  - cbn [walk_valid walk_loc walk_cost Spec.route_cost].
    split; [reflexivity | ]. intros fw fw' Hfw.
    pose proof (leg_cost_travel loc L1 fw fw' Hfw) as Hleg.
    destruct (travel_cost_finite loc L1 fw) as (f & Hf & _). rewrite Hf in *.
    exists f. split; [reflexivity | ].
    destruct (Spec.leg_cost loc L1 fw'); cbn [feq fadd] in *; [lra | exact Hleg].
  - pose proof (leg_cost_travel loc b w w' Hw) as Hleg.
    destruct (travel_cost_finite loc b w) as (c1 & Hc1 & _). rewrite Hc1 in *.
    rewrite (walk_step_valid _ st cost _ _ _ _ Hc1).
    assert (w + App.weight_at st b == w' + pcw b)%Q as Hw2.
    { rewrite weights_agree, Hw. reflexivity. }
    destruct (IH (cost + c1)%Q _ _ b Hw2) as [Hv Hr].
    split; [exact Hv | ]. intros fw fw' Hfw.
    destruct (Hr fw fw' Hfw) as (f & Hf & Heq).
    exists f. split; [exact Hf | ].
    eapply feq_trans; [exact Heq | ]. cbn [Spec.route_cost].
    destruct (Spec.leg_cost loc b w'); [ | contradiction].
    destruct (Spec.route_cost pcw b (w' + pcw b) rest fw');
      cbn [feq fadd] in *; [lra | exact I].
Qed.

Lemma walk_candidate_route loc w w' order fw fw' :
  (w == w')%Q -> (fw == fw')%Q ->
  feq (walk_candidate App.DISTANCES st loc w order fw)
      (Spec.route_cost pcw loc w' order fw').
Proof.
  intros Hw Hfw. unfold walk_candidate.
  destruct (walk_route order 0 w w' loc Hw) as [Hv Hr]. rewrite Hv.
  destruct (Hr fw fw' Hfw) as (f & -> & Heq). cbn [negb].
  eapply feq_trans; [exact Heq | ].
  destruct (Spec.route_cost pcw loc w' order fw'); cbn [feq fadd]; [lra | exact I].
Qed.

End Routes.

(** The permutation loop keeps the least candidate. *)
Lemma fold_left_ext_eq {A B} (f g : A -> B -> A) (l : list B) (a : A) :
  (forall a x, f a x = g a x) -> fold_left f l a = fold_left g l a.
Proof.
  intros H. revert a. induction l as [| x l IH]; intros a; cbn [fold_left].
  - reflexivity.
  - rewrite H. apply IH.
Qed.

Lemma min_over_permutations_running DIST st loc w to_visit fw :
  App.min_over_permutations DIST st loc w to_visit fw =
  fold_left (fun m order => fmin m (walk_candidate DIST st loc w order fw))
            (permutations to_visit) PInf.
Proof.
  unfold App.min_over_permutations. apply fold_left_ext_eq.
  intros m order. unfold walk_candidate.
  destruct (negb _); [rewrite fmin_PInf_r; reflexivity | ].
  destruct (App._calculate_travel_cost_between_stops _ _ _ _);
    [reflexivity | rewrite fmin_PInf_r; reflexivity].
Qed.

Lemma min_over_permutations_least st pcw loc w w' to_visit fw fw' :
  (forall c, (App.weight_at st c == pcw c)%Q) ->
  (w == w')%Q -> (fw == fw')%Q ->
  feq (App.min_over_permutations App.DISTANCES st loc w to_visit fw)
      (Spec.least (map (fun order => Spec.route_cost pcw loc w' order fw')
                       (permutations to_visit))).
Proof.
  intros Hagree Hw Hfw. rewrite min_over_permutations_running.
  apply running_min_least. intros order _.
  apply walk_candidate_route; assumption.
Qed.

(** ** The two strategies and the search *)

Lemma others_size (N : gset location) (s : location) :
  s ∈ N -> size N = S (length (elements (N ∖ {[s]}))).
Proof.
  intros Hs. change (length (elements (N ∖ {[s]}))) with (size (N ∖ {[s]})).
  rewrite size_difference by set_solver. rewrite size_singleton.
  assert (size N <> 0)%nat as Hne.
  { intros H0. apply size_empty_iff in H0. set_solver. }
  lia.
Qed.

Section Refinement.
Variable st : demand.
Variable pcw : location -> Q.
Variable total : Q.
Hypothesis st_ok : demand_ok st.
Hypothesis weights_agree : forall c, (App.weight_at st c == pcw c)%Q.
Hypothesis total_agrees : (total_weight st == total)%Q.

Lemma cost_simple_strategy_A (start : location) :
  feq (App.cost_simple App.DISTANCES st start)
      (Spec.strategy_A pcw total (needed_centers st) start).
Proof.
  unfold App.cost_simple, Spec.strategy_A, Spec.others.
  destruct (elements (needed_centers st ∖ {[start]})) as [| x l] eqn:El.
  - assert (bool_decide (start ∈ needed_centers st)
            || bool_decide (needed_centers st = ∅) = true) as ->.
    { apply elements_empty_inv in El.
      destruct (decide (start ∈ needed_centers st)) as [Hin | Hnin].
      - rewrite (bool_decide_eq_true_2 _ Hin). reflexivity.
      - rewrite (bool_decide_eq_true_2 (needed_centers st = ∅)); [apply orb_true_r | ].
        apply leibniz_equiv. set_solver. }
    change (permutations (@nil location)) with [@nil location].
    cbn [map Spec.least fold_right Spec.route_cost]. rewrite fmin_PInf_r.
    apply leg_cost_travel, total_agrees.
  - apply min_over_permutations_least; auto.
Qed.

Lemma cost_partial_strategy_B (start : location) :
  feq (App.cost_partial App.DISTANCES st start)
      (Spec.strategy_B pcw total (needed_centers st) start).
Proof.
  unfold App.cost_partial, Spec.strategy_B, Spec.others.
  destruct st_ok as (_ & _ & _ & Hneed & _ & _).
  pose proof (weights_agree start) as Hws.
  destruct (Qlt_le_dec 0 (App.weight_at st start)) as [Hpos | Hle];
    destruct (Qlt_le_dec 0 (pcw start)) as [Hpos' | Hle'];
    try (exfalso; lra); cbn [andb]; [ | exact I].
  apply Hneed in Hpos. rewrite (others_size _ _ Hpos).
  destruct (elements (needed_centers st ∖ {[start]})) as [| x l] eqn:El.
  - cbn. exact I.
  - rewrite bool_decide_eq_true_2 by (cbn [length]; lia).
    rewrite bool_decide_eq_false_2 by discriminate. cbn [negb].
    pose proof (leg_cost_travel start L1 _ _ Hws) as Hleg.
    destruct (travel_cost_finite start L1 (App.weight_at st start))
      as (c1 & Hc1 & _). rewrite Hc1 in *. cbn [is_inf negb].
    pose proof (min_over_permutations_least st pcw L1 0 0 (x :: l)
                  (total_weight st - App.weight_at st start)
                  (total - pcw start) weights_agree) as Hmin.
    assert (feq (App.min_over_permutations App.DISTANCES st L1 0 (x :: l)
                   (total_weight st - App.weight_at st start))
                (Spec.least
                   (map (fun order => Spec.route_cost pcw L1 0 order
                                        (total - pcw start))
                        (permutations (x :: l))))) as H.
    { apply Hmin; [reflexivity | ]. rewrite total_agrees, Hws. reflexivity. }
    destruct (App.min_over_permutations _ _ _ _ _ _) as [m | ];
      cbn [is_inf negb].
    + apply fadd_feq; assumption.
    + destruct (Spec.least _); [contradiction | ].
      destruct (Spec.leg_cost _ _ _); exact I.
Qed.

Lemma search_minimum_cost :
  feq (App.search App.DISTANCES st)
      (Spec.minimum_cost pcw total (needed_centers st)).
Proof.
  unfold App.search, Spec.minimum_cost.
  apply (running_min_least
           (fun s => fmin (App.cost_simple App.DISTANCES st s)
                          (App.cost_partial App.DISTANCES st s))).
  intros s _. apply fmin_feq.
  - apply cost_simple_strategy_A.
  - apply cost_partial_strategy_B.
Qed.

End Refinement.

(** ** The aggregate of the specification *)

Lemma per_center_weight_nonneg (order : order_data) (c : location) :
  valid_order order -> (0 <= Spec.per_center_weight order c)%Q.
Proof.
  induction 1 as [| [code v] rest Hv _ IH].
  - discriminate.
  - rewrite per_center_weight_cons.
    destruct Hv as [[info Hinfo] (q & Hq & Hge)]. cbn [fst snd] in *. subst v.
    unfold Spec.contribution. cbn [fst snd]. rewrite Hinfo.
    destruct (products_spec _ _ Hinfo) as [_ Hw].
    assert (0 <= weight info * inject_Z q)%Q.
    { apply Qmult_le_0_compat; [lra | ].
      change 0%Q with (inject_Z 0). rewrite <- Zle_Qle. exact Hge. }
    destruct (decide _); lra.
Qed.

Lemma elem_of_needed (pcw : location -> Q) (c : location) :
  c ∈ Spec.needed pcw <-> c <> L1 /\ ~ (pcw c == 0)%Q.
Proof.
  unfold Spec.needed. rewrite elem_of_list_to_set, list_elem_of_filter.
  unfold App.CENTERS. rewrite !elem_of_cons, elem_of_nil.
  rewrite negb_True, Is_true_true, Qeq_bool_iff.
  split.
  - intros [Hnz Hc]. split; [ | exact Hnz].
    destruct Hc as [-> | [-> | [-> | []]]]; discriminate.
  - intros [Hc Hnz]. split; [exact Hnz | ]. destruct c; tauto.
Qed.

(** The loop variables after parsing a valid order are the aggregate. *)
Lemma parse_order_aggregate (order : order_data) :
  valid_order order ->
  exists st,
    App.parse_order order App.initial_demand = Parsed st /\ demand_ok st /\
    (forall c, (App.weight_at st c == Spec.per_center_weight order c)%Q) /\
    (total_weight st == Spec.grand_total (Spec.per_center_weight order))%Q /\
    needed_centers st = Spec.needed (Spec.per_center_weight order) /\
    (items_needed st = ∅ <-> ~ has_positive order).
Proof.
  intros Hvalid.
  destruct (parse_order_valid order _ Hvalid initial_demand_ok)
    as (st & Hp & Hok & Hw & He).
  assert (forall c, (App.weight_at st c == Spec.per_center_weight order c)%Q)
    as Hw'.
  { intros c. rewrite Hw.
    assert (App.weight_at App.initial_demand c == 0)%Q as ->
      by (destruct c; reflexivity).
    lra. }
  exists st. refine (conj Hp (conj Hok (conj Hw' (conj _ (conj _ _))))).
  - destruct Hok as (_ & _ & _ & _ & Htot & _).
    rewrite Htot. unfold Spec.grand_total. rewrite !Hw'. reflexivity.
  - apply set_eq. intros c. rewrite elem_of_needed.
    destruct Hok as (_ & HL1 & Hnn & Hneed & _ & _).
    rewrite Hneed. specialize (Hnn c). rewrite <- Hw'. split.
    + intros Hpos. split; [ | lra]. intros ->.
      unfold App.weight_at in Hpos. rewrite HL1 in Hpos. cbn in Hpos. lra.
    + intros [_ Hnz]. lra.
  - rewrite He. split; [tauto | ]. intros H. split; [reflexivity | exact H].
Qed.

(** ** Feasibility *)

Lemma fle_zero_fadd (a b : pyfloat) :
  fle (Fin 0) a -> fle (Fin 0) b -> fle (Fin 0) (fadd a b).
Proof. destruct a, b; cbn; try tauto. intros; lra. Qed.

Lemma least_routes_finite pcw loc w fw (visits : list location) :
  exists m,
    Spec.least (map (fun order => Spec.route_cost pcw loc w order fw)
                    (permutations visits)) = Fin m /\ (0 <= m)%Q.
Proof.
  destruct (least_finite
              (map (fun order => Spec.route_cost pcw loc w order fw)
                   (permutations visits))) as [m Hm].
  - pose proof (permutations_nonempty visits) as Hne.
    destruct (permutations visits); [congruence | discriminate].
  - intros x Hx. apply elem_of_map in Hx. destruct Hx as (order & -> & _).
    destruct (route_cost_finite pcw order loc w fw) as (c & Hc & _). eauto.
  - exists m. split; [exact Hm | ].
    change (fle (Fin 0) (Fin m)). rewrite <- Hm. apply least_glb.
    intros x Hx. apply elem_of_map in Hx. destruct Hx as (order & -> & _).
    destruct (route_cost_finite pcw order loc w fw) as (c & -> & Hc). exact Hc.
Qed.

Lemma strategy_B_nonneg pcw total N start :
  fle (Fin 0) (Spec.strategy_B pcw total N start).
Proof.
  unfold Spec.strategy_B. destruct (_ && _); [ | exact I].
  apply fle_zero_fadd; [apply leg_cost_nonneg | ].
  destruct (least_routes_finite pcw L1 0 (total - pcw start)
              (Spec.others N start)) as (m & -> & Hm). exact Hm.
Qed.

(** The search of the specification always finds a route. *)
Lemma minimum_cost_finite pcw total N :
  exists m, Spec.minimum_cost pcw total N = Fin m /\ (0 <= m)%Q.
Proof.
  assert (forall s, exists m,
             fmin (Spec.strategy_A pcw total N s) (Spec.strategy_B pcw total N s)
             = Fin m /\ (0 <= m)%Q) as Hstart.
  { intros s. unfold Spec.strategy_A.
    destruct (least_routes_finite pcw s (pcw s) total (Spec.others N s))
      as (a & -> & Ha).
    pose proof (strategy_B_nonneg pcw total N s) as Hb.
    destruct (Spec.strategy_B pcw total N s) as [b | ]; cbn [fmin fle] in *.
    - destruct (Qlt_le_dec b a); eauto.
    - eauto. }
  unfold Spec.minimum_cost.
  destruct (least_finite
              (map (fun s => fmin (Spec.strategy_A pcw total N s)
                                  (Spec.strategy_B pcw total N s))
                   App.CENTERS)) as [m Hm].
  - discriminate.
  - intros x Hx. apply elem_of_map in Hx. destruct Hx as (s & -> & _).
    destruct (Hstart s) as (m & Hm & _). eauto.
  - exists m. split; [exact Hm | ].
    change (fle (Fin 0) (Fin m)). rewrite <- Hm. apply least_glb.
    intros x Hx. apply elem_of_map in Hx. destruct Hx as (s & -> & _).
    destruct (Hstart s) as (m' & -> & Hm'). exact Hm'.
Qed.

(** The search of the program finds a route on every demand the parsing
    loop can leave. *)
Lemma search_finite (st : demand) :
  demand_ok st ->
  exists m, App.search App.DISTANCES st = Fin m /\ (0 <= m)%Q.
Proof.
  intros Hok.
  pose proof (search_minimum_cost st (App.weight_at st) (total_weight st) Hok
                (fun c => Qeq_refl _) (Qeq_refl _)) as Heq.
  destruct (minimum_cost_finite (App.weight_at st) (total_weight st)
              (needed_centers st)) as (m & Hm & Hnn).
  rewrite Hm in Heq. destruct (App.search App.DISTANCES st) as [m' | ];
    [ | contradiction].
  exists m'. cbn [feq] in Heq. split; [reflexivity | lra].
Qed.

Lemma parse_order_ok (order : order_data) :
  forall st st', demand_ok st -> App.parse_order order st = Parsed st' ->
  demand_ok st'.
Proof.
  induction order as [| [code v] rest IH]; intros st st' Hok Hp.
  - cbn in Hp. injection Hp as <-. exact Hok.
  - cbn [App.parse_order] in Hp. destruct v as [q | ]; [ | discriminate].
    destruct (Z.ltb_spec q 0); [discriminate | ].
    destruct (Z.eqb_spec q 0); [apply (IH _ _ Hok Hp) | ].
    destruct (App.PRODUCTS !! code) as [info | ] eqn:Hinfo; [ | discriminate].
    destruct (weight_from_center st !! center info) as [w | ] eqn:Hw;
      [ | discriminate].
    apply (IH (add_item st code q info w)); [ | exact Hp].
    apply add_item_ok; auto with zarith.
Qed.

Lemma valid_order_example :
  valid_order [("A"%string, PyInt 1); ("G"%string, PyInt 1);
               ("H"%string, PyInt 1); ("I"%string, PyInt 3)].
Proof.
  repeat (apply Forall_cons; split;
          [split; [vm_compute; eauto | eexists; split; [reflexivity | lia]] | ]).
  apply Forall_nil. exact I.
Qed.

(** ** Monotonicity of the minimum *)

Lemma fle_PInf (x : pyfloat) : fle x PInf.
Proof. destruct x; exact I. Qed.

Section SameCenters.
Variables pcw pcw' : location -> Q.
Variables total total' : Q.
Variable N : gset location.
Hypothesis weights_le : forall c, (pcw c <= pcw' c)%Q.
Hypothesis total_le : (total <= total')%Q.

Lemma strategy_A_mono (s : location) :
  fle (Spec.strategy_A pcw total N s) (Spec.strategy_A pcw' total' N s).
Proof.
  unfold Spec.strategy_A. apply least_map_mono. intros order _.
  apply route_cost_mono; auto.
Qed.

Lemma strategy_B_mono (s : location) :
  ((0 < pcw' s)%Q -> (0 < pcw s)%Q) ->
  (total - pcw s <= total' - pcw' s)%Q ->
  fle (Spec.strategy_B pcw total N s) (Spec.strategy_B pcw' total' N s).
Proof.
  intros Hpos Hrem. unfold Spec.strategy_B.
  pose proof (weights_le s) as Hs.
  destruct (Qlt_le_dec 0 (pcw' s)) as [Hp' | Hn']; cbn [andb];
    [ | apply fle_PInf].
  destruct (Qlt_le_dec 0 (pcw s)) as [Hp | Hn]; [ | exfalso; apply Hpos in Hp'; lra].
  cbn [andb]. destruct (negb _); [ | apply fle_PInf].
  apply fadd_mono; [apply leg_cost_mono, Hs | ].
  apply least_map_mono. intros order _.
  apply route_cost_mono; auto. apply Qle_refl.
Qed.

Lemma minimum_cost_mono :
  (forall s, (0 < pcw' s)%Q -> (0 < pcw s)%Q) ->
  (forall s, (total - pcw s <= total' - pcw' s)%Q) ->
  fle (Spec.minimum_cost pcw total N) (Spec.minimum_cost pcw' total' N).
Proof.
  intros Hpos Hrem. unfold Spec.minimum_cost. apply least_map_mono.
  intros s _. apply fmin_mono.
  - apply strategy_A_mono.
  - apply strategy_B_mono; auto.
Qed.
End SameCenters.

Ltac case_Qeq_bool :=
  match goal with
  | |- context [Qeq_bool ?x ?y] =>
      let E := fresh "E" in
      destruct (Qeq_bool x y) eqn:E;
      [apply Qeq_bool_iff in E | apply Qeq_bool_neq in E]
  end.

Lemma needed_pattern (pcw : location -> Q) :
  Spec.needed pcw =
  (if Qeq_bool (pcw C1) 0 then ∅ else {[C1]}) ∪
  ((if Qeq_bool (pcw C2) 0 then ∅ else {[C2]}) ∪
   (if Qeq_bool (pcw C3) 0 then ∅ else {[C3]})).
Proof.
  apply set_eq. intros d. rewrite elem_of_needed.
  repeat case_Qeq_bool;
    rewrite ?elem_of_union, ?elem_of_singleton, ?elem_of_empty;
    destruct d; intuition (discriminate || congruence).
Qed.

Lemma needed_comp (pcw pcw' : location -> Q) :
  (forall c, (pcw c == 0)%Q <-> (pcw' c == 0)%Q) ->
  Spec.needed pcw = Spec.needed pcw'.
Proof.
  intros H. apply set_eq. intros d. rewrite !elem_of_needed, H. tauto.
Qed.

Lemma leg_cost_closed (a b : location) (w : Q) :
  Spec.leg_cost a b w = Fin (leg_price a b w).
Proof.
  unfold Spec.leg_cost. rewrite !direct_cost_eval.
  destruct a, b; cbn [charged_distance fadd leg_price];
    rewrite ?decide_True by (clear; tauto);
    rewrite ?direct_cost_eval; reflexivity.
Qed.

Lemma fadd_Fin (a b : Q) : fadd (Fin a) (Fin b) = Fin (a + b).
Proof. reflexivity. Qed.

Lemma fadd_fmin_glb (x a b c : pyfloat) :
  fle x (fadd a b) -> fle x (fadd a c) -> fle x (fadd a (fmin b c)).
Proof. intros Hb Hc. destruct (fmin_cases b c) as [-> | ->]; assumption. Qed.

Lemma fadd_fmin_le_l (a b c : pyfloat) : fle (fadd a (fmin b c)) (fadd a b).
Proof. apply fadd_mono; [apply fle_refl | apply fmin_le_l]. Qed.

Lemma fadd_fmin_le_r (a b c : pyfloat) : fle (fadd a (fmin b c)) (fadd a c).
Proof. apply fadd_mono; [apply fle_refl | apply fmin_le_r]. Qed.

(** Replace the elements of a closed set by the list they evaluate to. *)
Ltac eval_elements :=
  repeat match goal with
  | |- context [elements ?s] =>
      let l := eval vm_compute in (elements s) in
      replace (elements s) with l by (vm_compute; reflexivity)
  end.

Ltac eval_bool_decide :=
  repeat match goal with
  | |- context [bool_decide ?P] =>
      let b := eval vm_compute in (bool_decide P) in
      replace (bool_decide P) with b by (vm_compute; reflexivity)
  end.

Ltac case_Qlt_le_dec :=
  repeat match goal with
  | |- context [Qlt_le_dec ?a ?b] =>
      destruct (Qlt_le_dec a b); try (exfalso; lra)
  end.

(** Facts about the tariff needed to compare two candidate prices. *)
Ltac pose_rate_facts lhs rhs :=
  repeat match rhs with
  | context [Spec.rate ?v] =>
      lazymatch goal with
      | _ : (10 <= Spec.rate v)%Q |- _ => fail
      | _ => pose proof (rate_ge_10 v)
      end
  end;
  repeat match lhs with
  | context [Spec.rate ?u] =>
      match rhs with
      | context [Spec.rate ?v] =>
          lazymatch goal with
          | _ : compared u v |- _ => fail
          | _ => idtac
          end;
          pose proof (I : compared u v);
          try (let H := fresh in
               assert (H : (u <= v)%Q) by lra;
               pose proof (rate_mono u v H); clear H)
      end
  end.

Ltac compare_prices :=
  lazymatch goal with
  | |- (?p <= ?q)%Q => pose_rate_facts p q; lra
  end.

(** Find, for a candidate on the right, a cheaper candidate on the left. *)
Ltac find_cheaper :=
  lazymatch goal with
  | |- fle (fmin _ _) _ =>
      first [ eapply fle_trans; [apply fmin_le_l | ]; find_cheaper
            | eapply fle_trans; [apply fmin_le_r | ]; find_cheaper ]
  | |- fle (fadd _ (fmin _ _)) _ =>
      first [ eapply fle_trans; [apply fadd_fmin_le_l | ]; find_cheaper
            | eapply fle_trans; [apply fadd_fmin_le_r | ]; find_cheaper ]
  | |- fle (fadd (Fin _) (Fin _)) _ => rewrite fadd_Fin; find_cheaper
  | |- fle (Fin _) (Fin _) => cbn [fle]; compare_prices
  end.

Ltac dominate :=
  lazymatch goal with
  | |- fle _ PInf => apply fle_PInf
  | |- fle _ (fmin _ _) => apply fmin_glb; dominate
  | |- fle _ (fadd _ PInf) => apply fle_PInf
  | |- fle _ (fadd _ (fmin _ _)) => apply fadd_fmin_glb; dominate
  | |- fle _ (fadd (Fin _) (Fin _)) => rewrite fadd_Fin; dominate
  | |- fle _ (Fin _) => find_cheaper
  end.

Ltac expose_candidates :=
  unfold minimum_of_weights, Spec.minimum_cost, Spec.strategy_A,
    Spec.strategy_B, Spec.others, Spec.grand_total, App.CENTERS;
  cbn [map];
  eval_elements; eval_bool_decide;
  case_Qlt_le_dec;
  cbn [andb negb permutations permutations_n selections length flat_map map
       app fst snd Spec.least fold_right Spec.route_cost];
  rewrite !leg_cost_closed;
  cbn [leg_price charged_distance];
  repeat rewrite fadd_Fin.

(** A center without demand starts to have some: the minimum does not
    decrease.  Every candidate route of the larger demand is compared with
    the route of the smaller demand that skips the new center. *)
Lemma minimum_new_center (pcw pcw' : location -> Q) (c : location) :
  c <> L1 ->
  (forall d, (0 <= pcw d)%Q) ->
  (pcw c == 0)%Q -> (0 < pcw' c)%Q ->
  (forall d, d <> c -> (pcw' d == pcw d)%Q) ->
  (exists d, d <> L1 /\ (0 < pcw d)%Q) ->
  fle (minimum_of_weights pcw) (minimum_of_weights pcw').
Proof.
  intros Hc Hnn Hzero Hpos Hsame (d & Hd & Hdpos).
  pose proof (Hnn C1) as Hn1. pose proof (Hnn C2) as Hn2.
  pose proof (Hnn C3) as Hn3.
  pose proof (Hsame C1) as Hs1. pose proof (Hsame C2) as Hs2.
  pose proof (Hsame C3) as Hs3. clear Hnn Hsame.
  unfold minimum_of_weights. rewrite !needed_pattern.
  destruct c; try congruence; clear Hc;
    try specialize (Hs1 ltac:(discriminate));
    try specialize (Hs2 ltac:(discriminate));
    try specialize (Hs3 ltac:(discriminate)).
  all: destruct d; try congruence; clear Hd;
    repeat case_Qeq_bool; try (exfalso; lra);
    expose_candidates; dominate.
Qed.

(** The minimum does not decrease when the demand of one center grows. *)
Lemma minimum_of_weights_mono (pcw pcw' : location -> Q) (c : location) :
  c <> L1 ->
  (forall d, (0 <= pcw d)%Q) ->
  (forall d, d <> c -> (pcw' d == pcw d)%Q) ->
  (pcw c <= pcw' c)%Q ->
  (exists d, d <> L1 /\ (0 < pcw d)%Q) ->
  fle (minimum_of_weights pcw) (minimum_of_weights pcw').
Proof.
  intros Hc Hnn Hsame Hle Hex.
  destruct (Qlt_le_dec 0 (pcw c)) as [Hpos | Hzero].
  - unfold minimum_of_weights.
    assert (forall d, (pcw d <= pcw' d)%Q) as Hall.
    { intros d. destruct (decide (d = c)) as [-> | Hne]; [exact Hle | ].
      rewrite (Hsame d Hne). apply Qle_refl. }
    assert (forall d, (0 < pcw' d)%Q -> (0 < pcw d)%Q) as Hpos'.
    { intros d. destruct (decide (d = c)) as [-> | Hne]; [auto | ].
      rewrite (Hsame d Hne). auto. }
    rewrite <- (needed_comp pcw pcw').
    + apply minimum_cost_mono; auto.
      * unfold Spec.grand_total.
        pose proof (Hall C1). pose proof (Hall C2). pose proof (Hall C3). lra.
      * intros s. unfold Spec.grand_total.
        pose proof (Hsame C1). pose proof (Hsame C2). pose proof (Hsame C3).
        pose proof (Hsame L1).
        destruct c; try congruence; destruct s;
          repeat match goal with
                 | H : ?a <> ?b -> _ |- _ =>
                     first [specialize (H ltac:(discriminate)) | clear H]
                 end; lra.
    + intros d. pose proof (Hnn d) as Hd1. pose proof (Hall d) as Hd2.
      specialize (Hpos' d). split; intros Hd0.
      * destruct (Qlt_le_dec 0 (pcw' d)) as [Hp | Hn]; [ | lra].
        apply Hpos' in Hp. lra.
      * lra.
  - destruct (Qlt_le_dec 0 (pcw' c)) as [Hpos' | Hzero'].
    + apply (minimum_new_center pcw pcw' c); auto.
      pose proof (Hnn c). lra.
    + unfold minimum_of_weights.
      assert (forall d, (pcw' d == pcw d)%Q) as Hall.
      { intros d. destruct (decide (d = c)) as [-> | Hne]; [ | auto].
        pose proof (Hnn c). lra. }
      rewrite <- (needed_comp pcw pcw').
      * apply minimum_cost_mono.
        -- intros d. rewrite Hall. apply Qle_refl.
        -- unfold Spec.grand_total. rewrite !Hall. apply Qle_refl.
        -- intros d. rewrite Hall. auto.
        -- intros s. unfold Spec.grand_total. rewrite !Hall. apply Qle_refl.
      * intros d. rewrite Hall. tauto.
Qed.

(** ** The aggregate of an order with one quantity changed *)

Lemma per_center_weight_app (pre post : order_data) (c : location) :
  (Spec.per_center_weight (pre ++ post) c ==
   Spec.per_center_weight pre c + Spec.per_center_weight post c)%Q.
Proof.
  induction pre as [| e pre IH]; cbn [app].
  - unfold Spec.per_center_weight at 2. cbn [fold_right]. lra.
  - rewrite !per_center_weight_cons, IH. lra.
Qed.

Lemma has_positive_weight (order : order_data) :
  valid_order order -> has_positive order ->
  exists d, d <> L1 /\ (0 < Spec.per_center_weight order d)%Q.
Proof.
  intros Hvalid Hpos. induction Hpos as [[code v] rest (q & Hv & Hq) | e rest _ IH].
  - apply Forall_cons in Hvalid. destruct Hvalid as [[[info Hinfo] _] Hrest].
    cbn [fst snd] in *. subst v.
    destruct (products_spec _ _ Hinfo) as [HcL1 Hw].
    exists (center info). split; [exact HcL1 | ].
    rewrite per_center_weight_cons. unfold Spec.contribution. cbn [fst snd].
    rewrite Hinfo, decide_True by reflexivity.
    pose proof (per_center_weight_nonneg rest (center info) Hrest).
    assert (0 < weight info * inject_Z q)%Q.
    { apply Qmult_lt_0_compat; [exact Hw | ].
      change 0%Q with (inject_Z 0). rewrite <- Zlt_Qlt. exact Hq. }
    lra.
  - apply Forall_cons in Hvalid. destruct Hvalid as [He Hrest].
    destruct (IH Hrest) as (d & Hd & Hpos'). exists d. split; [exact Hd | ].
    rewrite per_center_weight_cons.
    assert (valid_order [e]) as Hve by (apply Forall_cons; split; [exact He | apply Forall_nil; exact I]).
    pose proof (per_center_weight_nonneg [e] d Hve) as Hnn.
    rewrite per_center_weight_cons in Hnn.
    unfold Spec.per_center_weight at 1 in Hnn. cbn [fold_right] in Hnn. lra.
Qed.

Lemma has_positive_dec (order : order_data) :
  has_positive order \/ ~ has_positive order.
Proof.
  induction order as [| [code v] rest [IH | IH]].
  - right. intros H. apply Exists_nil in H. exact H.
  - left. apply Exists_cons. right. exact IH.
  - destruct v as [z | ].
    + destruct (Z_lt_dec 0 z) as [Hz | Hz].
      * left. apply Exists_cons. left. exists z. split; [reflexivity | exact Hz].
      * right. intros H. apply Exists_cons in H.
        destruct H as [(z' & Hz' & Hlt) | H]; [ | contradiction].
        cbn [snd] in Hz'. injection Hz' as <-. contradiction.
    + right. intros H. apply Exists_cons in H.
      destruct H as [(z' & Hz' & _) | H]; [discriminate | contradiction].
Qed.

(** What the calculation returns on a valid order. *)
Lemma cost_of_valid_order (order : order_data) :
  valid_order order ->
  exists c,
    App._calculate_overall_minimum_cost App.DISTANCES order = Cost c /\
    0 <= c /\
    (~ has_positive order -> c = 0) /\
    (has_positive order ->
     exists m, Spec.minimum_of_order order = Fin m /\ c = py_round m).
Proof.
  intros Hvalid. unfold App._calculate_overall_minimum_cost.
  destruct (parse_order_aggregate order Hvalid)
    as (st & -> & Hok & Hw & Htot & Hneed & Hemp).
  destruct (decide (items_needed st = ∅)) as [He | Hne].
  - exists 0. refine (conj eq_refl (conj (Z.le_refl 0) (conj (fun _ => eq_refl) _))).
    intros Hpos. apply Hemp in He. contradiction.
  - pose proof (search_minimum_cost st _ _ Hok Hw Htot) as Heq.
    rewrite Hneed in Heq. fold (Spec.minimum_of_order order) in Heq.
    destruct (search_finite st Hok) as (m & Hm & Hnn). rewrite Hm in *.
    destruct (Spec.minimum_of_order order) as [m' | ] eqn:Hspec; [ | contradiction].
    cbn [feq] in Heq.
    exists (py_round m). refine (conj eq_refl (conj _ (conj _ _))).
    + apply py_round_nonneg, Hnn.
    + intros Hnp. apply Hemp in Hnp. contradiction.
    + intros _. exists m'. split; [reflexivity | apply py_round_comp, Heq].
Qed.

(** In exact arithmetic, raising the quantity of one product of a valid
    order never lowers the cost. *)
Lemma exact_cost_monotone (pre post : order_data) (code : string) (q q' : Z) :
  valid_order (pre ++ (code, PyInt q) :: post) ->
  q <= q' ->
  exists c c',
    App._calculate_overall_minimum_cost App.DISTANCES
      (pre ++ (code, PyInt q) :: post) = Cost c /\
    App._calculate_overall_minimum_cost App.DISTANCES
      (pre ++ (code, PyInt q') :: post) = Cost c' /\
    c <= c'.
Proof.
  intros Hvalid Hqq.
  pose proof Hvalid as Hparts. apply Forall_app in Hparts.
  destruct Hparts as [Hpre Hrest]. apply Forall_cons in Hrest.
  destruct Hrest as [[[info Hinfo] (q0 & Hq0 & Hq)] Hpost].
  cbn [fst snd] in Hinfo, Hq0. injection Hq0 as <-.
  assert (valid_order (pre ++ (code, PyInt q') :: post)) as Hvalid'.
  { apply Forall_app. split; [exact Hpre | ]. apply Forall_cons. split; [ | exact Hpost].
    split; [exists info; exact Hinfo | exists q'; split; [reflexivity | lia]]. }
  destruct (cost_of_valid_order _ Hvalid) as (c & Hc & Hcnn & Hczero & Hcmin).
  destruct (cost_of_valid_order _ Hvalid') as (c' & Hc' & Hcnn' & _ & Hcmin').
  exists c, c'. refine (conj Hc (conj Hc' _)).
  destruct (has_positive_dec (pre ++ (code, PyInt q) :: post)) as [Hpos | Hnpos].
  2: { rewrite (Hczero Hnpos). exact Hcnn'. }
  assert (has_positive (pre ++ (code, PyInt q') :: post)) as Hpos'.
  { apply Exists_app in Hpos. apply Exists_app.
    destruct Hpos as [Hp | Hp]; [left; exact Hp | right].
    apply Exists_cons in Hp. apply Exists_cons.
    destruct Hp as [(z & Hz & Hlt) | Hp]; [left | right; exact Hp].
    cbn [snd] in Hz. injection Hz as <-. exists q'. split; [reflexivity | lia]. }
  destruct (Hcmin Hpos) as (m & Hm & ->).
  destruct (Hcmin' Hpos') as (m' & Hm' & ->).
  apply py_round_mono. change (fle (Fin m) (Fin m')). rewrite <- Hm, <- Hm'.
  destruct (products_spec _ _ Hinfo) as [HcL1 Hw].
  apply (minimum_of_weights_mono _ _ (center info) HcL1).
  - intros d. apply per_center_weight_nonneg, Hvalid.
  - intros d Hd. rewrite !per_center_weight_app, !per_center_weight_cons.
    unfold Spec.contribution. cbn [fst snd]. rewrite Hinfo.
    rewrite !decide_False by congruence. reflexivity.
  - rewrite !per_center_weight_app, !per_center_weight_cons.
    unfold Spec.contribution. cbn [fst snd]. rewrite Hinfo.
    rewrite !decide_True by reflexivity.
    assert (weight info * inject_Z q <= weight info * inject_Z q')%Q.
    { rewrite !(Qmult_comm (weight info)).
      apply Qmult_le_compat_r; [ | lra]. rewrite <- Zle_Qle. exact Hqq. }
    lra.
  - apply has_positive_weight; assumption.
Qed.

(** ** The two deployments *)

Lemma netlify_get_distance (a b : location) :
  Netlify.get_distance a b = App.get_distance App.DISTANCES a b.
Proof. reflexivity. Qed.

Lemma netlify_segment_cost (w : Q) (d : pyfloat) :
  Netlify.calculate_segment_cost w d = App.calculate_segment_cost w d.
Proof. reflexivity. Qed.

Lemma netlify_detour_test (a b : location) :
  bool_decide ((a, b) ∈ [(C1, C3); (C3, C1)]) =
  (bool_decide (a = C1) && bool_decide (b = C3))
  || (bool_decide (a = C3) && bool_decide (b = C1)).
Proof. destruct a, b; vm_compute; reflexivity. Qed.

Lemma netlify_travel_cost (a b : location) (w : Q) :
  Netlify._calculate_travel_cost_between_stops a b w =
  App._calculate_travel_cost_between_stops App.DISTANCES a b w.
Proof.
  unfold Netlify._calculate_travel_cost_between_stops,
    App._calculate_travel_cost_between_stops.
  rewrite netlify_detour_test. reflexivity.
Qed.

Lemma netlify_parse_order (order : order_data) (st : demand) :
  Netlify.parse_order order st = App.parse_order order st.
Proof.
  revert st. induction order as [| [code v] rest IH]; intros st; [reflexivity | ].
  cbn [Netlify.parse_order App.parse_order].
  destruct v as [q | ]; [ | reflexivity].
  destruct (q <? 0); [reflexivity | ].
  destruct (q =? 0); [apply IH | ].
  change Netlify.PRODUCTS with App.PRODUCTS.
  destruct (App.PRODUCTS !! code); [ | reflexivity].
  destruct (weight_from_center st !! center _); [apply IH | reflexivity].
Qed.

Lemma netlify_walk_step (st : demand) (s : walk) (b : location) :
  Netlify.walk_step st s b = App.walk_step App.DISTANCES st s b.
Proof.
  unfold Netlify.walk_step, App.walk_step.
  rewrite netlify_travel_cost. reflexivity.
Qed.

Lemma netlify_min_over_permutations st loc w to_visit fw :
  Netlify.min_over_permutations st loc w to_visit fw =
  App.min_over_permutations App.DISTANCES st loc w to_visit fw.
Proof.
  unfold Netlify.min_over_permutations, App.min_over_permutations.
  apply fold_left_ext_eq. intros m order.
  rewrite (fold_left_ext_eq (Netlify.walk_step st)
             (App.walk_step App.DISTANCES st) order _ (netlify_walk_step st)).
  rewrite netlify_travel_cost. reflexivity.
Qed.

Lemma netlify_cost_simple (st : demand) (start : location) :
  Netlify.cost_simple st start = App.cost_simple App.DISTANCES st start.
Proof.
  unfold Netlify.cost_simple, App.cost_simple.
  rewrite netlify_travel_cost.
  destruct (elements _); [reflexivity | ].
  apply netlify_min_over_permutations.
Qed.

Lemma netlify_cost_partial (st : demand) (start : location) :
  Netlify.cost_partial st start = App.cost_partial App.DISTANCES st start.
Proof.
  unfold Netlify.cost_partial, App.cost_partial.
  rewrite netlify_travel_cost.
  destruct (elements _); [reflexivity | ].
  rewrite netlify_min_over_permutations. reflexivity.
Qed.

(** The three-argument [min] of one file is the nested [min] of the other. *)
Lemma netlify_search (st : demand) :
  Netlify.search st = App.search App.DISTANCES st.
Proof.
  unfold Netlify.search, App.search. apply fold_left_ext_eq.
  intros m s. rewrite netlify_cost_simple, netlify_cost_partial.
  symmetry. apply fmin_assoc.
Qed.

Lemma netlify_calculation (order : order_data) :
  Netlify._calculate_overall_minimum_cost order =
  App._calculate_overall_minimum_cost App.DISTANCES order.
Proof.
  unfold Netlify._calculate_overall_minimum_cost,
    App._calculate_overall_minimum_cost.
  rewrite netlify_parse_order.
  change Netlify.initial_demand with App.initial_demand.
  destruct (App.parse_order order App.initial_demand); try reflexivity.
  rewrite netlify_search. reflexivity.
Qed.

(** C9. The two deployments compute the same thing: on every order mapping
    they return the same cost, and one fails exactly when the other does
    (with an error of the same kind). *)
Theorem C9_deployments_agree (order : order_data) :
  (forall c,
     App._calculate_overall_minimum_cost App.DISTANCES order = Cost c <->
     Netlify._calculate_overall_minimum_cost order = Cost c) /\
  (forall e,
     App._calculate_overall_minimum_cost App.DISTANCES order = Failure e <->
     Netlify._calculate_overall_minimum_cost order = Failure e).
Proof.
  rewrite netlify_calculation. split; intros; tauto.
Qed.

(** ** The iteration order of the set of centers

[list(needed_centers - {start_center})] lists a Python set in an order
    the language does not fix; the model lists it with [elements].  The
    permutation loop does not depend on that order. *)

Lemma selections_perm {A} (l : list A) (x : A) (r : list A) :
  In (x, r) (selections l) -> Permutation l (x :: r).
Proof.
  revert x r. induction l as [| y l IH]; intros x r Hin; [destruct Hin | ].
  cbn [selections] in Hin. destruct Hin as [Heq | Hin].
  - injection Heq as -> ->. reflexivity.
  - apply in_map_iff in Hin. destruct Hin as ([x' r'] & Heq & Hin).
    cbn [fst snd] in Heq. injection Heq as -> <-.
    rewrite (IH _ _ Hin). apply perm_swap.
Qed.

Lemma selections_complete {A} (l : list A) (x : A) :
  In x l -> exists r, In (x, r) (selections l).
Proof.
  induction l as [| y l IH]; intros Hin; [destruct Hin | ].
  destruct Hin as [-> | Hin].
  - exists l. left. reflexivity.
  - destruct (IH Hin) as [r Hr]. exists (y :: r). right.
    apply in_map_iff. exists (x, r). split; [reflexivity | exact Hr].
Qed.

Lemma permutations_n_sound {A} (n : nat) :
  forall (l p : list A), length l = n -> In p (permutations_n n l) ->
  Permutation l p.
Proof.
  induction n as [| n IH]; intros l p Hlen Hin.
  - destruct l; [ | discriminate]. destruct Hin as [<- | []]. reflexivity.
  - cbn [permutations_n] in Hin. apply in_flat_map in Hin.
    destruct Hin as ([x r] & Hsel & Hin). cbn [fst snd] in Hin.
    apply in_map_iff in Hin. destruct Hin as (p' & <- & Hp').
    pose proof (selections_perm _ _ _ Hsel) as Hperm.
    assert (length r = n) as Hr.
    { apply Permutation_length in Hperm. cbn [length] in Hperm. lia. }
    rewrite Hperm. apply perm_skip. apply (IH r p' Hr Hp').
Qed.

Lemma permutations_n_complete {A} (n : nat) :
  forall (l p : list A), length l = n -> Permutation l p ->
  In p (permutations_n n l).
Proof.
  induction n as [| n IH]; intros l p Hlen Hperm.
  - destruct l; [ | discriminate]. apply Permutation_nil in Hperm. subst p.
    left. reflexivity.
  - destruct p as [| x p'].
    { apply Permutation_sym, Permutation_nil in Hperm. subst l. discriminate. }
    assert (In x l) as Hx.
    { apply (Permutation_in x (Permutation_sym Hperm)). left. reflexivity. }
    destruct (selections_complete l x Hx) as [r Hsel].
    pose proof (selections_perm _ _ _ Hsel) as Hl.
    assert (Permutation r p') as Hrp.
    { apply (Permutation_cons_inv (a := x)). rewrite <- Hl. exact Hperm. }
    assert (length r = n) as Hr.
    { apply Permutation_length in Hl. cbn [length] in Hl. lia. }
    cbn [permutations_n]. apply in_flat_map. exists (x, r).
    split; [exact Hsel | ]. cbn [fst snd]. apply in_map. apply IH; assumption.
Qed.

Lemma permutations_spec {A} (l p : list A) :
  In p (permutations l) <-> Permutation l p.
Proof.
  split.
  - apply permutations_n_sound. reflexivity.
  - apply permutations_n_complete. reflexivity.
Qed.

(** Listing the centers to visit in another order leaves the minimum of
    the permutation loop unchanged, whatever the distance table. *)
Lemma min_over_permutations_order DIST st loc w (l l' : list location) fw :
  Permutation l l' ->
  feq (App.min_over_permutations DIST st loc w l fw)
      (App.min_over_permutations DIST st loc w l' fw).
Proof.
  intros Hperm. rewrite !min_over_permutations_running.
  assert (forall l1 l2 : list location, Permutation l1 l2 ->
            fle (fold_left (fun m order =>
                              fmin m (walk_candidate DIST st loc w order fw))
                           (permutations l1) PInf)
                (fold_left (fun m order =>
                              fmin m (walk_candidate DIST st loc w order fw))
                           (permutations l2) PInf)) as Hle.
  { intros l1 l2 H12. apply running_min_glb; [apply fle_PInf | ].
    intros order Horder.
    apply (proj2 (running_min_le
                    (fun order => walk_candidate DIST st loc w order fw)
                    (permutations l1) PInf)).
    apply list_elem_of_In, permutations_spec.
    apply list_elem_of_In, permutations_spec in Horder.
    rewrite H12. exact Horder. }
  apply fle_antisym; apply Hle; [exact Hperm | symmetry; exact Hperm].
Qed.

(** ** Sample orders *)

Example order_A1_G1_H1_I3 :
  App._calculate_overall_minimum_cost App.DISTANCES
    [("A"%string, PyInt 1); ("G"%string, PyInt 1);
     ("H"%string, PyInt 1); ("I"%string, PyInt 3)] = Cost 86.
Proof. vm_compute. reflexivity. Qed.

Example order_A1_B1_C1_D1 :
  App._calculate_overall_minimum_cost App.DISTANCES
    [("A"%string, PyInt 1); ("B"%string, PyInt 1);
     ("C"%string, PyInt 1); ("D"%string, PyInt 1)] = Cost 168.
Proof. vm_compute. reflexivity. Qed.

Example order_negative_quantity :
  App._calculate_overall_minimum_cost App.DISTANCES
    [("A"%string, PyInt 1); ("B"%string, PyInt (-2))]
  = Failure (InvalidQuantity (PyInt (-2)) "B"%string).
Proof. vm_compute. reflexivity. Qed.

(** * Further properties of the core *)

(** ** The parsing loop on arbitrary mappings *)

Lemma parse_order_app (o1 o2 : order_data) :
  forall st,
  App.parse_order (o1 ++ o2) st =
  match App.parse_order o1 st with
  | Parsed st' => App.parse_order o2 st'
  | stopped => stopped
  end.
Proof.
  induction o1 as [| [code v] o1 IH]; intros st; [reflexivity | ].
  cbn [app App.parse_order]. destruct v as [q | ]; [ | reflexivity].
  destruct (q <? 0); [reflexivity | ].
  destruct (q =? 0); [apply IH | ].
  destruct (App.PRODUCTS !! code); [ | reflexivity].
  destruct (weight_from_center st !! center _); [apply IH | reflexivity].
Qed.

Lemma parse_order_accepted (order : order_data) :
  forall st, keys_ok st -> Forall accepted_entry order ->
  exists st', App.parse_order order st = Parsed st' /\ keys_ok st'.
Proof.
  induction order as [| [code v] rest IH]; intros st Hk Hacc.
  - exists st. auto.
  - apply Forall_cons in Hacc. destruct Hacc as [Ha Hrest].
    destruct (parse_order_head code v rest st Hk)
      as [(e & _ & _ & Hn) | (st' & -> & Hk' & _)]; [contradiction | ].
    apply IH; assumption.
Qed.

Lemma parse_order_rejected (order : order_data) :
  forall st, keys_ok st -> ~ Forall accepted_entry order ->
  exists e, App.parse_order order st = ParseError e.
Proof.
  induction order as [| [code v] rest IH]; intros st Hk Hn.
  - exfalso. apply Hn. apply Forall_nil. exact I.
  - destruct (parse_order_head code v rest st Hk)
      as [(e & He & _ & _) | (st' & -> & Hk' & Ha)]; [eauto | ].
    apply IH; [exact Hk' | ]. intros Hrest. apply Hn.
    apply Forall_cons. split; assumption.
Qed.

(** In exact arithmetic the calculation returns a cost exactly on the
    mappings whose every entry is accepted by the parsing loop. *)
Lemma exact_calculation_succeeds_iff_accepted (order : order_data) :
  ((exists c, App._calculate_overall_minimum_cost App.DISTANCES order = Cost c)
   <-> Forall accepted_entry order) /\
  ((exists e, App._calculate_overall_minimum_cost App.DISTANCES order = Failure e
              /\ is_Some (error_product e))
   <-> ~ Forall accepted_entry order).
Proof.
  assert (Forall accepted_entry order ->
          exists c, App._calculate_overall_minimum_cost App.DISTANCES order
                    = Cost c) as Hyes.
  { intros Hacc. unfold App._calculate_overall_minimum_cost.
    destruct (parse_order_accepted order _ initial_keys_ok Hacc)
      as (st & Hp & _). rewrite Hp.
    destruct (decide _); [eauto | ].
    destruct (search_finite st) as (m & -> & _); [ | eauto].
    apply (parse_order_ok order _ _ initial_demand_ok Hp). }
  assert (~ Forall accepted_entry order ->
          exists e, App._calculate_overall_minimum_cost App.DISTANCES order
                    = Failure e /\ is_Some (error_product e)) as Hno.
  { intros Hn. unfold App._calculate_overall_minimum_cost.
    destruct (parse_order_rejected order _ initial_keys_ok Hn) as (e & He).
    rewrite He. exists e. split; [reflexivity | ].
    clear Hyes Hn. revert He. generalize App.initial_demand.
    induction order as [| [code v] rest IH]; intros st He; [discriminate | ].
    cbn [App.parse_order] in He. destruct v as [q | ].
    - destruct (q <? 0); [injection He as <-; cbn; eauto | ].
      destruct (q =? 0); [apply (IH _ He) | ].
      destruct (App.PRODUCTS !! code); [ | injection He as <-; cbn; eauto].
      destruct (weight_from_center st !! center _); [apply (IH _ He) | discriminate].
    - injection He as <-. cbn. eauto. }
  assert (Forall accepted_entry order \/ ~ Forall accepted_entry order) as Hdec.
  { clear. induction order as [| [code v] rest [IH | IH]].
    - left. apply Forall_nil. exact I.
    - destruct v as [q | ].
      + destruct (Z_le_dec 0 q) as [Hq | Hq].
        * destruct (Z.eq_dec q 0) as [-> | Hz].
          -- left. apply Forall_cons. split; [ | exact IH].
             exists 0. cbn. auto with zarith.
          -- destruct (App.PRODUCTS !! code) as [info | ] eqn:Hinfo.
             ++ left. apply Forall_cons. split; [ | exact IH].
                exists q. cbn [fst snd]. rewrite Hinfo. eauto.
             ++ right. intros H. apply Forall_cons in H. destruct H as [H _].
                destruct H as (q' & Hq' & _ & [H0 | Hs]); cbn [fst snd] in *.
                ** injection Hq' as <-. contradiction.
                ** rewrite Hinfo in Hs. destruct Hs; discriminate.
        * right. intros H. apply Forall_cons in H. destruct H as [H _].
          destruct H as (q' & Hq' & Hge & _). cbn [snd] in Hq'.
          injection Hq' as <-. contradiction.
      + right. intros H. apply Forall_cons in H. destruct H as [H _].
        destruct H as (q' & Hq' & _). discriminate.
    - right. intros H. apply Forall_cons in H. tauto. }
  split; split; auto.
  - intros [c Hc]. destruct Hdec as [H | H]; [exact H | ].
    destruct (Hno H) as (e & He & _). congruence.
  - intros (e & He & _) Hacc. destruct (Hyes Hacc) as [c Hc]. congruence.
Qed.

(** X2. An entry of quantity 0 changes nothing, whatever its product code
    and wherever it stands: the calculation gives the same result (cost or
    error) with and without it. *)
Theorem zero_entry_ignored (o1 o2 : order_data) (code : string) :
  App._calculate_overall_minimum_cost App.DISTANCES (o1 ++ (code, PyInt 0) :: o2)
  = App._calculate_overall_minimum_cost App.DISTANCES (o1 ++ o2).
Proof.
  unfold App._calculate_overall_minimum_cost.
  rewrite !parse_order_app.
  destruct (App.parse_order o1 App.initial_demand); reflexivity.
Qed.

(** ** The order of the entries *)

Lemma per_center_weight_perm (o o' : order_data) (c : location) :
  Permutation o o' ->
  (Spec.per_center_weight o c == Spec.per_center_weight o' c)%Q.
Proof.
  induction 1 as [| e l l' _ IH | e1 e2 l | l1 l2 l3 _ IH1 _ IH2].
  - reflexivity.
  - rewrite !per_center_weight_cons, IH. reflexivity.
  - rewrite !per_center_weight_cons. lra.
  - rewrite IH1. exact IH2.
Qed.

Lemma minimum_of_weights_comp (pcw pcw' : location -> Q) :
  (forall c, (pcw c == pcw' c)%Q) ->
  feq (minimum_of_weights pcw) (minimum_of_weights pcw').
Proof.
  intros Heq.
  assert (forall p p' : location -> Q, (forall c, (p c == p' c)%Q) ->
            fle (minimum_of_weights p) (minimum_of_weights p')) as Hle.
  { intros p p' H. unfold minimum_of_weights.
    rewrite <- (needed_comp p p') by (intros c; rewrite (H c); tauto).
    apply minimum_cost_mono.
    - intros c. rewrite H. apply Qle_refl.
    - unfold Spec.grand_total. rewrite !H. apply Qle_refl.
    - intros c. rewrite H. auto.
    - intros c. unfold Spec.grand_total. rewrite !H. apply Qle_refl. }
  apply fle_antisym; apply Hle; [exact Heq | ].
  intros c. symmetry. apply Heq.
Qed.

(** In exact arithmetic the cost of a valid order does not depend on the
    order of its entries. *)
Lemma exact_cost_independent_of_entry_order (order order' : order_data) :
  valid_order order -> Permutation order order' ->
  App._calculate_overall_minimum_cost App.DISTANCES order =
  App._calculate_overall_minimum_cost App.DISTANCES order'.
Proof.
  intros Hvalid Hperm.
  assert (valid_order order') as Hvalid'.
  { unfold valid_order. rewrite <- Hperm. exact Hvalid. }
  destruct (cost_of_valid_order _ Hvalid) as (c & -> & _ & Hzero & Hmin).
  destruct (cost_of_valid_order _ Hvalid') as (c' & -> & _ & Hzero' & Hmin').
  f_equal.
  destruct (has_positive_dec order) as [Hpos | Hnpos].
  - assert (has_positive order') as Hpos'.
    { unfold has_positive. rewrite <- Hperm. exact Hpos. }
    destruct (Hmin Hpos) as (m & Hm & ->).
    destruct (Hmin' Hpos') as (m' & Hm' & ->).
    apply py_round_comp. change (feq (Fin m) (Fin m')). rewrite <- Hm, <- Hm'.
    apply minimum_of_weights_comp. intros d.
    apply per_center_weight_perm, Hperm.
  - assert (~ has_positive order') as Hnpos'.
    { unfold has_positive. rewrite <- Hperm. exact Hnpos. }
    rewrite (Hzero Hnpos), (Hzero' Hnpos'). reflexivity.
Qed.

(** ** Integrality and bounds *)

(** ** A lower bound *)

Lemma fle_20_fadd (a x : pyfloat) :
  fle (Fin 0) a -> fle (Fin 20) x -> fle (Fin 20) (fadd a x).
Proof. destruct a, x; cbn; try tauto. intros; lra. Qed.

Lemma route_cost_at_least_20 pcw (visits : list location) :
  forall loc carried fw,
  Forall (fun b => b <> L1) visits -> loc <> L1 \/ visits <> [] ->
  fle (Fin 20) (Spec.route_cost pcw loc carried visits fw).
Proof.
  induction visits as [| b rest IH]; intros loc carried fw Hall Hloc;
    cbn [Spec.route_cost].
  - destruct Hloc as [Hloc | Hne]; [ | congruence].
    destruct (leg_cost_eval loc L1 fw) as (c & -> & Hc). cbn [fle].
    pose proof (rate_ge_10 fw) as Hr.
    assert (2 <= charged_distance loc L1)%Q as Hd
      by (destruct loc; try congruence; discriminate).
    rewrite Hc.
    apply Qle_trans with (10 * charged_distance loc L1)%Q; [lra | ].
    apply Qmult_le_compat_r; lra.
  - apply Forall_cons in Hall. destruct Hall as [Hb Hrest].
    apply fle_20_fadd; [apply leg_cost_nonneg | ].
    apply IH; auto.
Qed.

Lemma others_are_centers pcw (s : location) (order : list location) :
  In order (permutations (Spec.others (Spec.needed pcw) s)) ->
  Forall (fun b => b <> L1) order /\
  (Spec.others (Spec.needed pcw) s <> [] -> order <> []).
Proof.
  intros Hin. apply permutations_spec in Hin. split.
  - apply Forall_forall. intros b Hb.
    rewrite <- Hin in Hb.
    unfold Spec.others in Hb. apply elem_of_elements in Hb.
    apply elem_of_difference in Hb. destruct Hb as [Hb _].
    apply elem_of_needed in Hb. tauto.
  - intros Hne ->. apply Permutation_nil_r in Hin. contradiction.
Qed.

Lemma minimum_of_weights_at_least_20 (pcw : location -> Q) :
  fle (Fin 20) (minimum_of_weights pcw).
Proof.
  unfold minimum_of_weights, Spec.minimum_cost. apply least_glb.
  intros x Hx. apply elem_of_map in Hx. destruct Hx as (s & -> & Hs).
  assert (s <> L1) as HsL1.
  { unfold App.CENTERS in Hs. rewrite !elem_of_cons, elem_of_nil in Hs.
    destruct Hs as [-> | [-> | [-> | []]]]; discriminate. }
  apply fmin_glb.
  - unfold Spec.strategy_A. apply least_glb. intros y Hy.
    apply elem_of_map in Hy. destruct Hy as (order & -> & Horder).
    apply list_elem_of_In in Horder.
    destruct (others_are_centers pcw s order Horder) as [Hall _].
    apply route_cost_at_least_20; auto.
  - unfold Spec.strategy_B.
    destruct (Qlt_le_dec 0 (pcw s)); cbn [andb]; [ | exact I].
    destruct (bool_decide (Spec.others (Spec.needed pcw) s = [])) eqn:Hb;
      cbn [negb]; [exact I | ].
    apply bool_decide_eq_false in Hb.
    apply fle_20_fadd; [apply leg_cost_nonneg | ].
    apply least_glb. intros y Hy.
    apply elem_of_map in Hy. destruct Hy as (order & -> & Horder).
    apply list_elem_of_In in Horder.
    destruct (others_are_centers pcw s order Horder) as [Hall Hne].
    apply route_cost_at_least_20; auto.
Qed.

(** In exact arithmetic a valid order with a positive quantity costs at
    least 20. *)
Lemma exact_nonempty_order_costs_at_least_20 (order : order_data) :
  valid_order order -> has_positive order ->
  exists c, App._calculate_overall_minimum_cost App.DISTANCES order = Cost c /\
            20 <= c.
Proof.
  intros Hvalid Hpos.
  destruct (cost_of_valid_order _ Hvalid) as (c & Hc & _ & _ & Hmin).
  destruct (Hmin Hpos) as (m & Hm & ->).
  exists (py_round m). split; [exact Hc | ].
  change 20 with (py_round 20). apply py_round_mono.
  change (fle (Fin 20) (Fin m)). rewrite <- Hm.
  apply minimum_of_weights_at_least_20.
Qed.

(** ** An order served by a single center *)

Lemma minimum_single_center (pcw : location -> Q) (c : location) :
  c <> L1 -> (0 < pcw c)%Q -> (forall d, d <> c -> (pcw d == 0)%Q) ->
  feq (minimum_of_weights pcw)
      (Fin (Spec.rate (pcw c) * charged_distance c L1)).
Proof.
  intros Hc Hpos Hzero.
  pose proof (Hzero C1) as H1. pose proof (Hzero C2) as H2.
  pose proof (Hzero C3) as H3. clear Hzero.
  destruct c; try congruence; clear Hc;
    try specialize (H1 ltac:(discriminate));
    try specialize (H2 ltac:(discriminate));
    try specialize (H3 ltac:(discriminate));
    apply fle_antisym; unfold minimum_of_weights; rewrite !needed_pattern;
    repeat case_Qeq_bool; try (exfalso; lra);
    expose_candidates; first [find_cheaper | dominate].
Qed.

Lemma only_center_weight (order : order_data) (c d : location) :
  valid_order order -> only_center c order -> d <> c ->
  (Spec.per_center_weight order d == 0)%Q.
Proof.
  intros Hvalid Honly Hd. induction order as [| [code v] rest IH].
  - reflexivity.
  - apply Forall_cons in Hvalid. destruct Hvalid as [[[info Hinfo] _] Hrest].
    apply Forall_cons in Honly. destruct Honly as [Hhead Honly].
    cbn [fst snd] in *. rewrite per_center_weight_cons, (IH Hrest Honly).
    unfold Spec.contribution. cbn [fst snd]. rewrite Hinfo.
    destruct v as [q | ]; [ | reflexivity].
    destruct (Hhead info Hinfo) as [Hq | Hcenter].
    + injection Hq as ->. destruct (decide _); [ | reflexivity].
      rewrite Qmult_0_r. reflexivity.
    + rewrite decide_False by congruence. reflexivity.
Qed.

(** In exact arithmetic an order served by one center costs the rounded
    price of the leg from that center to the hub. *)
Lemma exact_single_center_order_cost (order : order_data) (c : location) :
  valid_order order -> has_positive order -> only_center c order ->
  exists st p,
    App.parse_order order App.initial_demand = Parsed st /\
    App._calculate_travel_cost_between_stops App.DISTANCES c L1
      (total_weight st) = Fin p /\
    App._calculate_overall_minimum_cost App.DISTANCES order
    = Cost (py_round p).
Proof.
  intros Hvalid Hpos Honly.
  destruct (parse_order_aggregate order Hvalid)
    as (st & Hp & Hok & Hw & Htot & _ & _).
  destruct (has_positive_weight order Hvalid Hpos) as (d & HdL1 & Hdpos).
  assert (d = c) as ->.
  { destruct (decide (d = c)) as [Heq | Hne]; [exact Heq | ].
    pose proof (only_center_weight order c d Hvalid Honly Hne). lra. }
  assert (forall d, d <> c -> (Spec.per_center_weight order d == 0)%Q) as Hz.
  { intros d Hd. apply (only_center_weight order c d); assumption. }
  destruct (travel_cost_finite c L1 (total_weight st)) as (p & Hpr & Hpeq).
  exists st, p. refine (conj Hp (conj Hpr _)).
  destruct (cost_of_valid_order _ Hvalid) as (k & -> & _ & _ & Hmin).
  destruct (Hmin Hpos) as (m & Hm & ->). f_equal. apply py_round_comp.
  pose proof (minimum_single_center _ c HdL1 Hdpos Hz) as Hsingle.
  unfold Spec.minimum_of_order in Hm. unfold minimum_of_weights in Hsingle.
  rewrite Hm in Hsingle. cbn [feq] in Hsingle.
  rewrite Hsingle, Hpeq. apply Qmult_comp; [ | reflexivity].
  apply rate_comp. rewrite Htot. unfold Spec.grand_total.
  pose proof (Hz C1) as H1. pose proof (Hz C2) as H2. pose proof (Hz C3) as H3.
  destruct c; try congruence;
    try specialize (H1 ltac:(discriminate));
    try specialize (H2 ltac:(discriminate));
    try specialize (H3 ltac:(discriminate)); lra.
Qed.

(** * The helper functions on arbitrary tables and weights *)

(** ** [get_distance] *)

Lemma get_distance_sym (DIST : gmap (location * location) Q) (a b : location) :
  consistent_table DIST ->
  App.get_distance DIST a b = App.get_distance DIST b a.
Proof.
  intros Hc. unfold App.get_distance.
  destruct (decide (a = b)) as [-> | Hne].
  - rewrite decide_True by reflexivity. reflexivity.
  - rewrite (decide_False (P := b = a)) by congruence.
    destruct (DIST !! (a, b)) as [d | ] eqn:Hab,
             (DIST !! (b, a)) as [d' | ] eqn:Hba; try reflexivity.
    rewrite (Hc a b d d' Hab Hba). reflexivity.
Qed.

(** X8. On a table that gives no pair two different distances,
    [get_distance] is symmetric, also when the table lists a pair in one
    orientation only. *)
Theorem get_distance_symmetric (DIST : gmap (location * location) Q)
    (a b : location) :
  consistent_table DIST ->
  App.get_distance DIST a b = App.get_distance DIST b a.
Proof. apply get_distance_sym. Qed.

Lemma get_distance_symmetric_witness :
  App.get_distance ({[ (C1, L1) := 3%Q ]}) C1 L1 =
  App.get_distance ({[ (C1, L1) := 3%Q ]}) L1 C1.
Proof.
  apply (get_distance_symmetric ({[ (C1, L1) := 3%Q ]}) C1 L1).
  intros a b d d' Hab Hba.
  destruct a, b; vm_compute in Hab, Hba; congruence.
Defined.

(** ** [calculate_segment_cost] *)

(** X10. A heavier load never makes a segment cheaper, whatever the
    distance. *)
Theorem segment_cost_monotone_in_weight (u v : Q) (distance : pyfloat) :
  (u <= v)%Q ->
  fle (App.calculate_segment_cost u distance)
      (App.calculate_segment_cost v distance).
Proof.
  intros Huv. unfold App.calculate_segment_cost. destruct distance as [d | ].
  - case_Qle_bool; cbn [fle]; [apply Qle_refl | ].
    apply Qmult_le_compat_r; [apply cost_per_unit_mono, Huv | lra].
  - apply Qle_refl.
Qed.

Lemma segment_cost_monotone_in_weight_witness :
  fle (App.calculate_segment_cost 4 (Fin 3))
      (App.calculate_segment_cost 12 (Fin 3)).
Proof.
  apply (segment_cost_monotone_in_weight 4 12 (Fin 3)). discriminate.
Defined.

(** ** The route resolver on an arbitrary table *)

Lemma segment_cost_finite (w : Q) (distance : pyfloat) :
  is_inf (App.calculate_segment_cost w distance) = false.
Proof.
  unfold App.calculate_segment_cost. destruct distance as [d | ];
    [destruct (Qle_bool d 0) | ]; reflexivity.
Qed.

Lemma detour_test_sym (a b : location) :
  (bool_decide (a = C1) && bool_decide (b = C3))
  || (bool_decide (a = C3) && bool_decide (b = C1)) =
  (bool_decide (b = C1) && bool_decide (a = C3))
  || (bool_decide (b = C3) && bool_decide (a = C1)).
Proof. destruct a, b; reflexivity. Qed.

(** X13. On a table that gives no pair two different distances the resolved
    leg cost is symmetric in its two locations, for every weight; the
    detour is added up in the opposite order, which gives the same sum. *)
Theorem travel_cost_symmetric (DIST : gmap (location * location) Q)
    (a b : location) (w : Q) :
  consistent_table DIST ->
  feq (App._calculate_travel_cost_between_stops DIST a b w)
      (App._calculate_travel_cost_between_stops DIST b a w).
Proof.
  intros Hc. unfold App._calculate_travel_cost_between_stops.
  rewrite (get_distance_sym DIST b a Hc).
  destruct (negb (is_inf (App.get_distance DIST a b))); [apply feq_refl | ].
  rewrite (get_distance_sym DIST b C2 Hc), (get_distance_sym DIST C2 a Hc).
  rewrite !segment_cost_finite. cbn [orb].
  rewrite (detour_test_sym b a).
  destruct (_ || _); [ | exact I].
  destruct (App.calculate_segment_cost w (App.get_distance DIST a C2)),
    (App.calculate_segment_cost w (App.get_distance DIST C2 b));
    cbn [fadd feq]; try exact I; lra.
Qed.

Lemma travel_cost_symmetric_witness :
  feq (App._calculate_travel_cost_between_stops App.DISTANCES C2 L1 30)
      (App._calculate_travel_cost_between_stops App.DISTANCES L1 C2 30).
Proof.
  apply (travel_cost_symmetric App.DISTANCES C2 L1 30).
  intros a b d d' Hab Hba.
  destruct a, b; vm_compute in Hab, Hba; congruence.
Defined.

(** ** The permutation loop on an arbitrary table *)

Lemma running_min_attained {A} (f : A -> pyfloat) (l : list A) (acc : pyfloat) :
  fold_left (fun m x => fmin m (f x)) l acc = acc \/
  exists x, x ∈ l /\ fold_left (fun m x => fmin m (f x)) l acc = f x.
Proof.
  revert acc. induction l as [| y l IH]; intros acc; cbn [fold_left].
  - left. reflexivity.
  - destruct (IH (fmin acc (f y))) as [Heq | (x & Hx & Heq)].
    + rewrite Heq. destruct (fmin_cases acc (f y)) as [-> | ->].
      * left. reflexivity.
      * right. exists y. split; [apply elem_of_cons; auto | reflexivity].
    + right. exists x. split; [apply elem_of_cons; auto | exact Heq].
Qed.

(** X15. On any table the permutation loop returns the least price over
    all visiting orders of the centers: it is below the price of every
    ordering, and it is the price of one of them unless it is infinite. *)
Theorem min_over_permutations_is_least (DIST : gmap (location * location) Q)
    (st : demand) (loc : location) (w : Q) (to_visit : list location) (fw : Q) :
  (forall order, Permutation to_visit order ->
     fle (App.min_over_permutations DIST st loc w to_visit fw)
         (walk_candidate DIST st loc w order fw)) /\
  (App.min_over_permutations DIST st loc w to_visit fw = PInf \/
   exists order, Permutation to_visit order /\
     App.min_over_permutations DIST st loc w to_visit fw =
     walk_candidate DIST st loc w order fw).
Proof.
  rewrite min_over_permutations_running. split.
  - intros order Hperm.
    apply (proj2 (running_min_le
                    (fun order => walk_candidate DIST st loc w order fw)
                    (permutations to_visit) PInf)).
    apply list_elem_of_In, permutations_spec, Hperm.
  - destruct (running_min_attained
                (fun order => walk_candidate DIST st loc w order fw)
                (permutations to_visit) PInf) as [Heq | (order & Hin & Heq)].
    + left. exact Heq.
    + right. exists order. split; [ | exact Heq].
      apply permutations_spec, list_elem_of_In, Hin.
Qed.

Lemma min_over_permutations_is_least_witness :
  fle (App.min_over_permutations App.DISTANCES App.initial_demand C2 0
         [C1; C3] 10)
      (walk_candidate App.DISTANCES App.initial_demand C2 0 [C3; C1] 10).
Proof.
  refine (proj1 (min_over_permutations_is_least App.DISTANCES
                   App.initial_demand C2 0 [C1; C3] 10) [C3; C1] _).
  apply perm_swap.
Defined.

(** X16. The result of the permutation loop does not depend on the order
    in which the set of centers happens to be listed. *)
Theorem min_over_permutations_any_listing
    (DIST : gmap (location * location) Q) (st : demand) (loc : location)
    (w : Q) (l l' : list location) (fw : Q) :
  Permutation l l' ->
  feq (App.min_over_permutations DIST st loc w l fw)
      (App.min_over_permutations DIST st loc w l' fw).
Proof. apply min_over_permutations_order. Qed.

Lemma min_over_permutations_any_listing_witness :
  feq (App.min_over_permutations App.DISTANCES App.initial_demand C2 0
         [C1; C3] 10)
      (App.min_over_permutations App.DISTANCES App.initial_demand C2 0
         [C3; C1] 10).
Proof.
  apply (min_over_permutations_any_listing App.DISTANCES App.initial_demand
           C2 0 [C1; C3] [C3; C1] 10).
  apply perm_swap.
Defined.

(** ** Binary64 rounding *)

Lemma pow2_pos (e : Z) : (0 < B64.pow2 e)%Q.
Proof. apply Qpower_0_lt. reflexivity. Qed.

Lemma pow2_add (a b : Z) : (B64.pow2 (a + b) == B64.pow2 a * B64.pow2 b)%Q.
Proof. apply Qpower_plus. discriminate. Qed.

Lemma pow2_Z (e : Z) : 0 <= e -> (B64.pow2 e == inject_Z (2 ^ e))%Q.
Proof. intros H. unfold B64.pow2. rewrite Zpower_Qpower by exact H. reflexivity. Qed.

Lemma pow2_le (a b : Z) : a <= b -> (B64.pow2 a <= B64.pow2 b)%Q.
Proof. intros H. apply Qpower_le_compat_l; [exact H | discriminate]. Qed.

Lemma pow2_lt_inv (a b : Z) : (B64.pow2 a < B64.pow2 b)%Q -> a < b.
Proof.
  intros H. destruct (Z_lt_le_dec a b) as [Hab | Hab]; [exact Hab |].
  apply pow2_le in Hab. lra.
Qed.

Lemma pow2_split (x e : Z) :
  e <= x -> (B64.pow2 x == inject_Z (2 ^ (x - e)) * B64.pow2 e)%Q.
Proof.
  intros H. rewrite <- pow2_Z by lia. rewrite <- pow2_add.
  replace (x - e + e) with x by lia. reflexivity.
Qed.

Lemma Qabs_Z (m : Z) : (Qabs (inject_Z m) == inject_Z (Z.abs m))%Q.
Proof. unfold inject_Z. rewrite Zabs_Qabs. reflexivity. Qed.

Lemma inject_Z_lt (a b : Z) : a < b -> (inject_Z a < inject_Z b)%Q.
Proof. intros H. rewrite <- Zlt_Qlt. exact H. Qed.

Lemma inject_Z_le (a b : Z) : a <= b -> (inject_Z a <= inject_Z b)%Q.
Proof. intros H. rewrite <- Zle_Qle. exact H. Qed.

Lemma py_round_Z (n : Z) : py_round (inject_Z n) = n.
Proof.
  unfold py_round. rewrite Qfloor_Z.
  destruct (Qlt_le_dec _ _) as [_ | H]; [reflexivity |].
  exfalso. revert H. unfold Qminus. rewrite Qplus_opp_r. intros H.
  apply Qle_not_lt in H. apply H. reflexivity.
Qed.

Lemma ilog2_lower (q : Q) :
  ~ (q == 0)%Q -> (B64.pow2 (B64.ilog2 q) <= Qabs q)%Q.
Proof.
  intros Hq. unfold B64.ilog2.
  set (a := Z.abs (Qnum q)). set (b := Zpos (Qden q)).
  destruct (Qle_bool _ _) eqn:E; [apply Qle_bool_iff; exact E |].
  assert (Ha : 0 < a).
  { subst a. destruct q as [n d]. simpl.
    assert (n <> 0); [| lia].
    intros ->. apply Hq. reflexivity. }
  assert (Hb : 0 < b) by (subst b; lia).
  destruct (Z.log2_spec a Ha) as [Hla _].
  destruct (Z.log2_spec b Hb) as [_ Hlb].
  assert (Hla0 := Z.log2_nonneg a). assert (Hlb0 := Z.log2_nonneg b).
  assert (Habs : (Qabs q == inject_Z a / inject_Z b)%Q).
  { destruct q as [n d]. subst a b. simpl Qnum. simpl Qden.
    rewrite <- Zabs_Qabs. rewrite (Qmake_Qdiv (Z.abs n) d). reflexivity. }
  rewrite Habs.
  assert (Hbq : (0 < inject_Z b)%Q) by (change 0%Q with (inject_Z 0); apply inject_Z_lt; exact Hb).
  apply Qle_shift_div_l; [exact Hbq |].
  apply Qle_trans with (B64.pow2 (Z.log2 a - Z.log2 b - 1) * B64.pow2 (Z.succ (Z.log2 b)))%Q.
  - apply Qmult_le_l; [apply pow2_pos |].
    rewrite pow2_Z by lia. apply inject_Z_le. lia.
  - rewrite <- pow2_add.
    replace (Z.log2 a - Z.log2 b - 1 + Z.succ (Z.log2 b)) with (Z.log2 a) by lia.
    rewrite pow2_Z by lia. apply inject_Z_le. exact Hla.
Qed.

(** A float at or above the binade of [q] lies on the grid on which [q]
    is rounded. *)
Lemma representable_grid (q f : Q) :
  B64.representable f -> (B64.pow2 (B64.ilog2 q) <= Qabs f)%Q ->
  exists N : Z, (f == inject_Z N * B64.pow2 (B64.ulp_exponent q))%Q.
Proof.
  intros (m & x & Hf & Hm & Hx) Hle.
  assert (He : B64.ulp_exponent q <= x).
  { unfold B64.ulp_exponent. apply Z.max_lub; [| lia].
    assert (B64.ilog2 q < 53 + x); [| lia].
    apply pow2_lt_inv. eapply Qle_lt_trans; [exact Hle |].
    rewrite Hf, Qabs_Qmult, Qabs_Z, pow2_add.
    rewrite (Qabs_pos (B64.pow2 x)) by (apply Qlt_le_weak, pow2_pos).
    apply Qmult_lt_compat_r; [apply pow2_pos |].
    rewrite pow2_Z by lia. apply inject_Z_lt. exact Hm. }
  exists (m * 2 ^ (x - B64.ulp_exponent q)).
  rewrite Hf, inject_Z_mult, <- Qmult_assoc, <- pow2_split by exact He.
  reflexivity.
Qed.

Lemma representable_bound (f : Q) :
  B64.representable f -> (Qabs f < B64.pow2 1024)%Q.
Proof.
  intros (m & x & Hf & Hm & Hx).
  rewrite Hf, Qabs_Qmult, Qabs_Z.
  rewrite (Qabs_pos (B64.pow2 x)) by (apply Qlt_le_weak, pow2_pos).
  replace 1024 with (53 + 971) by lia. rewrite pow2_add.
  apply Qle_lt_trans with (inject_Z (Z.abs m) * B64.pow2 971)%Q.
  - rewrite !(Qmult_comm (inject_Z (Z.abs m))).
    apply Qmult_le_compat_r; [apply pow2_le; lia |].
    change 0%Q with (inject_Z 0). apply inject_Z_le. lia.
  - apply Qmult_lt_compat_r; [apply pow2_pos |].
    rewrite pow2_Z by lia. apply inject_Z_lt. exact Hm.
Qed.

(** Rounding leaves a float as it is. *)
Lemma nearest_exact (f : Q) :
  B64.representable f -> exists r, B64.nearest f = B64.Finite r /\ (r == f)%Q.
Proof.
  intros Hf. unfold B64.nearest.
  destruct (Qeq_bool f 0) eqn:E0.
  { apply Qeq_bool_iff in E0. exists 0%Q. split; [reflexivity | symmetry; exact E0]. }
  apply Qeq_bool_neq in E0.
  destruct (representable_grid f f Hf (ilog2_lower f E0)) as [N HN].
  set (u := B64.pow2 (B64.ulp_exponent f)) in *.
  assert (Hu : (0 < u)%Q) by apply pow2_pos.
  assert (Hn : py_round (f / u) = N).
  { rewrite <- (py_round_Z N). apply py_round_comp.
    rewrite HN. field. lra. }
  cbv zeta. fold u. rewrite Hn.
  assert (Hr : (Qred (inject_Z N * u) == f)%Q) by (rewrite Qred_correct; symmetry; exact HN).
  destruct (Qle_bool _ _) eqn:E.
  - exfalso. apply Qle_bool_iff in E. rewrite Hr in E.
    apply representable_bound in Hf. lra.
  - eexists. split; [reflexivity | exact Hr].
Qed.

Lemma representable_pos_lower (f : Q) :
  B64.representable f -> (0 < f)%Q -> (B64.pow2 (-1074) <= f)%Q.
Proof.
  intros (m & x & Hf & Hm & Hx) Hpos.
  assert (H1 : 1 <= m).
  { destruct (Z_lt_le_dec m 1) as [H | H]; [| exact H]. exfalso.
    assert (inject_Z m <= 0)%Q by (change 0%Q with (inject_Z 0); apply inject_Z_le; lia).
    assert (Hp := pow2_pos x). rewrite Hf in Hpos. nra. }
  rewrite Hf. assert (Hp := pow2_le (-1074) x ltac:(lia)).
  assert (Hp0 := pow2_pos (-1074)).
  assert (1 <= inject_Z m)%Q by (change 1%Q with (inject_Z 1); apply inject_Z_le; exact H1).
  nra.
Qed.

(** Rounding does not cross a float: between two floats the rounded value
    stays between them. *)
Lemma nearest_between (q f1 f2 : Q) :
  (0 < q)%Q -> B64.representable f1 -> B64.representable f2 ->
  (f1 <= q)%Q -> (q <= f2)%Q ->
  exists r, B64.nearest q = B64.Finite r /\ (f1 <= r)%Q /\ (r <= f2)%Q.
Proof.
  intros Hq Hf1 Hf2 H1 H2. unfold B64.nearest.
  destruct (Qeq_bool q 0) eqn:E0.
  { apply Qeq_bool_iff in E0. lra. }
  apply Qeq_bool_neq in E0. cbv zeta.
  assert (Hlow := ilog2_lower q E0). rewrite (Qabs_pos q) in Hlow by lra.
  set (u := B64.pow2 (B64.ulp_exponent q)) in *.
  assert (Hu : (0 < u)%Q) by apply pow2_pos.
  set (n := py_round (q / u)).
  assert (Hr : (Qred (inject_Z n * u) == inject_Z n * u)%Q) by apply Qred_correct.
  (* the upper float is on the grid *)
  destruct (representable_grid q f2 Hf2) as [N2 HN2].
  { rewrite Qabs_pos by lra. lra. }
  fold u in HN2.
  assert (Hn2 : n <= N2).
  { rewrite <- (py_round_Z N2). apply py_round_mono.
    apply Qle_shift_div_r; [exact Hu |]. rewrite <- HN2. exact H2. }
  assert (Hn0 : 0 <= n).
  { apply py_round_nonneg. apply Qle_shift_div_l; [exact Hu | lra]. }
  assert (Hup : (inject_Z n * u <= f2)%Q).
  { rewrite HN2. apply Qmult_le_compat_r; [apply inject_Z_le; exact Hn2 | lra]. }
  assert (Hnn : (0 <= inject_Z n * u)%Q).
  { apply Qmult_le_0_compat; [| lra]. change 0%Q with (inject_Z 0). apply inject_Z_le. exact Hn0. }
  (* the lower float is on the grid, or below the binade *)
  assert (Hlo : (f1 <= inject_Z n * u)%Q).
  { destruct (Qlt_le_dec 0 f1) as [Hpos | Hneg]; [| lra].
    destruct (Qlt_le_dec f1 (B64.pow2 (B64.ilog2 q))) as [Hb | Hb].
    - assert (Hexp : B64.ulp_exponent q <= B64.ilog2 q).
      { unfold B64.ulp_exponent. apply Z.max_lub; [lia |].
        assert (-1074 < B64.ilog2 q); [| lia].
        apply pow2_lt_inv. eapply Qle_lt_trans; [| exact Hb].
        apply representable_pos_lower; assumption. }
      assert (Hs := pow2_split _ _ Hexp). fold u in Hs.
      apply Qle_trans with (B64.pow2 (B64.ilog2 q)); [lra |].
      rewrite Hs.
      apply Qmult_le_compat_r; [| lra]. apply inject_Z_le.
      rewrite <- (py_round_Z (2 ^ _)). apply py_round_mono.
      apply Qle_shift_div_l; [exact Hu |].
      rewrite <- Hs. exact Hlow.
    - destruct (representable_grid q f1 Hf1) as [N1 HN1].
      { rewrite Qabs_pos by lra. exact Hb. }
      fold u in HN1. rewrite HN1. apply Qmult_le_compat_r; [| lra]. apply inject_Z_le.
      rewrite <- (py_round_Z N1). apply py_round_mono.
      apply Qle_shift_div_l; [exact Hu |]. rewrite <- HN1. exact H1. }
  destruct (Qle_bool _ _) eqn:E.
  - exfalso. apply Qle_bool_iff in E. fold u in E. fold n in E.
    rewrite Hr, Qabs_pos in E by exact Hnn.
    apply representable_bound in Hf2. rewrite Qabs_pos in Hf2 by lra. lra.
  - fold u. fold n. eexists. split; [reflexivity |]. rewrite Hr. split; assumption.
Qed.

(** ** What the rounding is

[nearest q] is a float, no float is nearer to [q], on a tie the even
    mantissa is taken, and the result is infinite only from the middle
    between the largest float and [2 ** 1024] on. *)

Lemma py_round_error (x : Q) :
  (- (1 # 2) <= x - inject_Z (py_round x))%Q /\
  (x - inject_Z (py_round x) <= 1 # 2)%Q.
Proof.
  unfold py_round.
  pose proof (Qfloor_le x) as H1. pose proof (Qlt_floor x) as H2.
  rewrite inject_Z_plus in H2. change (inject_Z 1) with 1%Q in H2.
  repeat (destruct (Qlt_le_dec _ _)); try (split; lra);
    destruct (Z.even (Qfloor x));
    rewrite ?inject_Z_plus; change (inject_Z 1) with 1%Q; split; lra.
Qed.

Lemma py_round_tie_even (x : Q) :
  (Qabs (x - inject_Z (py_round x)) == 1 # 2)%Q -> Z.even (py_round x) = true.
Proof.
  unfold py_round.
  pose proof (Qfloor_le x) as H1. pose proof (Qlt_floor x) as H2.
  rewrite inject_Z_plus in H2. change (inject_Z 1) with 1%Q in H2.
  destruct (Qlt_le_dec (x - inject_Z (Qfloor x)) (1 # 2)) as [Hlt | Hge].
  { intros H. rewrite Qabs_pos in H by lra. lra. }
  destruct (Qlt_le_dec (1 # 2) (x - inject_Z (Qfloor x))) as [Hgt | Hle].
  { rewrite inject_Z_plus. change (inject_Z 1) with 1%Q.
    intros H. rewrite Qabs_neg in H by lra. lra. }
  intros _. destruct (Z.even (Qfloor x)) eqn:E; [exact E |].
  rewrite Z.even_add, E. reflexivity.
Qed.

Lemma py_round_nearest (x : Q) (N : Z) :
  (Qabs (x - inject_Z (py_round x)) <= Qabs (x - inject_Z N))%Q.
Proof.
  destruct (py_round_error x) as [H1 H2].
  assert (Hcase : N = py_round x \/ N <= py_round x - 1 \/ py_round x + 1 <= N) by lia.
  destruct Hcase as [-> | [Hlo | Hhi]]; [apply Qle_refl | |].
  - apply inject_Z_le in Hlo. unfold Z.sub in Hlo. rewrite inject_Z_plus in Hlo.
    change (inject_Z (- (1))) with (- (1))%Q in Hlo.
    rewrite (Qabs_pos (x - inject_Z N)) by lra.
    apply Qabs_Qle_condition. split; lra.
  - apply inject_Z_le in Hhi. rewrite inject_Z_plus in Hhi.
    change (inject_Z 1) with 1%Q in Hhi.
    rewrite (Qabs_neg (x - inject_Z N)) by lra.
    apply Qabs_Qle_condition. split; lra.
Qed.

Lemma ilog2_upper (q : Q) :
  ~ (q == 0)%Q -> (Qabs q < B64.pow2 (B64.ilog2 q + 1))%Q.
Proof.
  intros Hq. unfold B64.ilog2.
  set (a := Z.abs (Qnum q)). set (b := Zpos (Qden q)).
  destruct (Qle_bool _ _) eqn:E.
  2: { apply Qle_bool_false in E.
       replace (Z.log2 a - Z.log2 b - 1 + 1) with (Z.log2 a - Z.log2 b) by lia.
       exact E. }
  clear E.
  assert (Ha : 0 < a).
  { subst a. destruct q as [n d]. simpl.
    assert (n <> 0); [| lia].
    intros ->. apply Hq. reflexivity. }
  assert (Hb : 0 < b) by (subst b; lia).
  destruct (Z.log2_spec a Ha) as [_ Hla].
  destruct (Z.log2_spec b Hb) as [Hlb _].
  assert (Hla0 := Z.log2_nonneg a). assert (Hlb0 := Z.log2_nonneg b).
  assert (Habs : (Qabs q == inject_Z a / inject_Z b)%Q).
  { destruct q as [n d]. subst a b. simpl Qnum. simpl Qden.
    rewrite <- Zabs_Qabs. rewrite (Qmake_Qdiv (Z.abs n) d). reflexivity. }
  rewrite Habs.
  assert (Hbq : (0 < inject_Z b)%Q) by (change 0%Q with (inject_Z 0); apply inject_Z_lt; exact Hb).
  apply Qlt_shift_div_r; [exact Hbq |].
  apply Qlt_le_trans with (B64.pow2 (Z.log2 a - Z.log2 b + 1) * B64.pow2 (Z.log2 b))%Q.
  - rewrite <- pow2_add.
    replace (Z.log2 a - Z.log2 b + 1 + Z.log2 b) with (Z.succ (Z.log2 a)) by lia.
    rewrite pow2_Z by lia. apply inject_Z_lt. exact Hla.
  - apply Qmult_le_l; [apply pow2_pos |].
    rewrite pow2_Z by lia. apply inject_Z_le. exact Hlb.
Qed.

(** The rounding of a positive rational, taken apart: the integer [n]
    nearest to [q / u] on the grid [u] of the binade of [q]. *)
Lemma nearest_unfold (q : Q) :
  (0 < q)%Q ->
  exists (n : Z) (u : Q),
    u = B64.pow2 (B64.ulp_exponent q) /\ n = py_round (q / u) /\
    0 <= n <= 2 ^ 53 /\
    (B64.ulp_exponent q = B64.ilog2 q - 52 -> 2 ^ 52 <= n) /\
    ((inject_Z n * u < B64.pow2 1024)%Q ->
     B64.nearest q = B64.Finite (Qred (inject_Z n * u))) /\
    ((B64.pow2 1024 <= inject_Z n * u)%Q -> B64.nearest q = B64.inf).
Proof.
  intros Hq.
  assert (E0 : ~ (q == 0)%Q) by (intros E; rewrite E in Hq; discriminate).
  set (u := B64.pow2 (B64.ulp_exponent q)).
  assert (Hu : (0 < u)%Q) by apply pow2_pos.
  exists (py_round (q / u)), u.
  pose proof (ilog2_lower q E0) as Hlo. pose proof (ilog2_upper q E0) as Hup.
  rewrite Qabs_pos in Hlo, Hup by lra.
  assert (Hn0 : 0 <= py_round (q / u)).
  { apply py_round_nonneg. apply Qle_shift_div_l; [exact Hu | lra]. }
  assert (Hnn : (0 <= inject_Z (py_round (q / u)) * u)%Q).
  { apply Qmult_le_0_compat; [| lra]. change 0%Q with (inject_Z 0). apply inject_Z_le. exact Hn0. }
  refine (conj eq_refl (conj eq_refl (conj (conj Hn0 _) (conj _ (conj _ _))))).
  - (* at most 53 bits *)
    rewrite <- (py_round_Z (2 ^ 53)). apply py_round_mono.
    apply Qle_shift_div_r; [exact Hu |].
    apply Qle_trans with (B64.pow2 (B64.ilog2 q + 1)); [lra |].
    assert (He : B64.ilog2 q + 1 <= 53 + B64.ulp_exponent q)
      by (unfold B64.ulp_exponent; lia).
    apply Qle_trans with (B64.pow2 (53 + B64.ulp_exponent q)); [apply pow2_le, He |].
    rewrite pow2_add, pow2_Z by lia. apply Qle_refl.
  - (* at least 53 bits in the normal range *)
    intros He. rewrite <- (py_round_Z (2 ^ 52)). apply py_round_mono.
    apply Qle_shift_div_l; [exact Hu |].
    apply Qle_trans with (B64.pow2 (B64.ilog2 q)); [| exact Hlo].
    replace (B64.ilog2 q) with (52 + B64.ulp_exponent q) at 1 by lia.
    rewrite pow2_add, pow2_Z by lia. apply Qle_refl.
  - intros Hfin. unfold B64.nearest.
    assert (Qeq_bool q 0 = false) as ->.
    { destruct (Qeq_bool q 0) eqn:E; [| reflexivity].
      apply Qeq_bool_iff in E. contradiction. }
    cbv zeta. fold u.
    assert (Qle_bool (B64.pow2 1024)
              (Qabs (Qred (inject_Z (py_round (q / u)) * u))) = false) as ->.
    { apply Qle_bool_false. rewrite Qred_correct, Qabs_pos by exact Hnn. exact Hfin. }
    reflexivity.
  - intros Hinf. unfold B64.nearest.
    assert (Qeq_bool q 0 = false) as ->.
    { destruct (Qeq_bool q 0) eqn:E; [| reflexivity].
      apply Qeq_bool_iff in E. contradiction. }
    cbv zeta. fold u.
    assert (Qle_bool (B64.pow2 1024)
              (Qabs (Qred (inject_Z (py_round (q / u)) * u))) = true) as ->.
    { apply Qle_bool_iff. rewrite Qred_correct, Qabs_pos by exact Hnn. exact Hinf. }
    assert (Qle_bool 0 q = true) as -> by (apply Qle_bool_iff; lra).
    reflexivity.
Qed.

(** The rounded value is a float. *)
Lemma nearest_is_float (q r : Q) :
  (0 < q)%Q -> B64.nearest q = B64.Finite r -> B64.representable r.
Proof.
  intros Hq Hr.
  destruct (nearest_unfold q Hq) as (n & u & Eu & En & Hn & Hnormal & Hfin & Hinf).
  assert (Hu : (0 < u)%Q) by (subst u; apply pow2_pos).
  destruct (Qlt_le_dec (inject_Z n * u) (B64.pow2 1024)) as [Hlt | Hge].
  2: { rewrite (Hinf Hge) in Hr. discriminate. }
  rewrite (Hfin Hlt) in Hr. injection Hr as <-.
  assert (Hexp : -1074 <= B64.ulp_exponent q) by (unfold B64.ulp_exponent; lia).
  assert (Hmax : n * 2 ^ 0 = n) by lia.
  (* the exponent is at most 971, and at most 970 when the mantissa is 2^53 *)
  assert (Hbound : forall k, 0 <= k -> 2 ^ k <= n -> k + B64.ulp_exponent q < 1024).
  { intros k Hk Hkn. apply pow2_lt_inv. eapply Qle_lt_trans; [| exact Hlt].
    rewrite pow2_add, (pow2_Z k) by lia. rewrite <- Eu.
    apply Qmult_le_compat_r; [apply inject_Z_le; exact Hkn | lra]. }
  destruct (Z.eq_dec n (2 ^ 53)) as [E53 | N53].
  - exists (2 ^ 52), (B64.ulp_exponent q + 1).
    refine (conj _ (conj _ _)).
    + rewrite Qred_correct, E53, pow2_add, <- Eu.
      change (B64.pow2 1) with 2%Q.
      replace (inject_Z (2 ^ 53)) with (inject_Z (2 ^ 52) * 2)%Q by reflexivity.
      ring.
    + reflexivity.
    + pose proof (Hbound 53 ltac:(lia) ltac:(lia)). lia.
  - exists n, (B64.ulp_exponent q).
    refine (conj _ (conj _ _)).
    + rewrite Qred_correct, <- Eu. reflexivity.
    + lia.
    + split; [exact Hexp |].
      destruct (Z.eq_dec (B64.ulp_exponent q) (B64.ilog2 q - 52)) as [E | E].
      * pose proof (Hbound 52 ltac:(lia) (Hnormal E)). lia.
      * unfold B64.ulp_exponent in *. lia.
Qed.

Lemma representable_opp (f : Q) : B64.representable f -> B64.representable (- f).
Proof.
  intros (m & x & Hf & Hm & Hx). exists (- m), x.
  refine (conj _ (conj _ Hx)); [| lia].
  rewrite Hf, inject_Z_opp. ring.
Qed.

Lemma representable_small (f : Q) :
  B64.representable f -> (Qabs f < B64.pow2 (-1074))%Q -> (f == 0)%Q.
Proof.
  intros Hf Hsmall.
  destruct (Qlt_le_dec 0 f) as [Hpos | Hle].
  - pose proof (representable_pos_lower f Hf Hpos). rewrite Qabs_pos in Hsmall; lra.
  - destruct (Qlt_le_dec f 0) as [Hneg | Hge]; [| lra].
    pose proof (representable_pos_lower (- f) (representable_opp f Hf) ltac:(lra)).
    rewrite Qabs_neg in Hsmall; lra.
Qed.

(** No float is nearer to [q] than the rounded value. *)
Lemma nearest_is_nearest (q r f : Q) :
  (0 < q)%Q -> B64.nearest q = B64.Finite r -> B64.representable f ->
  (Qabs (q - r) <= Qabs (q - f))%Q.
Proof.
  intros Hq Hr Hf.
  destruct (nearest_unfold q Hq) as (n & u & Eu & En & Hn & Hnormal & Hfin & Hinf).
  assert (Hu : (0 < u)%Q) by (subst u; apply pow2_pos).
  destruct (Qlt_le_dec (inject_Z n * u) (B64.pow2 1024)) as [Hlt | Hge].
  2: { rewrite (Hinf Hge) in Hr. discriminate. }
  rewrite (Hfin Hlt) in Hr. injection Hr as <-. rewrite Qred_correct.
  assert (E0 : ~ (q == 0)%Q) by (intros E; rewrite E in Hq; discriminate).
  pose proof (ilog2_lower q E0) as Hlo. rewrite Qabs_pos in Hlo by lra.
  (* distances on the grid *)
  assert (Hgrid : forall N : Z,
            (Qabs (q - inject_Z n * u) <= Qabs (q - inject_Z N * u))%Q).
  { intros N.
    assert (forall k : Z, (q - inject_Z k * u == u * (q / u - inject_Z k))%Q) as Hk.
    { intros k. field. lra. }
    rewrite !Hk, !Qabs_Qmult, (Qabs_pos u) by lra.
    apply Qmult_le_l; [exact Hu |]. rewrite En. apply py_round_nearest. }
  destruct (Qlt_le_dec (Qabs f) (B64.pow2 (B64.ilog2 q))) as [Hbelow | Hon].
  - destruct (Z_le_gt_dec (B64.ulp_exponent q) (B64.ilog2 q)) as [Hexp | Hexp].
    + (* the float is below the binade: the power of two is nearer *)
      pose proof (pow2_split _ _ Hexp) as Hs. rewrite <- Eu in Hs.
      pose proof (Hgrid (2 ^ (B64.ilog2 q - B64.ulp_exponent q))) as Hg.
      rewrite <- Hs in Hg.
      rewrite (Qabs_pos (q - B64.pow2 (B64.ilog2 q))) in Hg by lra.
      pose proof (Qle_Qabs f) as Hfa.
      rewrite (Qabs_pos (q - f)) by lra. lra.
    + (* below the smallest subnormal the only float is zero *)
      assert (Hf0 : (f == 0)%Q).
      { apply (representable_small f Hf).
        eapply Qlt_le_trans; [exact Hbelow |]. apply pow2_le.
        unfold B64.ulp_exponent in Hexp. lia. }
      pose proof (Hgrid 0) as Hg. rewrite Hf0.
      assert (Ez : (q - inject_Z 0 * u == q - 0)%Q) by ring.
      rewrite Ez in Hg. exact Hg.
  - destruct (representable_grid q f Hf Hon) as [N HN]. rewrite <- Eu in HN.
    rewrite HN. apply Hgrid.
Qed.

(** On a tie the even mantissa is taken. *)
Lemma nearest_ties_to_even (q r : Q) :
  (0 < q)%Q -> B64.nearest q = B64.Finite r ->
  exists n : Z,
    (r == inject_Z n * B64.pow2 (B64.ulp_exponent q))%Q /\
    ((Qabs (q - r) == B64.pow2 (B64.ulp_exponent q) * (1 # 2))%Q ->
     Z.even n = true).
Proof.
  intros Hq Hr.
  destruct (nearest_unfold q Hq) as (n & u & Eu & En & Hn & Hnormal & Hfin & Hinf).
  assert (Hu : (0 < u)%Q) by (subst u; apply pow2_pos).
  destruct (Qlt_le_dec (inject_Z n * u) (B64.pow2 1024)) as [Hlt | Hge].
  2: { rewrite (Hinf Hge) in Hr. discriminate. }
  rewrite (Hfin Hlt) in Hr. injection Hr as <-. rewrite <- Eu.
  exists n. split; [apply Qred_correct |].
  rewrite Qred_correct. intros Htie. rewrite En. apply py_round_tie_even.
  rewrite <- En.
  assert (Hk : (q - inject_Z n * u == u * (q / u - inject_Z n))%Q) by (field; lra).
  rewrite Hk, Qabs_Qmult, (Qabs_pos u) in Htie by lra.
  apply (Qmult_inj_l _ _ u); [lra | exact Htie].
Qed.

(** The rounded value is infinite exactly from the middle between the
    largest float and [2 ** 1024] on. *)
Lemma nearest_overflow (q : Q) :
  (0 < q)%Q ->
  (B64.nearest q = B64.inf <->
   (B64.pow2 1024 - B64.pow2 970 <= q)%Q).
Proof.
  intros Hq.
  destruct (nearest_unfold q Hq) as (n & u & Eu & En & Hn & Hnormal & Hfin & Hinf).
  assert (Hu : (0 < u)%Q) by (subst u; apply pow2_pos).
  assert (E0 : ~ (q == 0)%Q) by (intros E; rewrite E in Hq; discriminate).
  pose proof (ilog2_lower q E0) as Hlo. rewrite Qabs_pos in Hlo by lra.
  pose proof (ilog2_upper q E0) as Hup. rewrite Qabs_pos in Hup by lra.
  destruct (py_round_error (q / u)) as [Herr1 Herr2]. rewrite <- En in Herr1, Herr2.
  assert (Hx : (q == u * (q / u))%Q) by (field; lra).
  assert (H970 : (B64.pow2 1024 - B64.pow2 970
                  == (inject_Z (2 ^ 53) - (1 # 2)) * B64.pow2 971)%Q).
  { replace 1024 with (53 + 971) by lia. replace 970 with (-1 + 971) at 1 by lia.
    rewrite !pow2_add, (pow2_Z 53) by lia. change (B64.pow2 (-1)) with (1 # 2). ring. }
  split.
  - intros Hnear.
    destruct (Qlt_le_dec (inject_Z n * u) (B64.pow2 1024)) as [Hlt | Hge].
    { rewrite (Hfin Hlt) in Hnear. discriminate. }
    destruct (Z_le_gt_dec 1024 (B64.ilog2 q)) as [Hbig | Hsmall].
    { pose proof (pow2_le _ _ Hbig). pose proof (pow2_pos 970). lra. }
    assert (Hue : B64.ulp_exponent q <= 971) by (unfold B64.ulp_exponent; lia).
    assert (Hn53 : (inject_Z n <= inject_Z (2 ^ 53))%Q) by (apply inject_Z_le; lia).
    assert (Hu971 : (u <= B64.pow2 971)%Q) by (subst u; apply pow2_le, Hue).
    assert (H1024 : (B64.pow2 1024 == inject_Z (2 ^ 53) * B64.pow2 971)%Q).
    { replace 1024 with (53 + 971) by lia. rewrite pow2_add, pow2_Z by lia. reflexivity. }
    assert (Hp971 := pow2_pos 971).
    assert (H53pos : (0 < inject_Z (2 ^ 53))%Q) by reflexivity.
    (* the grid is that of the last binade and the mantissa is 2^53 *)
    assert (Hu_eq : (u == B64.pow2 971)%Q).
    { apply Qle_antisym; [exact Hu971 |].
      apply Qnot_lt_le. intros Hlt'.
      assert (inject_Z n * u <= inject_Z (2 ^ 53) * u)%Q
        by (apply Qmult_le_compat_r; lra).
      assert (inject_Z (2 ^ 53) * u < inject_Z (2 ^ 53) * B64.pow2 971)%Q
        by (apply Qmult_lt_l; lra).
      lra. }
    assert (Hn_eq : (inject_Z (2 ^ 53) <= inject_Z n)%Q).
    { rewrite H1024, Hu_eq in Hge.
      apply Qmult_le_r in Hge; [exact Hge | exact Hp971]. }
    set (x := (q / u)%Q) in *.
    rewrite H970, Hx, Hu_eq, (Qmult_comm (B64.pow2 971)).
    apply Qmult_le_compat_r; lra.
  - intros Hbig. apply Hinf.
    assert (Hp970 := pow2_pos 970).
    assert (H1023 : (B64.pow2 1023 <= q)%Q).
    { assert (B64.pow2 1024 == 2 * B64.pow2 1023)%Q as E1
        by (replace 1024 with (1 + 1023) by lia; rewrite pow2_add; reflexivity).
      assert (B64.pow2 970 <= B64.pow2 1023)%Q by (apply pow2_le; lia).
      lra. }
    assert (Hil : 1023 <= B64.ilog2 q).
    { assert (1023 < B64.ilog2 q + 1); [| lia]. apply pow2_lt_inv. lra. }
    destruct (Z.eq_dec (B64.ilog2 q) 1023) as [E1023 | N1023].
    + assert (Hue : B64.ulp_exponent q = 971) by (unfold B64.ulp_exponent; lia).
      assert (Hu_eq : u = B64.pow2 971) by (rewrite Eu, Hue; reflexivity).
      assert (Hn53 : 2 ^ 53 <= n).
      { rewrite En.
        assert (py_round (inject_Z (2 ^ 53) - (1 # 2)) = 2 ^ 53) as <-
          by (vm_compute; reflexivity).
        apply py_round_mono. apply Qle_shift_div_l; [exact Hu |].
        rewrite Hu_eq, <- H970. exact Hbig. }
      replace 1024 with (53 + 971) by lia. rewrite pow2_add, pow2_Z, Hu_eq by lia.
      apply Qmult_le_compat_r; [apply inject_Z_le; exact Hn53 |].
      apply Qlt_le_weak, pow2_pos.
    + assert (Hue : B64.ulp_exponent q = B64.ilog2 q - 52)
        by (unfold B64.ulp_exponent; lia).
      pose proof (Hnormal Hue) as Hn52.
      apply Qle_trans with (inject_Z (2 ^ 52) * u)%Q.
      * rewrite Eu, <- pow2_Z, <- pow2_add by lia. apply pow2_le. lia.
      * apply Qmult_le_compat_r; [apply inject_Z_le; exact Hn52 | lra].
Qed.

(** Rounding is symmetric: a negative rational is rounded like its
    opposite. *)
Lemma py_round_opp (x : Q) : py_round (- x) = - py_round x.
Proof.
  destruct (py_round_error x) as [H1 H2].
  destruct (py_round_error (- x)) as [H3 H4].
  set (p := py_round x) in *. set (p' := py_round (- x)) in *.
  assert (Hsum : (- 1 <= inject_Z (p + p') <= 1)%Q).
  { rewrite inject_Z_plus. split; lra. }
  destruct Hsum as [Hs1 Hs2].
  change (- 1)%Q with (inject_Z (- 1)) in Hs1. change 1%Q with (inject_Z 1) in Hs2.
  rewrite <- Zle_Qle in Hs1, Hs2.
  assert (Hcase : p + p' = 0 \/ p + p' = 1 \/ p + p' = -1) by lia.
  destruct Hcase as [H0 | [Hp | Hm]]; [lia | exfalso | exfalso].
  - (* both are ties and both results are even *)
    assert (E : (inject_Z p' == 1 - inject_Z p)%Q).
    { replace p' with (1 - p) by lia. unfold Z.sub.
      rewrite inject_Z_plus, inject_Z_opp. reflexivity. }
    assert (Hx : (x - inject_Z p == - (1 # 2))%Q) by lra.
    assert (Hx' : (- x - inject_Z p' == - (1 # 2))%Q) by lra.
    assert (Z.even p = true)
      by (apply py_round_tie_even; change (Qabs (x - inject_Z p) == 1 # 2)%Q;
          rewrite Hx; reflexivity).
    assert (Z.even p' = true)
      by (apply py_round_tie_even; change (Qabs (- x - inject_Z p') == 1 # 2)%Q;
          rewrite Hx'; reflexivity).
    assert (Z.even (p + p') = true) by (rewrite Z.even_add; destruct (Z.even p), (Z.even p'); auto).
    rewrite Hp in *. discriminate.
  - assert (E : (inject_Z p' == - 1 - inject_Z p)%Q).
    { replace p' with (- 1 - p) by lia. unfold Z.sub.
      rewrite inject_Z_plus, inject_Z_opp. reflexivity. }
    assert (Hx : (x - inject_Z p == 1 # 2)%Q) by lra.
    assert (Hx' : (- x - inject_Z p' == 1 # 2)%Q) by lra.
    assert (Z.even p = true)
      by (apply py_round_tie_even; change (Qabs (x - inject_Z p) == 1 # 2)%Q;
          rewrite Hx; reflexivity).
    assert (Z.even p' = true)
      by (apply py_round_tie_even; change (Qabs (- x - inject_Z p') == 1 # 2)%Q;
          rewrite Hx'; reflexivity).
    assert (Z.even (p + p') = true) by (rewrite Z.even_add; destruct (Z.even p), (Z.even p'); auto).
    rewrite Hm in *. discriminate.
Qed.

Lemma ilog2_opp (q : Q) : B64.ilog2 (- q) = B64.ilog2 q.
Proof.
  unfold B64.ilog2. destruct q as [n d]. cbn [Qopp Qnum Qden Qabs].
  rewrite Z.abs_opp. reflexivity.
Qed.

Lemma nearest_opp (q : Q) : B64.nearest (- q) = B64.fopp (B64.nearest q).
Proof.
  unfold B64.nearest.
  destruct (Qeq_bool q 0) eqn:E0.
  { assert (Qeq_bool (- q) 0 = true) as ->.
    { apply Qeq_bool_iff. apply Qeq_bool_iff in E0. rewrite E0. reflexivity. }
    reflexivity. }
  assert (Qeq_bool (- q) 0 = false) as ->.
  { destruct (Qeq_bool (- q) 0) eqn:E; [| reflexivity].
    apply Qeq_bool_iff in E. apply Qeq_bool_neq in E0. exfalso. apply E0.
    assert (q == - - q)%Q as -> by ring. rewrite E. reflexivity. }
  apply Qeq_bool_neq in E0. cbv zeta.
  unfold B64.ulp_exponent. rewrite ilog2_opp.
  set (u := B64.pow2 (Z.max (B64.ilog2 q - 52) (-1074))).
  assert (Hu : (0 < u)%Q) by apply pow2_pos.
  assert (Hn : py_round (- q / u) = - py_round (q / u)).
  { rewrite <- py_round_opp. apply py_round_comp. field. lra. }
  rewrite Hn.
  assert (Hr : Qred (inject_Z (- py_round (q / u)) * u)
               = (- Qred (inject_Z (py_round (q / u)) * u))%Q).
  { rewrite <- Qred_opp. apply Qred_complete. rewrite inject_Z_opp. ring. }
  rewrite Hr.
  assert (Ha : Qle_bool (B64.pow2 1024)
                 (Qabs (- Qred (inject_Z (py_round (q / u)) * u)))
               = Qle_bool (B64.pow2 1024)
                   (Qabs (Qred (inject_Z (py_round (q / u)) * u)))).
  { destruct (Qle_bool (B64.pow2 1024)
                (Qabs (Qred (inject_Z (py_round (q / u)) * u)))) eqn:E.
    - apply Qle_bool_iff. apply Qle_bool_iff in E. rewrite Qabs_opp. exact E.
    - apply Qle_bool_false. apply Qle_bool_false in E. rewrite Qabs_opp. exact E. }
  rewrite Ha.
  destruct (Qle_bool (B64.pow2 1024)
              (Qabs (Qred (inject_Z (py_round (q / u)) * u)))); [| reflexivity].
  cbn [B64.fopp]. f_equal.
  destruct (Qle_bool 0 q) eqn:Eq.
  - apply Qle_bool_iff in Eq.
    assert (Qle_bool 0 (- q) = false) as ->; [| reflexivity].
    apply Qle_bool_false. destruct (Qlt_le_dec 0 q); [lra |].
    exfalso. apply E0. lra.
  - apply Qle_bool_false in Eq.
    assert (Qle_bool 0 (- q) = true) as ->; [| reflexivity].
    apply Qle_bool_iff. lra.
Qed.

(** ** Agreement with the library's binary64 *)

(** On every pair of the operands, [+], [-], [*], [/] and the comparisons
    of [B64] give what the specification [SpecFloat] and the primitive
    floats of the processor give. *)
Example B64_agrees_with_library : Reference.all_agree = true.
Proof. vm_compute. reflexivity. Qed.

(** ** Exact operations *)

Lemma representable_comp (f g : Q) :
  (f == g)%Q -> B64.representable f -> B64.representable g.
Proof.
  intros E (m & x & Hf & H). exists m, x. split; [| exact H].
  rewrite <- E. exact Hf.
Qed.

(** [n / 2 ** k] is a float when [n] has at most 53 bits. *)
Lemma representable_dyadic (n k : Z) (f : Q) :
  Z.abs n < 2 ^ 53 -> 0 <= k <= 1074 ->
  (f * inject_Z (2 ^ k) == inject_Z n)%Q -> B64.representable f.
Proof.
  intros Hn Hk Hf. exists n, (- k). refine (conj _ (conj Hn _)); [| lia].
  assert (Hp : (B64.pow2 (- k) * inject_Z (2 ^ k) == 1)%Q).
  { rewrite <- pow2_Z by lia. rewrite <- pow2_add.
    replace (- k + k) with 0 by lia. reflexivity. }
  assert (H0 : (0 < inject_Z (2 ^ k))%Q).
  { change 0%Q with (inject_Z 0). apply inject_Z_lt. apply Z.pow_pos_nonneg; lia. }
  rewrite <- Hf. rewrite <- Qmult_assoc, (Qmult_comm (inject_Z _)), Hp. ring.
Qed.

Lemma representable_Z (n : Z) (f : Q) :
  Z.abs n < 2 ^ 53 -> (f == inject_Z n)%Q -> B64.representable f.
Proof.
  intros Hn Hf. apply (representable_dyadic n 0); [exact Hn | lia |].
  rewrite Hf. change (inject_Z (2 ^ 0)) with 1%Q. ring.
Qed.

Lemma exact_comp (x : B64.float) (p q : Q) :
  (p == q)%Q -> B64.exact x p -> B64.exact x q.
Proof. destruct x; simpl; try tauto. intros E H. rewrite H. exact E. Qed.

Lemma exact_inv (x : B64.float) (q : Q) :
  B64.exact x q -> exists r, x = B64.Finite r /\ (r == q)%Q.
Proof. destruct x; simpl; try tauto. intros H. eexists. split; [reflexivity | exact H]. Qed.

Lemma nearest_exact' (f : Q) :
  B64.representable f -> B64.exact (B64.nearest f) f.
Proof. intros H. destruct (nearest_exact f H) as (r & -> & Hr). exact Hr. Qed.

Lemma fadd_exact (a b s : Q) :
  (a + b == s)%Q -> B64.representable s ->
  B64.exact (B64.fadd (B64.Finite a) (B64.Finite b)) s.
Proof.
  intros E H. simpl. apply (exact_comp _ (a + b)); [exact E |].
  apply nearest_exact'. apply (representable_comp s); [symmetry; exact E | exact H].
Qed.

Lemma fsub_exact (a b s : Q) :
  (a - b == s)%Q -> B64.representable s ->
  B64.exact (B64.fsub (B64.Finite a) (B64.Finite b)) s.
Proof. intros E H. unfold B64.fsub. simpl B64.fopp. apply fadd_exact; assumption. Qed.

Lemma fmul_exact (a b s : Q) :
  (a * b == s)%Q -> B64.representable s ->
  B64.exact (B64.fmul (B64.Finite a) (B64.Finite b)) s.
Proof.
  intros E H. simpl. apply (exact_comp _ (a * b)); [exact E |].
  apply nearest_exact'. apply (representable_comp s); [symmetry; exact E | exact H].
Qed.

Lemma of_int_exact (z : Z) :
  Z.abs z < 2 ^ 53 ->
  exists r, B64.of_int z = Value (B64.Finite r) /\ (r == inject_Z z)%Q.
Proof.
  intros H. unfold B64.of_int.
  destruct (nearest_exact (inject_Z z)) as (r & -> & Hr).
  - apply (representable_Z z); [exact H | reflexivity].
  - exists r. split; [reflexivity | exact Hr].
Qed.

Lemma Qceiling_unique (x : Q) (J : Z) :
  (inject_Z J - 1 < x)%Q -> (x <= inject_Z J)%Q -> Qceiling x = J.
Proof.
  intros H1 H2. pose proof (Qle_ceiling x) as Hc. pose proof (Qceiling_lt x) as Hl.
  assert (inject_Z (Qceiling x - 1) == inject_Z (Qceiling x) - 1)%Q as E.
  { unfold Z.sub. rewrite inject_Z_plus. reflexivity. }
  rewrite E in Hl.
  assert (inject_Z (J - 1) == inject_Z J - 1)%Q as E'.
  { unfold Z.sub. rewrite inject_Z_plus. reflexivity. }
  assert (J - 1 < Qceiling x) by (rewrite Zlt_Qlt, E'; lra).
  assert (Qceiling x - 1 < J) by (rewrite Zlt_Qlt, E; lra).
  lia.
Qed.

(** ** The tariff on the weights of an order *)

Lemma five_plus_epsilon_value :
  exists c, B64.fadd (B64.Finite 5) B64.epsilon = B64.Finite c
            /\ (5 <= c)%Q /\ (c < 11 # 2)%Q.
Proof.
  eexists. split; [vm_compute; reflexivity |].
  split; [discriminate | reflexivity].
Qed.

Lemma epsilon_bounds :
  exists E, B64.epsilon = B64.Finite E /\ (0 < E)%Q /\ (E < 1 # 4)%Q.
Proof.
  eexists. split; [vm_compute; reflexivity |].
  split; reflexivity.
Qed.

Lemma inject_Z_half (n : Z) (w : Q) :
  (w == inject_Z n * (1 # 2))%Q -> (2 * w == inject_Z n)%Q.
Proof. intros ->. field. Qed.

(** Above the first tier the float tariff finds the exact number of
    blocks: the two subtractions and the division stay within one float of
    the exact quotient, which is never that close to an integer from above. *)
Lemma additional_blocks_exact (n : Z) (w : Q) :
  11 <= n <= 2 ^ 45 -> (w == inject_Z n * (1 # 2))%Q ->
  exists x,
    B64.fdiv (B64.fmax (B64.Finite 0)
                (B64.fsub (B64.fsub (B64.Finite w) (B64.Finite 5)) B64.epsilon))
             (B64.Finite 5) = Value (B64.Finite x)
    /\ Qceiling x = (n - 1) / 10
    /\ Qceiling ((w - 5 - epsilon) / 5) = (n - 1) / 10.
Proof.
  intros Hn Hw.
  destruct epsilon_bounds as (E & HE & HE0 & HE1). rewrite HE.
  set (J := (n - 1) / 10).
  assert (HJ : 10 * J + 1 <= n <= 10 * J + 10).
  { subst J. pose proof (Z.div_mod (n - 1) 10 ltac:(lia)) as Hd.
    pose proof (Z.mod_pos_bound (n - 1) 10 ltac:(lia)). lia. }
  assert (HJ1 : 1 <= J) by lia.
  assert (HJ2 : J < 2 ^ 43) by lia.
  assert (HnQ := inject_Z_half n w Hw).
  assert (HJl : (10 * inject_Z J + 1 <= inject_Z n)%Q).
  { replace (10 * inject_Z J + 1)%Q with (inject_Z 10 * inject_Z J + inject_Z 1)%Q by reflexivity.
    rewrite <- inject_Z_mult, <- inject_Z_plus. apply inject_Z_le. lia. }
  assert (HJu : (inject_Z n <= 10 * inject_Z J + 10)%Q).
  { replace (10 * inject_Z J + 10)%Q with (inject_Z 10 * inject_Z J + inject_Z 10)%Q by reflexivity.
    rewrite <- inject_Z_mult, <- inject_Z_plus. apply inject_Z_le. lia. }
  assert (HnQ11 : (11 <= inject_Z n)%Q).
  { change 11%Q with (inject_Z 11). apply inject_Z_le. lia. }
  assert (HJQ1 : (1 <= inject_Z J)%Q).
  { change 1%Q with (inject_Z 1). apply inject_Z_le. lia. }
  (* weight - 5.0 *)
  assert (R1 : B64.representable (w - 5)).
  { apply (representable_dyadic (n - 10) 1); [lia | lia |].
    change (inject_Z (2 ^ 1)) with 2%Q. unfold Z.sub. rewrite inject_Z_plus.
    change (inject_Z (- (10))) with (- (10))%Q. lra. }
  destruct (exact_inv _ _ (fsub_exact w 5 (w - 5) ltac:(reflexivity) R1))
    as (t1 & Ht1 & Et1).
  rewrite Ht1.
  (* ... - epsilon *)
  unfold B64.fsub at 1. cbn [B64.fopp B64.fadd].
  destruct (nearest_between (t1 + - E) (w - 5 - (1 # 4)) (w - 5)) as (t2 & Ht2 & Lt2 & Ut2).
  { lra. }
  { apply (representable_dyadic (2 * n - 21) 2); [lia | lia |].
    change (inject_Z (2 ^ 2)) with 4%Q.
    unfold Z.sub. rewrite inject_Z_plus, inject_Z_mult.
    change (inject_Z (- (21))) with (- (21))%Q. change (inject_Z 2) with 2%Q. lra. }
  { exact R1. }
  { lra. }
  { lra. }
  rewrite Ht2.
  (* max(0.0, ...) *)
  assert (Hmax : B64.fmax (B64.Finite 0) (B64.Finite t2) = B64.Finite t2).
  { unfold B64.fmax, B64.flt.
    assert (Qle_bool t2 0 = false) as -> by (apply Qle_bool_false; lra).
    reflexivity. }
  rewrite Hmax.
  (* ... / 5.0 *)
  unfold B64.fdiv. change (Qeq_bool 5 0) with false. cbv iota.
  assert (Hq : (t2 / 5 == t2 * (1 # 5))%Q) by (field).
  destruct (nearest_between (t2 / 5) (inject_Z J - 1 + (1 # 32)) (inject_Z J))
    as (t3 & Ht3 & Lt3 & Ut3).
  { rewrite Hq. lra. }
  { apply (representable_dyadic (32 * J - 31) 5); [lia | lia |].
    change (inject_Z (2 ^ 5)) with 32%Q.
    unfold Z.sub. rewrite inject_Z_plus, inject_Z_mult.
    change (inject_Z (- (31))) with (- (31))%Q. change (inject_Z 32) with 32%Q. lra. }
  { apply (representable_Z J); [lia | reflexivity]. }
  { rewrite Hq. lra. }
  { rewrite Hq. lra. }
  rewrite Ht3. exists t3. split; [reflexivity |]. split.
  - apply Qceiling_unique; lra.
  - assert (Hq' : ((w - 5 - epsilon) / 5 == (w - 5 - epsilon) * (1 # 5))%Q) by field.
    pose proof epsilon_pos. pose proof epsilon_small.
    apply Qceiling_unique; rewrite Hq'; lra.
Qed.

Lemma half_integer_weaken (B B' : Z) (q : Q) :
  B <= B' -> half_integer B q -> half_integer B' q.
Proof. intros H (n & Hn & E). exists n. split; [lia | exact E]. Qed.

Lemma half_integer_comp (B : Z) (p q : Q) :
  (p == q)%Q -> half_integer B p -> half_integer B q.
Proof. intros H (n & Hn & E). exists n. split; [exact Hn | rewrite <- H; exact E]. Qed.

Lemma half_integer_representable (B : Z) (q : Q) :
  B < 2 ^ 53 -> half_integer B q -> B64.representable q.
Proof.
  intros HB (n & Hn & E). apply (representable_dyadic n 1); [lia | lia |].
  change (inject_Z (2 ^ 1)) with 2%Q. rewrite E. field.
Qed.

Lemma half_integer_add (B1 B2 : Z) (p q : Q) :
  half_integer B1 p -> half_integer B2 q -> half_integer (B1 + B2) (p + q).
Proof.
  intros (n & Hn & E) (m & Hm & F). exists (n + m). split; [lia |].
  rewrite inject_Z_plus, E, F. ring.
Qed.

Lemma half_integer_zero (B : Z) : 0 <= B -> half_integer B 0.
Proof. intros H. exists 0. split; [lia | reflexivity]. Qed.

(** The float tariff agrees with the exact tariff on every half-integer
    weight up to [2 ** 43]. *)
Lemma cost_per_unit_exact (w : Q) :
  half_integer (2 ^ 44) w ->
  exists (c : Q) (k : Z),
    App64.cost_per_unit (B64.Finite w) = Value (B64.Finite c)
    /\ (c == inject_Z k)%Q /\ 10 <= k <= 2 ^ 46
    /\ (c == App.cost_per_unit w)%Q.
Proof.
  intros (n & Hn & Hw). unfold App64.cost_per_unit.
  destruct five_plus_epsilon_value as (c5 & Hc5 & Hc5l & Hc5u). rewrite Hc5.
  destruct epsilon_bounds as (E & HE & HE0 & HE1).
  assert (HnQ := inject_Z_half n w Hw).
  pose proof epsilon_pos as Hep. pose proof epsilon_small as Hes.
  destruct (Z_le_gt_dec n 0) as [H0 | H0].
  { (* no load *)
    assert (n = 0) as -> by lia. change (inject_Z 0) with 0%Q in HnQ.
    assert (B64.fle (B64.Finite w) B64.epsilon = true) as ->.
    { rewrite HE. apply Qle_bool_iff; lra. }
    exists 10%Q, 10. refine (conj eq_refl (conj _ (conj _ _))); [reflexivity | lia |].
    unfold App.cost_per_unit.
    assert (Qle_bool w epsilon = true) as -> by (apply Qle_bool_iff; lra).
    reflexivity. }
  assert (H1 : (1 <= inject_Z n)%Q).
  { change 1%Q with (inject_Z 1). apply inject_Z_le. lia. }
  assert (B64.fle (B64.Finite w) B64.epsilon = false) as ->.
  { rewrite HE. apply Qle_bool_false; lra. }
  cbn [B64.fle].
  destruct (Z_le_gt_dec n 10) as [H10 | H10].
  { (* first tier *)
    assert (H10Q : (inject_Z n <= 10)%Q).
    { change 10%Q with (inject_Z 10). apply inject_Z_le. lia. }
    assert (Qle_bool w c5 = true) as -> by (apply Qle_bool_iff; lra).
    exists 10%Q, 10. refine (conj eq_refl (conj _ (conj _ _))); [reflexivity | lia |].
    unfold App.cost_per_unit.
    assert (Qle_bool w epsilon = false) as -> by (apply Qle_bool_false; lra).
    assert (Qle_bool w (5 + epsilon) = true) as -> by (apply Qle_bool_iff; lra).
    reflexivity. }
  (* further tiers *)
  assert (H11Q : (11 <= inject_Z n)%Q).
  { change 11%Q with (inject_Z 11). apply inject_Z_le. lia. }
  assert (Qle_bool w c5 = false) as -> by (apply Qle_bool_false; lra).
  destruct (additional_blocks_exact n w ltac:(lia) Hw) as (x & Hx & Hceil & Hceil').
  rewrite Hx. cbn [mbind outcome_bind B64.ceil]. rewrite Hceil.
  set (J := (n - 1) / 10) in *.
  assert (HJ : 1 <= J <= n / 10 + 1).
  { subst J. split.
    - apply Z.div_le_lower_bound; lia.
    - assert ((n - 1) / 10 <= n / 10); [| lia]. apply Z.div_le_mono; lia. }
  assert (HJb : J < 2 ^ 42).
  { assert (n / 10 <= 2 ^ 44 / 10) by (apply Z.div_le_mono; lia).
    assert (2 ^ 44 / 10 + 1 < 2 ^ 42) by reflexivity. lia. }
  destruct (of_int_exact J ltac:(lia)) as (j & Hj & Ej). rewrite Hj. cbn [mbind outcome_bind].
  destruct (exact_inv _ _ (fmul_exact 8 j (inject_Z (8 * J))
              ltac:(rewrite Ej, inject_Z_mult; reflexivity)
              ltac:(apply (representable_Z (8 * J)); [lia | reflexivity])))
    as (m & Hm & Em).
  rewrite Hm.
  destruct (exact_inv _ _ (fadd_exact 10 m (inject_Z (10 + 8 * J))
              ltac:(rewrite Em, inject_Z_plus; reflexivity)
              ltac:(apply (representable_Z (10 + 8 * J)); [lia | reflexivity])))
    as (c & Hc & Ec).
  rewrite Hc. exists c, (10 + 8 * J).
  refine (conj eq_refl (conj Ec (conj _ _))); [lia |].
  rewrite Ec. unfold App.cost_per_unit.
  assert (Qle_bool w epsilon = false) as -> by (apply Qle_bool_false; lra).
  assert (Qle_bool w (5 + epsilon) = false) as -> by (apply Qle_bool_false; lra).
  cbv zeta. unfold py_max.
  destruct (Qlt_le_dec 0 (w - 5 - epsilon)) as [_ | Hbad]; [| exfalso; lra].
  rewrite Hceil'. rewrite inject_Z_plus, inject_Z_mult. reflexivity.
Qed.

(** ** Legs in the exact range *)

Lemma get_distance64_eval (a b : location) :
  App64.get_distance a b =
  match a, b with
  | C1, C3 | C3, C1 => B64.inf
  | _, _ => B64.Finite (charged_distance a b)
  end.
Proof. destruct a, b; vm_compute; reflexivity. Qed.

Lemma segment_cost64_zero (x : B64.float) :
  App64.calculate_segment_cost x (B64.Finite 0) = Value (B64.Finite 0).
Proof. reflexivity. Qed.

Lemma segment_cost64_exact (w d : Q) (d2 : Z) :
  half_integer (2 ^ 44) w -> 1 <= d2 <= 64 -> (d == inject_Z d2 * (1 # 2))%Q ->
  exists c,
    App64.calculate_segment_cost (B64.Finite w) (B64.Finite d) = Value (B64.Finite c)
    /\ (c == App.cost_per_unit w * d)%Q /\ half_integer (2 ^ 46 * d2) c.
Proof.
  intros Hw Hd2 Hd. unfold App64.calculate_segment_cost.
  assert (Hd1 : (1 <= inject_Z d2)%Q).
  { change 1%Q with (inject_Z 1). apply inject_Z_le. lia. }
  cbn [B64.fle B64.feqb B64.inf].
  assert (Qle_bool d 0 = false) as -> by (apply Qle_bool_false; lra).
  cbn [orb].
  destruct (cost_per_unit_exact w Hw) as (c0 & k & Hc0 & Ek & Hk & Ec0).
  rewrite Hc0. cbn [mbind outcome_bind].
  assert (Hprod : (c0 * d == inject_Z (k * d2) * (1 # 2))%Q).
  { rewrite Ek, Hd, inject_Z_mult. ring. }
  assert (Hhalf : half_integer (2 ^ 46 * d2) (c0 * d)).
  { exists (k * d2). split; [| exact Hprod]. split; nia. }
  destruct (exact_inv _ _ (fmul_exact c0 d (c0 * d) ltac:(reflexivity)
              (half_integer_representable (2 ^ 46 * d2) _ ltac:(lia) Hhalf)))
    as (c & Hc & Ec).
  rewrite Hc. exists c. refine (conj eq_refl (conj _ _)).
  - rewrite Ec, Ec0. reflexivity.
  - apply (half_integer_comp _ (c0 * d)); [symmetry; exact Ec | exact Hhalf].
Qed.

(** Every leg carrying a half-integer weight up to [2 ** 43] is priced
    without rounding. *)
Lemma travel_cost64_exact (a b : location) (w : Q) :
  half_integer (2 ^ 44) w ->
  exists c,
    App64._calculate_travel_cost_between_stops a b (B64.Finite w)
      = Value (B64.Finite c)
    /\ (c == Spec.rate w * charged_distance a b)%Q
    /\ half_integer (2 ^ 50) c.
Proof.
  intros Hw. unfold App64._calculate_travel_cost_between_stops.
  pose proof (segment_cost64_exact w 3 6 Hw ltac:(lia) ltac:(reflexivity)) as (c3 & H3 & E3 & B3).
  pose proof (segment_cost64_exact w (5 # 2) 5 Hw ltac:(lia) ltac:(reflexivity)) as (c25 & H25 & E25 & B25).
  pose proof (segment_cost64_exact w 2 4 Hw ltac:(lia) ltac:(reflexivity)) as (c2 & H2 & E2 & B2).
  pose proof (segment_cost64_exact w 4 8 Hw ltac:(lia) ltac:(reflexivity)) as (c4 & H4 & E4 & B4).
  rewrite cost_per_unit_rate in E3, E25, E2, E4.
  apply (half_integer_weaken _ (2 ^ 49)) in B3, B25, B2, B4; try lia.
  assert (Hsum : half_integer (2 ^ 50) (c4 + c3)).
  { replace (2 ^ 50) with (2 ^ 49 + 2 ^ 49) by reflexivity. apply half_integer_add; assumption. }
  assert (Hsum' : half_integer (2 ^ 50) (c3 + c4)).
  { replace (2 ^ 50) with (2 ^ 49 + 2 ^ 49) by reflexivity. apply half_integer_add; assumption. }
  destruct (exact_inv _ _ (fadd_exact c4 c3 (c4 + c3) ltac:(reflexivity)
              (half_integer_representable (2 ^ 50) _ ltac:(reflexivity) Hsum)))
    as (s & Hs & Es).
  destruct (exact_inv _ _ (fadd_exact c3 c4 (c3 + c4) ltac:(reflexivity)
              (half_integer_representable (2 ^ 50) _ ltac:(reflexivity) Hsum')))
    as (s' & Hs' & Es').
  destruct a, b; rewrite !get_distance64_eval;
    cbn [B64.feqb B64.inf Bool.eqb negb charged_distance];
    rewrite ?segment_cost64_zero, ?H3, ?H25, ?H2, ?H4;
    cbn [mbind outcome_bind B64.feqb B64.inf orb andb];
    rewrite ?bool_decide_eq_true_2 by reflexivity;
    cbn [mbind outcome_bind B64.feqb B64.inf orb andb];
    rewrite ?Hs, ?Hs';
    eexists; (refine (conj eq_refl (conj _ _));
              [ try rewrite Es; try rewrite Es'; lra
              | first [ apply half_integer_zero; lia
                      | apply (half_integer_weaken (2 ^ 49)); [lia | assumption]
                      | apply (half_integer_comp _ (c4 + c3)); [symmetry; exact Es | exact Hsum]
                      | apply (half_integer_comp _ (c3 + c4)); [symmetry; exact Es' | exact Hsum'] ] ]).
Qed.

(** ** The float search in the exact range *)

Lemma half_integral_bounded (B : Z) (q : Q) :
  half_integral q -> (q <= inject_Z B * (1 # 2))%Q -> half_integer B q.
Proof.
  intros (n & Hn & E) Hle. exists n. split; [| exact E].
  split; [exact Hn |]. rewrite E in Hle.
  assert (inject_Z n <= inject_Z B)%Q as H by lra.
  rewrite <- Zle_Qle in H. exact H.
Qed.

Lemma half_integral_nonneg (q : Q) : half_integral q -> (0 <= q)%Q.
Proof.
  intros (n & Hn & E). rewrite E.
  assert (0 <= inject_Z n)%Q by (change 0%Q with (inject_Z 0); apply inject_Z_le; lia).
  lra.
Qed.

Lemma exact_range_bound_value : (exact_range_bound == inject_Z (2 ^ 41) * (1 # 2))%Q.
Proof. reflexivity. Qed.

Lemma exact_range_total (st : demand) :
  exact_range st -> half_integer (2 ^ 41) (total_weight st).
Proof.
  intros (Hb & Ht & _). apply half_integral_bounded; [exact Ht |].
  rewrite <- exact_range_bound_value. exact Hb.
Qed.

Lemma exact_range_weight (st : demand) (c : location) :
  exact_range st -> half_integer (2 ^ 41) (App.weight_at st c).
Proof.
  intros (Hb & Ht & Hc). destruct (Hc c) as [Hw Hr].
  apply half_integral_bounded; [exact Hw |].
  rewrite <- exact_range_bound_value. apply half_integral_nonneg in Hr. lra.
Qed.

Lemma exact_range_remaining (st : demand) (c : location) :
  exact_range st ->
  half_integer (2 ^ 41) (total_weight st - App.weight_at st c).
Proof.
  intros (Hb & Ht & Hc). destruct (Hc c) as [Hw Hr].
  apply half_integral_bounded; [exact Hr |].
  rewrite <- exact_range_bound_value. apply half_integral_nonneg in Hw. lra.
Qed.

Lemma same_demand_weight_at (st64 : demand64) (st : demand) (c : location) :
  same_demand st64 st ->
  B64.exact (App64.weight_at st64 c) (App.weight_at st c).
Proof.
  intros (_ & _ & Hw & _). specialize (Hw c).
  unfold App64.weight_at, App.weight_at.
  destruct (weight_from_center64 st64 !! c), (weight_from_center st !! c);
    cbn; try contradiction; [exact Hw | reflexivity].
Qed.

Lemma same_cost_weaken (B B' : Z) (x : B64.float) (y : pyfloat) :
  B <= B' -> same_cost B x y -> same_cost B' x y.
Proof.
  intros H. destruct x as [r | [] |], y; cbn; try tauto.
  intros [E Hh]. split; [exact E | apply (half_integer_weaken B); assumption].
Qed.

Lemma same_cost_Fin (B : Z) (x : B64.float) (q : Q) :
  same_cost B x (Fin q) ->
  exists r, x = B64.Finite r /\ (r == q)%Q /\ half_integer B r.
Proof.
  destruct x as [r | [] |]; cbn; try tauto.
  intros [E H]. exists r. auto.
Qed.

Lemma same_cost_PInf (B : Z) (x : B64.float) :
  same_cost B x PInf -> x = B64.inf.
Proof. destruct x as [r | [] |]; cbn; try tauto. Qed.

Lemma fmin_same_cost (B : Z) (a b : B64.float) (a' b' : pyfloat) :
  same_cost B a a' -> same_cost B b b' ->
  same_cost B (B64.fmin a b) (fmin a' b').
Proof.
  intros Ha Hb. destruct a' as [x' |], b' as [y' |].
  - apply same_cost_Fin in Ha, Hb.
    destruct Ha as (x & -> & Ex & Hx), Hb as (y & -> & Ey & Hy).
    unfold B64.fmin, B64.flt, fmin.
    destruct (Qlt_le_dec y' x') as [Hlt | Hle].
    + assert (Qle_bool x y = false) as -> by (apply Qle_bool_false; lra).
      cbn. auto.
    + assert (Qle_bool x y = true) as -> by (apply Qle_bool_iff; lra).
      cbn. auto.
  - apply same_cost_PInf in Hb. subst b.
    apply same_cost_Fin in Ha. destruct Ha as (x & -> & Ex & Hx).
    cbn. auto.
  - apply same_cost_PInf in Ha. subst a.
    apply same_cost_Fin in Hb. destruct Hb as (y & -> & Ey & Hy).
    cbn. auto.
  - apply same_cost_PInf in Ha, Hb. subst a b. exact I.
Qed.

(** A leg carrying the same half-integer weight has the same price. *)
Lemma travel_same_cost (a b : location) (w w' : Q) :
  (w == w')%Q -> half_integer (2 ^ 44) w ->
  exists c,
    App64._calculate_travel_cost_between_stops a b (B64.Finite w)
      = Value (B64.Finite c)
    /\ exists c',
         App._calculate_travel_cost_between_stops App.DISTANCES a b w' = Fin c'
         /\ (c == c')%Q /\ half_integer (2 ^ 50) c.
Proof.
  intros E Hw.
  destruct (travel_cost64_exact a b w Hw) as (c & Hc & Ec & Bc).
  destruct (travel_cost_finite a b w') as (c' & Hc' & Ec').
  exists c. split; [exact Hc |]. exists c'. split; [exact Hc' |].
  split; [| exact Bc]. rewrite Ec, Ec', (rate_comp _ _ E). reflexivity.
Qed.

Lemma walk_step_same (st64 : demand64) (st : demand) (i : Z)
    (s64 : walk64) (s : walk) (b : location) :
  same_demand st64 st -> exact_range st -> 0 <= i <= 4 ->
  same_walk i s64 s ->
  exists s64',
    App64.walk_step st64 s64 b = Value s64'
    /\ same_walk (i + 1) s64' (App.walk_step App.DISTANCES st s b).
Proof.
  intros Hst Hr Hi (Hv64 & Hv & Hloc & Hcost & Hweight).
  apply same_cost_Fin in Hcost, Hweight.
  destruct Hcost as (c & Hc & Ec & Bc), Hweight as (w & Hw & Ew & Bw).
  destruct s64 as [c64 w64 l64 v64], s as [cq wq lq vq].
  cbn [walk_valid64 walk_valid walk_loc64 walk_loc walk_cost64 walk_cost
       walk_weight64 walk_weight] in *.
  subst c64 w64 l64 v64 vq.
  unfold App64.walk_step, App.walk_step.
  cbn [walk_valid64 walk_valid walk_loc64 walk_loc walk_cost64 walk_cost
       walk_weight64 walk_weight].
  assert (Bw' : half_integer (2 ^ 44) w).
  { apply (half_integer_weaken ((i + 1) * 2 ^ 41)); [lia | exact Bw]. }
  destruct (travel_same_cost lq b w wq Ew Bw') as (seg & Hseg & seg' & Hseg' & Eseg & Bseg).
  rewrite Hseg, Hseg'. cbn [mbind outcome_bind B64.feqb B64.inf].
  pose proof (same_demand_weight_at st64 st b Hst) as Hwb.
  apply exact_inv in Hwb. destruct Hwb as (wb & Hwb & Ewb). rewrite Hwb.
  pose proof (exact_range_weight st b Hr) as Bwb.
  assert (Hc' : half_integer ((i + 1) * 2 ^ 50) (c + seg)).
  { replace ((i + 1) * 2 ^ 50) with (i * 2 ^ 50 + 2 ^ 50) by lia.
    apply half_integer_add; assumption. }
  assert (Hw' : half_integer ((i + 1 + 1) * 2 ^ 41) (w + wb)).
  { replace ((i + 1 + 1) * 2 ^ 41) with ((i + 1) * 2 ^ 41 + 2 ^ 41) by lia.
    apply half_integer_add; [assumption |].
    apply (half_integer_comp _ (App.weight_at st b)); [symmetry; exact Ewb | exact Bwb]. }
  destruct (exact_inv _ _ (fadd_exact c seg (c + seg) ltac:(reflexivity)
              (half_integer_representable ((i + 1) * 2 ^ 50) _ ltac:(lia) Hc')))
    as (c1 & Hc1 & Ec1).
  destruct (exact_inv _ _ (fadd_exact w wb (w + wb) ltac:(reflexivity)
              (half_integer_representable ((i + 1 + 1) * 2 ^ 41) _ ltac:(lia) Hw')))
    as (w1 & Hw1 & Ew1).
  rewrite Hc1, Hw1. eexists. split; [reflexivity |].
  unfold same_walk.
  cbn [walk_valid64 walk_valid walk_loc64 walk_loc walk_cost64 walk_cost
       walk_weight64 walk_weight same_cost].
  refine (conj eq_refl (conj eq_refl (conj eq_refl (conj (conj _ _) (conj _ _))))).
  - rewrite Ec1, Ec, Eseg. reflexivity.
  - apply (half_integer_comp _ (c + seg)); [symmetry; exact Ec1 | exact Hc'].
  - rewrite Ew1, Ew, Ewb. reflexivity.
  - apply (half_integer_comp _ (w + wb)); [symmetry; exact Ew1 | exact Hw'].
Qed.

Lemma walk_same (st64 : demand64) (st : demand) (order : list location) :
  same_demand st64 st -> exact_range st ->
  forall (i : Z) (s64 : walk64) (s : walk),
    0 <= i -> i + Z.of_nat (length order) <= 5 ->
    same_walk i s64 s ->
    exists s64',
      fold_outcome (App64.walk_step st64) order s64 = Value s64'
      /\ same_walk (i + Z.of_nat (length order)) s64'
           (fold_left (App.walk_step App.DISTANCES st) order s).
Proof.
  intros Hst Hr. induction order as [| b order IH]; intros i s64 s Hi Hlen Hs.
  - exists s64. split; [reflexivity |]. cbn [length fold_left].
    replace (i + Z.of_nat 0) with i by lia. exact Hs.
  - cbn [length] in Hlen. rewrite Nat2Z.inj_succ in Hlen.
    destruct (walk_step_same st64 st i s64 s b Hst Hr ltac:(lia) Hs) as (s1 & Hs1 & Hsame).
    cbn [fold_outcome fold_left]. rewrite Hs1. cbn [mbind outcome_bind].
    destruct (IH (i + 1) s1 _ ltac:(lia) ltac:(lia) Hsame) as (s2 & Hs2 & Hsame2).
    exists s2. split; [exact Hs2 |].
    cbn [length]. rewrite Nat2Z.inj_succ.
    replace (i + Z.succ (Z.of_nat (length order))) with (i + 1 + Z.of_nat (length order)) by lia.
    exact Hsame2.
Qed.

Lemma min_over_permutations_same (st64 : demand64) (st : demand)
    (loc : location) (w fw w' fw' : Q) (to_visit : list location) :
  same_demand st64 st -> exact_range st ->
  (w == w')%Q -> half_integer (2 ^ 41) w ->
  (fw == fw')%Q -> half_integer (2 ^ 41) fw ->
  (length to_visit <= 4)%nat ->
  exists x,
    App64.min_over_permutations st64 loc (B64.Finite w) to_visit (B64.Finite fw)
      = Value x
    /\ same_cost (5 * 2 ^ 50) x
         (App.min_over_permutations App.DISTANCES st loc w' to_visit fw').
Proof.
  intros Hst Hr Ew Bw Efw Bfw Hlen.
  unfold App64.min_over_permutations, App.min_over_permutations.
  assert (Hperms : Forall (fun o : list location => (length o <= 4)%nat)
                     (permutations to_visit)).
  { apply Forall_forall. intros o Ho.
    apply list_elem_of_In, permutations_spec in Ho.
    apply Permutation_length in Ho. lia. }
  assert (Hacc : same_cost (5 * 2 ^ 50) B64.inf PInf) by exact I.
  match goal with
  | |- exists x, fold_outcome ?F _ _ = Value x
                 /\ same_cost _ x (fold_left ?G _ _) =>
      assert (Hgen : forall perms acc64 acc,
                Forall (fun o : list location => (length o <= 4)%nat) perms ->
                same_cost (5 * 2 ^ 50) acc64 acc ->
                exists x, fold_outcome F perms acc64 = Value x
                          /\ same_cost (5 * 2 ^ 50) x (fold_left G perms acc));
        [| exact (Hgen _ _ _ Hperms Hacc)]
  end.
  clear Hperms Hacc.
  induction perms as [| order perms IH]; intros acc64 acc Hperms Hacc.
  - exists acc64. split; [reflexivity | exact Hacc].
  - apply Forall_cons in Hperms. destruct Hperms as [Hlo Hperms].
    cbn [fold_outcome fold_left].
    destruct (walk_same st64 st order Hst Hr 0
                {| walk_cost64 := B64.Finite 0; walk_weight64 := B64.Finite w;
                   walk_loc64 := loc; walk_valid64 := true |}
                {| walk_cost := 0; walk_weight := w';
                   walk_loc := loc; walk_valid := true |}
                ltac:(lia) ltac:(lia))
      as (s64 & Hs64 & Hv64 & Hv & Hloc & Hcost & Hweight).
    { unfold same_walk. cbn.
      refine (conj eq_refl (conj eq_refl (conj eq_refl (conj (conj _ _) (conj Ew _))))).
      - reflexivity.
      - apply half_integer_zero. lia.
      - exact Bw. }
    rewrite Hs64. cbn [mbind outcome_bind]. rewrite Hv64, Hv. cbn [negb].
    rewrite Hloc.
    destruct (travel_same_cost
                (walk_loc (fold_left (App.walk_step App.DISTANCES st) order
                   {| walk_cost := 0; walk_weight := w'; walk_loc := loc;
                      walk_valid := true |})) L1 fw fw' Efw
                ltac:(apply (half_integer_weaken (2 ^ 41)); [lia | exact Bfw]))
      as (fin & Hfin & fin' & Hfin' & Efin & Bfin).
    rewrite Hfin, Hfin'. cbn [mbind outcome_bind B64.feqb B64.inf].
    apply same_cost_Fin in Hcost. destruct Hcost as (c & Hc & Ec & Bc).
    rewrite Hc.
    assert (Hsum : half_integer (5 * 2 ^ 50) (c + fin)).
    { replace (5 * 2 ^ 50) with (4 * 2 ^ 50 + 2 ^ 50) by lia.
      apply half_integer_add; [| exact Bfin].
      apply (half_integer_weaken ((0 + Z.of_nat (length order)) * 2 ^ 50)); [lia | exact Bc]. }
    destruct (exact_inv _ _ (fadd_exact c fin (c + fin) ltac:(reflexivity)
                (half_integer_representable (5 * 2 ^ 50) _ ltac:(lia) Hsum)))
      as (t & Ht & Et).
    rewrite Ht.
    apply IH; [exact Hperms |].
    apply fmin_same_cost; [exact Hacc |].
    cbn [same_cost]. split.
    + rewrite Et, Ec, Efin. reflexivity.
    + apply (half_integer_comp _ (c + fin)); [symmetry; exact Et | exact Hsum].
Qed.

Lemma elements_length (N : gset location) : (length (elements N) <= 4)%nat.
Proof.
  change 4%nat with (length [C1; C2; C3; L1]).
  apply submseteq_length, NoDup_submseteq; [apply NoDup_elements |].
  intros []; intros _; set_solver.
Qed.

Lemma cost_simple_same (st64 : demand64) (st : demand) (start : location) :
  same_demand st64 st -> exact_range st ->
  exists x,
    App64.cost_simple st64 start = Value x
    /\ same_cost (5 * 2 ^ 50) x (App.cost_simple App.DISTANCES st start).
Proof.
  intros Hst Hr. unfold App64.cost_simple, App.cost_simple.
  pose proof (same_demand_weight_at st64 st start Hst) as Hws.
  assert (Hst' := Hst).
  destruct Hst' as (Hitems & Hneeded & Hw & Htot). rewrite Hneeded.
  apply exact_inv in Htot. destruct Htot as (tot & Htot & Etot). rewrite Htot.
  pose proof (exact_range_total st Hr) as Btot.
  assert (Btot' : half_integer (2 ^ 41) tot).
  { apply (half_integer_comp _ (total_weight st)); [symmetry; exact Etot | exact Btot]. }
  pose proof (elements_length (needed_centers st ∖ {[start]})) as Hlen.
  destruct (elements (needed_centers st ∖ {[start]})) as [| b rest] eqn:El.
  - destruct (bool_decide (start ∈ needed_centers st) || bool_decide (needed_centers st = ∅)).
    + destruct (travel_same_cost start L1 tot (total_weight st) Etot
                  ltac:(apply (half_integer_weaken (2 ^ 41)); [lia | exact Btot']))
        as (c & Hc & c' & Hc' & Ec & Bc).
      rewrite Hc, Hc'. eexists. split; [reflexivity |]. cbn [same_cost].
      split; [exact Ec | apply (half_integer_weaken (2 ^ 50)); [lia | exact Bc]].
    + eexists. split; [reflexivity | exact I].
  - apply exact_inv in Hws. destruct Hws as (ws & Hws & Ews). rewrite Hws.
    apply min_over_permutations_same; try assumption.
    apply (half_integer_comp _ (App.weight_at st start));
        [symmetry; exact Ews | apply exact_range_weight; exact Hr].
Qed.

Lemma cost_partial_same (st64 : demand64) (st : demand) (start : location) :
  same_demand st64 st -> exact_range st ->
  exists x,
    App64.cost_partial st64 start = Value x
    /\ same_cost (6 * 2 ^ 50) x (App.cost_partial App.DISTANCES st start).
Proof.
  intros Hst Hr. unfold App64.cost_partial, App.cost_partial.
  pose proof (same_demand_weight_at st64 st start Hst) as Hws.
  apply exact_inv in Hws. destruct Hws as (ws & Hws & Ews). rewrite Hws.
  pose proof (exact_range_weight st start Hr) as Bws.
  assert (Bws' : half_integer (2 ^ 41) ws).
  { apply (half_integer_comp _ (App.weight_at st start)); [symmetry; exact Ews | exact Bws]. }
  assert (Hst' := Hst).
  destruct Hst' as (Hitems & Hneeded & Hw & Htot). rewrite Hneeded.
  apply exact_inv in Htot. destruct Htot as (tot & Htot & Etot). rewrite Htot.
  cbn [B64.flt].
  destruct (Qlt_le_dec 0 (App.weight_at st start)) as [Hpos | Hzero].
  2: { assert (Qle_bool ws 0 = true) as -> by (apply Qle_bool_iff; lra).
       cbn [negb andb]. eexists. split; [reflexivity | exact I]. }
  assert (Qle_bool ws 0 = false) as -> by (apply Qle_bool_false; lra).
  cbn [negb andb].
  destruct (bool_decide (1 < size (needed_centers st))%nat).
  2: { eexists. split; [reflexivity | exact I]. }
  destruct (travel_same_cost start L1 ws (App.weight_at st start) Ews
              ltac:(apply (half_integer_weaken (2 ^ 41)); [lia | exact Bws']))
    as (leg1 & Hleg1 & leg1' & Hleg1' & Eleg1 & Bleg1).
  rewrite Hleg1, Hleg1'. cbn [mbind outcome_bind B64.feqb B64.inf is_inf negb].
  (* the weight left for the second trip *)
  pose proof (exact_range_remaining st start Hr) as Brem.
  destruct (exact_inv _ _ (fsub_exact tot ws (total_weight st - App.weight_at st start)
              ltac:(rewrite Etot, Ews; reflexivity)
              (half_integer_representable (2 ^ 41) _ ltac:(lia) Brem)))
    as (rem & Hrem & Erem).
  rewrite Hrem.
  pose proof (elements_length (needed_centers st ∖ {[start]})) as Hlen.
  assert (Hpick : exists x,
            match elements (needed_centers st ∖ {[start]}) with
            | [] => Value (B64.Finite 0)
            | _ :: _ =>
                App64.min_over_permutations st64 L1 (B64.Finite 0)
                  (elements (needed_centers st ∖ {[start]})) (B64.Finite rem)
            end = Value x
            /\ same_cost (5 * 2 ^ 50) x
                 match elements (needed_centers st ∖ {[start]}) with
                 | [] => Fin 0
                 | _ :: _ =>
                     App.min_over_permutations App.DISTANCES st L1 0
                       (elements (needed_centers st ∖ {[start]}))
                       (total_weight st - App.weight_at st start)
                 end).
  { destruct (elements (needed_centers st ∖ {[start]})) as [| b rest] eqn:El.
    - eexists. split; [reflexivity |]. cbn [same_cost].
      split; [reflexivity | apply half_integer_zero; lia].
    - apply min_over_permutations_same; try assumption.
      + reflexivity.
      + apply half_integer_zero. lia.
      + apply (half_integer_comp _ (total_weight st - App.weight_at st start));
          [symmetry; exact Erem | exact Brem]. }
  destruct Hpick as (x & Hx & Sx).
  destruct (elements (needed_centers st ∖ {[start]})) as [| b rest] eqn:El;
    rewrite Hx; cbn [mbind outcome_bind].
  - apply same_cost_Fin in Sx. destruct Sx as (r & -> & Er & Br).
    cbn [B64.feqb B64.inf is_inf negb fadd].
    assert (Hsum : half_integer (6 * 2 ^ 50) (leg1 + r)).
    { replace (6 * 2 ^ 50) with (2 ^ 50 + 5 * 2 ^ 50) by lia.
      apply half_integer_add; assumption. }
    destruct (exact_inv _ _ (fadd_exact leg1 r (leg1 + r) ltac:(reflexivity)
                (half_integer_representable (6 * 2 ^ 50) _ ltac:(lia) Hsum)))
      as (t & Ht & Et).
    rewrite Ht. eexists. split; [reflexivity |]. cbn [same_cost]. split.
    + rewrite Et, Eleg1, Er. reflexivity.
    + apply (half_integer_comp _ (leg1 + r)); [symmetry; exact Et | exact Hsum].
  - destruct (App.min_over_permutations App.DISTANCES st L1 0 (b :: rest)
                (total_weight st - App.weight_at st start)) as [m |].
    + apply same_cost_Fin in Sx. destruct Sx as (r & -> & Er & Br).
      cbn [B64.feqb B64.inf is_inf negb fadd].
      assert (Hsum : half_integer (6 * 2 ^ 50) (leg1 + r)).
      { replace (6 * 2 ^ 50) with (2 ^ 50 + 5 * 2 ^ 50) by lia.
        apply half_integer_add; assumption. }
      destruct (exact_inv _ _ (fadd_exact leg1 r (leg1 + r) ltac:(reflexivity)
                  (half_integer_representable (6 * 2 ^ 50) _ ltac:(lia) Hsum)))
        as (t & Ht & Et).
      rewrite Ht. eexists. split; [reflexivity |]. cbn [same_cost]. split.
      * rewrite Et, Eleg1, Er. reflexivity.
      * apply (half_integer_comp _ (leg1 + r)); [symmetry; exact Et | exact Hsum].
    + apply same_cost_PInf in Sx. subst x.
      cbn [B64.feqb B64.inf Bool.eqb is_inf negb].
      eexists. split; [reflexivity | exact I].
Qed.

Lemma search_same (st64 : demand64) (st : demand) :
  same_demand st64 st -> exact_range st ->
  exists x,
    App64.search st64 = Value x
    /\ same_cost (6 * 2 ^ 50) x (App.search App.DISTANCES st).
Proof.
  intros Hst Hr. unfold App64.search, App.search, App.CENTERS.
  cbn [fold_outcome fold_left].
  destruct (cost_simple_same st64 st C1 Hst Hr) as (s1 & -> & Ss1).
  destruct (cost_partial_same st64 st C1 Hst Hr) as (p1 & -> & Sp1).
  destruct (cost_simple_same st64 st C2 Hst Hr) as (s2 & Hs2 & Ss2).
  destruct (cost_partial_same st64 st C2 Hst Hr) as (p2 & Hp2 & Sp2).
  destruct (cost_simple_same st64 st C3 Hst Hr) as (s3 & Hs3 & Ss3).
  destruct (cost_partial_same st64 st C3 Hst Hr) as (p3 & Hp3 & Sp3).
  cbn [mbind outcome_bind]. rewrite Hs2, Hp2. cbn [mbind outcome_bind].
  rewrite Hs3, Hp3. cbn [mbind outcome_bind].
  eexists. split; [reflexivity |].
  apply (same_cost_weaken (5 * 2 ^ 50) (6 * 2 ^ 50)) in Ss1, Ss2, Ss3; try lia.
  repeat apply fmin_same_cost; try assumption. exact I.
Qed.

(** ** The float parsing loop in the exact range *)

Lemma half_integral_comp (p q : Q) :
  (p == q)%Q -> half_integral p -> half_integral q.
Proof. intros H (n & Hn & E). exists n. split; [exact Hn | rewrite <- H; exact E]. Qed.

Lemma half_integral_add (p q : Q) :
  half_integral p -> half_integral q -> half_integral (p + q).
Proof.
  intros (n & Hn & E) (m & Hm & F). exists (n + m). split; [lia |].
  rewrite inject_Z_plus, E, F. ring.
Qed.

Lemma products_weight (code : string) (info : product_info) :
  App.PRODUCTS !! code = Some info ->
  exists k, 1 <= k <= 50 /\ (weight info == inject_Z k * (1 # 2))%Q.
Proof.
  intros H. unfold App.PRODUCTS in H.
  apply elem_of_list_to_map_2 in H.
  repeat (apply elem_of_cons in H; destruct H as [H | H];
          [inversion H; subst; cbn [weight];
           first [ exists 6; split; [lia | reflexivity]
                 | exists 4; split; [lia | reflexivity]
                 | exists 16; split; [lia | reflexivity]
                 | exists 24; split; [lia | reflexivity]
                 | exists 50; split; [lia | reflexivity]
                 | exists 30; split; [lia | reflexivity]
                 | exists 1; split; [lia | reflexivity]
                 | exists 2; split; [lia | reflexivity] ] | ]).
  apply elem_of_nil in H. contradiction.
Qed.

Lemma entry_weight_nonneg (entry : string * pyvalue) :
  accepted_entry entry -> (0 <= entry_weight entry)%Q.
Proof.
  intros (q & Hv & Hq & _). unfold entry_weight. rewrite Hv.
  destruct (App.PRODUCTS !! fst entry) as [info |] eqn:Hinfo; [| apply Qle_refl].
  destruct (products_spec _ _ Hinfo) as [_ Hw].
  apply Qmult_le_0_compat; [lra |].
  change 0%Q with (inject_Z 0). apply inject_Z_le. exact Hq.
Qed.

Lemma order_weight_nonneg (order : order_data) :
  Forall accepted_entry order -> (0 <= order_weight order)%Q.
Proof.
  induction 1 as [| e rest He _ IH]; [apply Qle_refl |].
  unfold order_weight. cbn [fold_right]. fold (order_weight rest).
  pose proof (entry_weight_nonneg e He). lra.
Qed.

Lemma order_weight_cons (e : string * pyvalue) (rest : order_data) :
  order_weight (e :: rest) = (entry_weight e + order_weight rest)%Q.
Proof. reflexivity. Qed.

Lemma parse_order_same (order : order_data) :
  forall (st64 : demand64) (st : demand),
    same_demand st64 st -> keys_ok st ->
    half_integral (total_weight st) ->
    (forall c, half_integral (App.weight_at st c) /\
               half_integral (total_weight st - App.weight_at st c)) ->
    Forall accepted_entry order ->
    (total_weight st + order_weight order <= exact_range_bound)%Q ->
    exists st64' st',
      App64.parse_order order st64 = Parsed64 st64'
      /\ App.parse_order order st = Parsed st'
      /\ same_demand st64' st' /\ exact_range st'
      /\ (total_weight st' == total_weight st + order_weight order)%Q.
Proof.
  induction order as [| [code v] rest IH]; intros st64 st Hst Hk Ht Hc Hacc Hb.
  - exists st64, st. refine (conj eq_refl (conj eq_refl (conj Hst _))).
    unfold order_weight in *. cbn [fold_right] in *.
    split; [split; [lra | split; assumption] | lra].
  - apply Forall_cons in Hacc. destruct Hacc as [(q & Hv & Hq & Hknown) Hacc].
    cbn [fst snd] in Hv, Hknown. subst v.
    rewrite order_weight_cons in Hb.
    pose proof (order_weight_nonneg rest Hacc) as Hrest.
    cbn [App64.parse_order App.parse_order].
    destruct (Z.ltb_spec q 0) as [? | _]; [lia |].
    destruct (Z.eqb_spec q 0) as [-> | Hq0].
    { assert (Hz : (entry_weight (code, PyInt 0) == 0)%Q).
      { unfold entry_weight. cbn [fst snd].
        destruct (App.PRODUCTS !! code); [apply Qmult_0_r | reflexivity]. }
      destruct (IH st64 st Hst Hk Ht Hc Hacc ltac:(lra))
        as (st64' & st' & H1 & H2 & H3 & H4 & H5).
      exists st64', st'. refine (conj H1 (conj H2 (conj H3 (conj H4 _)))).
      rewrite order_weight_cons, Hz, H5. ring. }
    destruct Hknown as [? | [info Hinfo]]; [lia |].
    unfold entry_weight in Hb. cbn [fst snd] in Hb.
    rewrite Hinfo in *.
    destruct (products_spec _ _ Hinfo) as [HcL1 Hwpos].
    destruct (products_weight _ _ Hinfo) as (k & Hk1 & Ek).
    destruct (Hk _ HcL1) as [wq Hwq]. rewrite Hwq.
    assert (Hst' := Hst). destruct Hst' as (Hitems & Hneeded & Hlook & Htot).
    pose proof (Hlook (center info)) as Hl. rewrite Hwq in Hl.
    destruct (weight_from_center64 st64 !! center info) as [w64 |] eqn:Hw64;
      [| contradiction].
    apply exact_inv in Hl. destruct Hl as (w & -> & Ew).
    apply exact_inv in Htot. destruct Htot as (tot & Htot & Etot).
    (* the bounds *)
    pose proof (half_integral_nonneg _ Ht) as Htnn.
    destruct (Hc (center info)) as [Hcw Hcr].
    assert (Hwat : App.weight_at st (center info) = wq).
    { unfold App.weight_at. rewrite Hwq. reflexivity. }
    rewrite Hwat in Hcw, Hcr.
    pose proof (half_integral_nonneg _ Hcw) as Hwnn.
    pose proof (half_integral_nonneg _ Hcr) as Hrnn.
    assert (Hqq : (1 <= inject_Z q)%Q).
    { change 1%Q with (inject_Z 1). apply inject_Z_le. lia. }
    assert (HkQ : (1 <= inject_Z k)%Q).
    { change 1%Q with (inject_Z 1). apply inject_Z_le. lia. }
    set (item := (weight info * inject_Z q)%Q) in *.
    assert (Hitem : (item == inject_Z (k * q) * (1 # 2))%Q).
    { subst item. rewrite Ek, inject_Z_mult. ring. }
    assert (Hitemb : (item <= exact_range_bound)%Q) by lra.
    assert (Hkq : k * q <= 2 ^ 41).
    { rewrite Hitem, exact_range_bound_value in Hitemb.
      assert (inject_Z (k * q) <= inject_Z (2 ^ 41))%Q as H by lra.
      rewrite <- Zle_Qle in H. exact H. }
    assert (Hq41 : q <= 2 ^ 41) by nia.
    assert (Hih : half_integral item).
    { exists (k * q). split; [nia | exact Hitem]. }
    (* the conversion of the quantity and the product *)
    destruct (of_int_exact q ltac:(lia)) as (qf & Hqf & Eqf). rewrite Hqf.
    destruct (exact_inv _ _ (fmul_exact (weight info) qf item
                ltac:(subst item; rewrite Eqf; reflexivity)
                (half_integer_representable (2 ^ 41) _ ltac:(lia)
                   (half_integral_bounded _ _ Hih
                      ltac:(rewrite <- exact_range_bound_value; exact Hitemb)))))
      as (it & Hit & Eit).
    rewrite Hit.
    (* the two sums *)
    assert (Hws : half_integral (wq + item)) by (apply half_integral_add; assumption).
    assert (Hts : half_integral (total_weight st + item)) by (apply half_integral_add; assumption).
    destruct (exact_inv _ _ (fadd_exact w it (wq + item)
                ltac:(rewrite Ew, Eit; reflexivity)
                (half_integer_representable (2 ^ 41) _ ltac:(lia)
                   (half_integral_bounded _ _ Hws
                      ltac:(rewrite <- exact_range_bound_value; lra)))))
      as (ws & Hws' & Ews).
    rewrite Htot.
    destruct (exact_inv _ _ (fadd_exact tot it (total_weight st + item)
                ltac:(rewrite Etot, Eit; reflexivity)
                (half_integer_representable (2 ^ 41) _ ltac:(lia)
                   (half_integral_bounded _ _ Hts
                      ltac:(rewrite <- exact_range_bound_value; lra)))))
      as (ts & Hts' & Ets).
    rewrite Hws', Hts'. subst item.
    fold (add_item st code q info wq).
    match goal with
    | |- exists st64' st', App64.parse_order rest ?s64 = _ /\ App.parse_order rest ?s = _ /\ _ =>
        destruct (IH s64 s) as (st64' & st' & H1 & H2 & H3 & H4 & H5);
          [ | | | | | | exists st64', st';
                      refine (conj H1 (conj H2 (conj H3 (conj H4 _))));
                      rewrite H5, order_weight_cons; unfold entry_weight;
                      cbn [fst snd add_item total_weight]; rewrite Hinfo; ring ]
    end.
    + unfold same_demand, add_item.
      cbn [items_needed64 items_needed needed_centers64 needed_centers
           weight_from_center64 weight_from_center total_weight64 total_weight].
      rewrite Hitems, Hneeded. refine (conj eq_refl (conj eq_refl (conj _ _))).
      * intros c. destruct (decide (center info = c)) as [<- | Hne].
        -- rewrite !lookup_insert_eq. exact Ews.
        -- rewrite !lookup_insert_ne by exact Hne. apply Hlook.
      * exact Ets.
    + apply add_item_keys_ok. exact Hk.
    + exact Hts.
    + intros c. rewrite (weight_at_add_item _ _ _ _ _ _ Hwq).
      cbn [add_item total_weight].
      destruct (decide (center info = c)) as [<- | Hne].
      * split; [exact Hws |].
        apply (half_integral_comp (total_weight st - wq)); [ring | exact Hcr].
      * destruct (Hc c) as [Hcw' Hcr']. split; [exact Hcw' |].
        apply (half_integral_comp
                 ((total_weight st - App.weight_at st c) + weight info * inject_Z q));
          [ring |].
        apply half_integral_add; assumption.
    + exact Hacc.
    + cbn [add_item total_weight]. lra.
Qed.

Lemma initial_same_demand : same_demand App64.initial_demand App.initial_demand.
Proof.
  refine (conj eq_refl (conj eq_refl (conj _ _))).
  - intros []; vm_compute; reflexivity || exact I.
  - vm_compute. reflexivity.
Qed.

Lemma initial_half_integral :
  half_integral (total_weight App.initial_demand) /\
  forall c, half_integral (App.weight_at App.initial_demand c) /\
            half_integral (total_weight App.initial_demand
                           - App.weight_at App.initial_demand c).
Proof.
  assert (H0 : half_integral 0) by (exists 0; split; [lia | reflexivity]).
  split; [exact H0 |].
  intros c. split.
  - apply (half_integral_comp 0); [| exact H0]. destruct c; reflexivity.
  - apply (half_integral_comp 0); [| exact H0]. destruct c; reflexivity.
Qed.

(** In the exact range the float calculation returns what the calculation
    in exact arithmetic returns: nothing is rounded, overflows or raises. *)
Lemma exact_range_calculation (order : order_data) :
  Forall accepted_entry order ->
  (order_weight order <= exact_range_bound)%Q ->
  App64._calculate_overall_minimum_cost order
  = Value (App._calculate_overall_minimum_cost App.DISTANCES order).
Proof.
  intros Hacc Hb.
  destruct initial_half_integral as [Ht Hc].
  destruct (parse_order_same order App64.initial_demand App.initial_demand
              initial_same_demand initial_keys_ok Ht Hc Hacc)
    as (st64 & st & Hp64 & Hp & Hst & Hr & _).
  { change (total_weight App.initial_demand) with 0%Q. lra. }
  unfold App64._calculate_overall_minimum_cost, App._calculate_overall_minimum_cost.
  rewrite Hp64, Hp.
  assert (Hitems : items_needed64 st64 = items_needed st) by apply Hst.
  rewrite Hitems.
  destruct (decide (items_needed st = ∅)); [reflexivity |].
  destruct (search_same st64 st Hst Hr) as (x & -> & Sx).
  cbn [mbind outcome_bind].
  destruct (App.search App.DISTANCES st) as [m |].
  - apply same_cost_Fin in Sx. destruct Sx as (r & -> & Er & _).
    cbn [B64.feqb B64.inf negb B64.round mbind outcome_bind].
    rewrite (py_round_comp _ _ Er). reflexivity.
  - apply same_cost_PInf in Sx. subst x. reflexivity.
Qed.

(** ** The segment pricer in binary64 *)





(** ** The detour in binary64 *)

(** C2, as the code has it in binary64.  [C1] and [C3] have no direct edge.
    For every weight that is a multiple of 0.5 up to [2 ** 43] the resolved
    leg [C1] to [C3] has a finite price, the float sum of the prices of the
    legs [C1] to [C2] and [C2] to [C3]; both are priced at the full weight
    [w], the sum is exact, and it is not below the price of a direct edge
    whose distance is the sum of the two sub-distances. *)
Theorem C2_detour_cost (w : Q) :
  half_integer (2 ^ 44) w ->
  App64.get_distance C1 C3 = B64.inf /\
  exists c12 c23 c13 c7,
    App64._calculate_travel_cost_between_stops C1 C2 (B64.Finite w)
      = Value (B64.Finite c12) /\
    App64._calculate_travel_cost_between_stops C2 C3 (B64.Finite w)
      = Value (B64.Finite c23) /\
    App64._calculate_travel_cost_between_stops C1 C3 (B64.Finite w)
      = Value (B64.Finite c13) /\
    B64.fadd (B64.Finite c12) (B64.Finite c23) = B64.Finite c13 /\
    (c12 == Spec.rate w * 4)%Q /\ (c23 == Spec.rate w * 3)%Q /\
    (c13 == c12 + c23)%Q /\
    App64.calculate_segment_cost (B64.Finite w)
      (B64.fadd (App64.get_distance C1 C2) (App64.get_distance C2 C3))
      = Value (B64.Finite c7) /\
    (c7 <= c13)%Q.
Proof.
  intros Hw. split; [vm_compute; reflexivity |].
  pose proof (segment_cost64_exact w 4 8 Hw ltac:(lia) ltac:(reflexivity)) as (c4 & H4 & E4 & B4).
  pose proof (segment_cost64_exact w 3 6 Hw ltac:(lia) ltac:(reflexivity)) as (c3 & H3 & E3 & B3).
  pose proof (segment_cost64_exact w 7 14 Hw ltac:(lia) ltac:(reflexivity)) as (c7 & H7 & E7 & B7).
  rewrite cost_per_unit_rate in E4, E3, E7.
  assert (Hsum : half_integer (2 ^ 50) (c4 + c3)).
  { replace (2 ^ 50) with (2 ^ 46 * 8 + 2 ^ 46 * 8) by reflexivity.
    apply half_integer_add; [exact B4 |].
    apply (half_integer_weaken (2 ^ 46 * 6)); [lia | exact B3]. }
  destruct (exact_inv _ _ (fadd_exact c4 c3 (c4 + c3) ltac:(reflexivity)
              (half_integer_representable (2 ^ 50) _ ltac:(reflexivity) Hsum)))
    as (s & Hs & Es).
  exists c4, c3, s, c7.
  assert (Hd7 : B64.fadd (App64.get_distance C1 C2) (App64.get_distance C2 C3)
                = B64.Finite 7) by (vm_compute; reflexivity).
  rewrite Hd7.
  unfold App64._calculate_travel_cost_between_stops.
  rewrite !get_distance64_eval.
  cbn [B64.feqb B64.inf Bool.eqb negb charged_distance].
  rewrite !bool_decide_eq_true_2 by reflexivity.
  cbn [andb orb]. rewrite H4, H3.
  cbn [mbind outcome_bind B64.feqb B64.inf orb]. rewrite Hs.
  refine (conj eq_refl (conj eq_refl (conj eq_refl (conj eq_refl
            (conj E4 (conj E3 (conj Es (conj H7 _)))))))).
  rewrite E7, Es, E4, E3. lra.
Qed.

Lemma C2_detour_cost_witness :
  exists c12 c23 c13,
    App64._calculate_travel_cost_between_stops C1 C2 (B64.Finite 6)
      = Value (B64.Finite c12) /\
    App64._calculate_travel_cost_between_stops C2 C3 (B64.Finite 6)
      = Value (B64.Finite c23) /\
    App64._calculate_travel_cost_between_stops C1 C3 (B64.Finite 6)
      = Value (B64.Finite c13) /\
    (c13 == c12 + c23)%Q.
Proof.
  destruct (C2_detour_cost 6) as (_ & c12 & c23 & c13 & c7 & H1 & H2 & H3 & _ & _ & _ & Hs & _).
  - exists 12. split; [lia | reflexivity].
  - exists c12, c23, c13. auto.
Defined.

(** C2, as stated, fails in binary64: at the weight 36028797018995936 the
    detour, a rounded sum of two rounded products, costs less than a direct
    edge of distance 4.0 + 3.0 priced at the same weight. *)
Lemma C2_detour_cheaper_than_direct :
  App64._calculate_travel_cost_between_stops C1 C3
    (B64.Finite 36028797018995936) = Value (B64.Finite 403522526612754432) /\
  App64.calculate_segment_cost (B64.Finite 36028797018995936)
    (B64.fadd (App64.get_distance C1 C2) (App64.get_distance C2 C3))
  = Value (B64.Finite 403522526612754496) /\
  B64.nearest 36028797018995936 = B64.Finite 36028797018995936.
Proof. repeat split; vm_compute; reflexivity. Qed.

(** ** The parsing loop in binary64 *)

Lemma max_float_representable : B64.representable (inject_Z max_float).
Proof.
  exists (2 ^ 53 - 1), 971. refine (conj _ (conj _ _)); [| lia | lia].
  unfold max_float. rewrite inject_Z_mult, pow2_Z by lia. reflexivity.
Qed.

(** An [int] up to the largest float is converted without an exception. *)
Lemma of_int_finite (q : Z) :
  0 <= q <= max_float -> exists r, B64.of_int q = Value (B64.Finite r).
Proof.
  intros Hq. unfold B64.of_int.
  destruct (Z.eq_dec q 0) as [-> | Hq0].
  { exists 0%Q. reflexivity. }
  destruct (nearest_between (inject_Z q) 1 (inject_Z max_float))
    as (r & -> & _).
  - change 0%Q with (inject_Z 0). apply inject_Z_lt. lia.
  - apply (representable_Z 1); [reflexivity | reflexivity].
  - exact max_float_representable.
  - change 1%Q with (inject_Z 1). apply inject_Z_le. lia.
  - apply inject_Z_le. lia.
  - exists r. reflexivity.
Qed.

Lemma initial_keys_ok64 : keys_ok64 App64.initial_demand.
Proof. intros [] H; try congruence; vm_compute; eauto. Qed.

(** The outcome of the loop on a first entry, by cases. *)
Lemma parse_order64_head code v rest st :
  keys_ok64 st ->
  (exists e, App64.parse_order ((code, v) :: rest) st = ParseError64 e /\
             error_product e = Some code /\ ~ accepted_entry (code, v)) \/
  (exists x, App64.parse_order ((code, v) :: rest) st = Raised64 x /\
             accepted_entry (code, v) /\ ~ convertible_entry (code, v)) \/
  (exists st', App64.parse_order ((code, v) :: rest) st
               = App64.parse_order rest st' /\
               keys_ok64 st' /\ accepted_entry (code, v)).
Proof.
  intros Hk. cbn [App64.parse_order]. destruct v as [q | ].
  - destruct (Z.ltb_spec q 0) as [Hneg | Hnn].
    { left. eexists. split; [reflexivity | split; [reflexivity | ]].
      intros (q' & Hq' & Hge & _). cbn in Hq'. inversion Hq'. lia. }
    destruct (Z.eqb_spec q 0) as [-> | Hq0].
    { right. right. exists st. split; [reflexivity | split; [exact Hk | ]].
      exists 0. cbn. auto with zarith. }
    destruct (App.PRODUCTS !! code) as [info | ] eqn:Hinfo.
    + assert (Hacc : accepted_entry (code, PyInt q)).
      { exists q. cbn [fst snd]. rewrite Hinfo. eauto. }
      destruct (B64.of_int q) as [qf | x] eqn:Hof.
      * destruct (products_spec _ _ Hinfo) as [HcL1 _].
        destruct (Hk _ HcL1) as [w Hw]. rewrite Hw.
        right. right. eexists. split; [reflexivity | split; [| exact Hacc]].
        intros c Hc. cbn [weight_from_center64].
        destruct (decide (center info = c)) as [-> | Hne].
        -- rewrite lookup_insert_eq. eauto.
        -- rewrite lookup_insert_ne by exact Hne. auto.
      * right. left. exists x. split; [reflexivity | split; [exact Hacc |]].
        intros (q' & Hq' & Hge & Hc). cbn [fst snd] in Hq', Hc.
        injection Hq' as <-. destruct Hc as [? | [_ Hmax]]; [lia |].
        destruct (of_int_finite q ltac:(lia)) as (r & Hr). congruence.
    + left. eexists. split; [reflexivity | split; [reflexivity | ]].
      intros (q' & Hq' & Hge & [H0 | Hs]); cbn [fst snd] in *.
      * inversion Hq'. lia.
      * rewrite Hinfo in Hs. destruct Hs; discriminate.
  - left. eexists. split; [reflexivity | split; [reflexivity | ]].
    intros (q' & Hq' & _). cbn in Hq'. discriminate.
Qed.

Lemma convertible_accepted entry : convertible_entry entry -> accepted_entry entry.
Proof.
  intros (q & Hv & Hq & H). exists q. split; [exact Hv | split; [exact Hq |]].
  destruct H as [H | [H _]]; auto.
Qed.

(** Whatever precedes it, an entry for an unknown product stops the loop:
    with [parse_error] set, or with an exception raised before it. *)
Lemma parse_order64_unknown (order : order_data) :
  forall st, keys_ok64 st -> Exists unknown_entry order ->
  (exists e, App64.parse_order order st = ParseError64 e /\
             is_Some (error_product e)) \/
  (exists x, App64.parse_order order st = Raised64 x).
Proof.
  induction order as [| [code v] rest IH]; intros st Hk Hex.
  - apply Exists_nil in Hex. contradiction.
  - destruct (parse_order64_head code v rest st Hk)
      as [(e & He & Hp & _) | [(x & Hx & _) | (st' & Hst' & Hk' & Hacc)]].
    + left. exists e. split; [exact He | rewrite Hp; eauto].
    + right. exists x. exact Hx.
    + rewrite Hst'. apply IH; [exact Hk' |].
      apply Exists_cons in Hex. destruct Hex as [Hu | Hex]; [| exact Hex].
      exfalso. exact (unknown_not_accepted _ Hu Hacc).
Qed.

(** After entries that are all passed over, the loop stops at the entry
    for the unknown product and names it. *)
Lemma parse_order64_first_unknown (pre : order_data) :
  forall st code v post,
    keys_ok64 st -> Forall convertible_entry pre -> unknown_entry (code, v) ->
    exists e, App64.parse_order (pre ++ (code, v) :: post) st = ParseError64 e /\
              error_product e = Some code.
Proof.
  induction pre as [| [c0 v0] pre IH]; intros st code v post Hk Hpre Hu.
  - cbn [app].
    destruct (parse_order64_head code v post st Hk)
      as [(e & He & Hp & _) | [(x & _ & Hacc & _) | (st' & _ & _ & Hacc)]].
    + exists e. auto.
    + exfalso. exact (unknown_not_accepted _ Hu Hacc).
    + exfalso. exact (unknown_not_accepted _ Hu Hacc).
  - apply Forall_cons in Hpre. destruct Hpre as [Hc0 Hpre]. cbn [app].
    destruct (parse_order64_head c0 v0 (pre ++ (code, v) :: post) st Hk)
      as [(e & _ & _ & Hn) | [(x & _ & _ & Hn) | (st' & Hst' & Hk' & _)]].
    + exfalso. apply Hn, convertible_accepted, Hc0.
    + contradiction.
    + rewrite Hst'. apply IH; assumption.
Qed.

(** An entry of quantity 0 leaves the loop as it is, wherever it stands. *)
Lemma parse_order64_zero (pre : order_data) :
  forall st code post,
    App64.parse_order (pre ++ (code, PyInt 0) :: post) st
    = App64.parse_order (pre ++ post) st.
Proof.
  induction pre as [| [c0 v0] pre IH]; intros st code post; [reflexivity |].
  cbn [app App64.parse_order]. destruct v0 as [q |]; [| reflexivity].
  destruct (q <? 0); [reflexivity |].
  destruct (q =? 0); [apply IH |].
  destruct (App.PRODUCTS !! c0); [| reflexivity].
  destruct (B64.of_int q); [| reflexivity].
  destruct (weight_from_center64 st !! center p); [| reflexivity].
  apply IH.
Qed.

(** C3, as the code has it in binary64.  An order with an entry for an
    unknown product whose value is anything but the integer 0 fails: with a
    validation error that names a product, or, when an earlier quantity is
    too large for a float, with the processing error.  The validation
    error names the unknown product when every earlier entry is passed
    over by the loop.  An entry of quantity 0 is skipped, also for an
    unknown product: the result is that of the order without it. *)
Theorem C3_unknown_product_rejected
    (pre post : order_data) (code : string) (v : pyvalue) :
  App.PRODUCTS !! code = None ->
  (v <> PyInt 0 ->
   (exists e, App64._calculate_overall_minimum_cost
                (pre ++ (code, v) :: post) = Value (Failure e) /\
              (is_Some (error_product e) \/ e = ProcessingError)) /\
   (Forall convertible_entry pre ->
    exists e, App64._calculate_overall_minimum_cost
                (pre ++ (code, v) :: post) = Value (Failure e) /\
              error_product e = Some code)) /\
  App64._calculate_overall_minimum_cost (pre ++ (code, PyInt 0) :: post)
  = App64._calculate_overall_minimum_cost (pre ++ post).
Proof.
  intros Hnone. split.
  - intros Hv.
    assert (unknown_entry (code, v)) as Hu by (split; assumption).
    unfold App64._calculate_overall_minimum_cost. split.
    + destruct (parse_order64_unknown (pre ++ (code, v) :: post)
                  App64.initial_demand initial_keys_ok64)
        as [(e & -> & He) | (x & ->)].
      * apply Exists_app. right. apply Exists_cons. left. exact Hu.
      * exists e. auto.
      * exists ProcessingError. auto.
    + intros Hacc.
      destruct (parse_order64_first_unknown pre App64.initial_demand code v post
                  initial_keys_ok64 Hacc Hu) as (e & -> & He).
      exists e. auto.
  - unfold App64._calculate_overall_minimum_cost.
    rewrite parse_order64_zero. reflexivity.
Qed.

Lemma C3_unknown_product_rejected_witness :
  exists e, App64._calculate_overall_minimum_cost
              ([("A"%string, PyInt 2)] ++ ("Z"%string, PyInt 1) :: [])
            = Value (Failure e) /\
            error_product e = Some "Z"%string.
Proof.
  refine (proj2 (proj1 (C3_unknown_product_rejected
                   [("A"%string, PyInt 2)] [] "Z"%string (PyInt 1) _) _) _).
  - vm_compute. reflexivity.
  - discriminate.
  - apply Forall_cons. split; [ | apply Forall_nil; exact I].
    exists 2. cbn [fst snd]. split; [reflexivity | split; [lia | ]].
    right. split; [vm_compute; eauto | vm_compute; discriminate].
Defined.

(** C3, as stated, fails: an unknown product ordered with quantity 0 is
    skipped and the calculation returns cost 0. *)
Lemma C3_unknown_product_quantity_zero :
  App.PRODUCTS !! "Z"%string = None /\
  App64._calculate_overall_minimum_cost [("Z"%string, PyInt 0)]
  = Value (Cost 0).
Proof. split; vm_compute; reflexivity. Qed.

(** A quantity too large for a float ends the loop with the processing
    error before a later unknown product is looked at. *)
Example order_A_too_large_then_unknown :
  App64._calculate_overall_minimum_cost
    [("A"%string, PyInt (10 ^ 400)); ("Z"%string, PyInt 1)]
  = Value (Failure ProcessingError).
Proof. vm_compute. reflexivity. Qed.

(** ** Orders in the exact range *)

Lemma valid_entry_accepted (entry : string * pyvalue) :
  valid_entry entry -> accepted_entry entry.
Proof. intros [Hs (q & Hv & Hq)]. exists q. auto. Qed.

Lemma valid_order_accepted (order : order_data) :
  valid_order order -> Forall accepted_entry order.
Proof. intros H. apply (Forall_impl _ _ _ H). exact valid_entry_accepted. Qed.

Lemma order_weight_app (o1 o2 : order_data) :
  (order_weight (o1 ++ o2) == order_weight o1 + order_weight o2)%Q.
Proof.
  induction o1 as [| e o1 IH]; cbn [app].
  - unfold order_weight at 2. cbn [fold_right]. lra.
  - rewrite !order_weight_cons, IH. lra.
Qed.

Lemma order_weight_perm (o o' : order_data) :
  Permutation o o' -> (order_weight o == order_weight o')%Q.
Proof.
  induction 1 as [| e o o' _ IH | e e' o | o o' o'' _ IH1 _ IH2].
  - reflexivity.
  - rewrite !order_weight_cons, IH. reflexivity.
  - rewrite !order_weight_cons. ring.
  - rewrite IH1. exact IH2.
Qed.


(** C4, as the code has it in binary64.  In a valid order of a total
    weight up to [2 ** 40], raising the quantity of one product while the
    other entries stay as they are, the total staying within that bound,
    never lowers the returned cost. *)
Theorem C4_cost_monotone (pre post : order_data) (code : string) (q q' : Z) :
  valid_order (pre ++ (code, PyInt q) :: post) ->
  q <= q' ->
  (order_weight (pre ++ (code, PyInt q') :: post) <= exact_range_bound)%Q ->
  exists c c',
    App64._calculate_overall_minimum_cost (pre ++ (code, PyInt q) :: post)
      = Value (Cost c) /\
    App64._calculate_overall_minimum_cost (pre ++ (code, PyInt q') :: post)
      = Value (Cost c') /\
    c <= c'.
Proof.
  intros Hvalid Hqq Hb.
  pose proof Hvalid as Hparts. apply Forall_app in Hparts.
  destruct Hparts as [Hpre Hrest]. apply Forall_cons in Hrest.
  destruct Hrest as [[[info Hinfo] (q0 & Hq0 & Hq)] Hpost].
  cbn [fst snd] in Hinfo, Hq0. injection Hq0 as <-.
  assert (valid_order (pre ++ (code, PyInt q') :: post)) as Hvalid'.
  { apply Forall_app. split; [exact Hpre | ]. apply Forall_cons. split; [ | exact Hpost].
    split; [exists info; exact Hinfo | exists q'; split; [reflexivity | lia]]. }
  assert (order_weight (pre ++ (code, PyInt q) :: post)
          <= order_weight (pre ++ (code, PyInt q') :: post))%Q as Hle.
  { rewrite !order_weight_app, !order_weight_cons. unfold entry_weight.
    cbn [fst snd]. rewrite Hinfo.
    destruct (products_spec _ _ Hinfo) as [_ Hw].
    assert (inject_Z q <= inject_Z q')%Q by (apply inject_Z_le; exact Hqq).
    assert (weight info * inject_Z q <= weight info * inject_Z q')%Q.
    { rewrite !(Qmult_comm (weight info)). apply Qmult_le_compat_r; lra. }
    lra. }
  destruct (exact_cost_monotone pre post code q q' Hvalid Hqq)
    as (c & c' & Hc & Hc' & Hcc).
  exists c, c'.
  rewrite (exact_range_calculation _ (valid_order_accepted _ Hvalid)) by lra.
  rewrite (exact_range_calculation _ (valid_order_accepted _ Hvalid') Hb).
  rewrite Hc, Hc'. auto.
Qed.

Lemma C4_cost_monotone_witness :
  exists c c',
    App64._calculate_overall_minimum_cost
      ([("A"%string, PyInt 1)] ++ ("G"%string, PyInt 1) ::
       [("H"%string, PyInt 1); ("I"%string, PyInt 3)]) = Value (Cost c) /\
    App64._calculate_overall_minimum_cost
      ([("A"%string, PyInt 1)] ++ ("G"%string, PyInt 4) ::
       [("H"%string, PyInt 1); ("I"%string, PyInt 3)]) = Value (Cost c') /\
    c <= c'.
Proof.
  apply (C4_cost_monotone [("A"%string, PyInt 1)]
           [("H"%string, PyInt 1); ("I"%string, PyInt 3)] "G"%string 1 4).
  - exact valid_order_example.
  - lia.
  - vm_compute. discriminate.
Defined.

(** C4, as stated, fails in binary64: with five units of [H] in the order,
    raising [B] from 4503599627370501 to 4503599627370502 lowers the cost
    from 43234556422756880 to 43234556422756872, because the weight left
    for the second trip is a rounded difference. *)
Lemma C4_cost_decreases_beyond_exact_range :
  valid_order [("B"%string, PyInt 4503599627370501); ("H"%string, PyInt 5)] /\
  App64._calculate_overall_minimum_cost
    [("B"%string, PyInt 4503599627370501); ("H"%string, PyInt 5)]
  = Value (Cost 43234556422756880) /\
  App64._calculate_overall_minimum_cost
    [("B"%string, PyInt 4503599627370502); ("H"%string, PyInt 5)]
  = Value (Cost 43234556422756872).
Proof.
  split; [| split; vm_compute; reflexivity].
  repeat (apply Forall_cons; split;
          [split; [vm_compute; eauto
                  | eexists; split; [reflexivity | cbn; lia]] |]).
  apply Forall_nil. exact I.
Qed.







(** ** Further properties of the float calculation *)

(** How the float parsing loop ends, against the entries it was given. *)
Lemma parse_order64_cases (order : order_data) :
  forall st, keys_ok64 st ->
  match App64.parse_order order st with
  | Parsed64 _ => Forall accepted_entry order
  | ParseError64 e => is_Some (error_product e) /\ ~ Forall accepted_entry order
  | Raised64 _ => True
  end.
Proof.
  induction order as [| [code v] rest IH]; intros st Hk.
  - cbn. apply Forall_nil. exact I.
  - destruct (parse_order64_head code v rest st Hk)
      as [(e & He & Hp & Hn) | [(x & Hx & _) | (st' & Hst' & Hk' & Hacc)]].
    + rewrite He. split; [rewrite Hp; eauto |].
      intros H. apply Forall_cons in H. tauto.
    + rewrite Hx. exact I.
    + rewrite Hst'. specialize (IH st' Hk').
      destruct (App64.parse_order rest st') as [s | e | x].
      * apply Forall_cons. split; assumption.
      * destruct IH as [He Hn]. split; [exact He |].
        intros H. apply Forall_cons in H. tauto.
      * exact I.
Qed.

(** X1. The calculation returns a cost only on mappings whose every entry
    is accepted by the parsing loop (a non-negative integer quantity, and a
    catalog product unless the quantity is 0), and it does return one on
    every such mapping of a total weight up to [2 ** 40].  On any other
    mapping it returns an error: a validation error naming a product, or
    the processing error when an earlier quantity is too large for a
    float. *)
Theorem calculation_succeeds_iff_accepted (order : order_data) :
  ((exists c, App64._calculate_overall_minimum_cost order = Value (Cost c))
   -> Forall accepted_entry order) /\
  (Forall accepted_entry order ->
   (order_weight order <= exact_range_bound)%Q ->
   exists c, App64._calculate_overall_minimum_cost order = Value (Cost c)) /\
  (~ Forall accepted_entry order ->
   exists e, App64._calculate_overall_minimum_cost order = Value (Failure e)
             /\ (is_Some (error_product e) \/ e = ProcessingError)).
Proof.
  pose proof (parse_order64_cases order App64.initial_demand initial_keys_ok64)
    as Hcases.
  refine (conj _ (conj _ _)).
  - intros [c Hc]. unfold App64._calculate_overall_minimum_cost in Hc.
    destruct (App64.parse_order order App64.initial_demand);
      [exact Hcases | discriminate | discriminate].
  - intros Hacc Hb. rewrite (exact_range_calculation order Hacc Hb).
    destruct (proj1 (exact_calculation_succeeds_iff_accepted order)) as [_ H].
    destruct (H Hacc) as [c ->]. eauto.
  - intros Hn. unfold App64._calculate_overall_minimum_cost.
    destruct (App64.parse_order order App64.initial_demand) as [s | e | x].
    + contradiction.
    + exists e. split; [reflexivity | left; apply Hcases].
    + exists ProcessingError. auto.
Qed.

Lemma calculation_succeeds_iff_accepted_witness :
  exists c,
    App64._calculate_overall_minimum_cost
      [("A"%string, PyInt 1); ("Z"%string, PyInt 0)] = Value (Cost c).
Proof.
  apply (proj1 (proj2 (calculation_succeeds_iff_accepted
                         [("A"%string, PyInt 1); ("Z"%string, PyInt 0)]))).
  - apply Forall_cons. split.
    + exists 1. cbn [fst snd]. split; [reflexivity | split; [lia |]].
      right. vm_compute. eauto.
    + apply Forall_cons. split; [| apply Forall_nil; exact I].
      exists 0. cbn [fst snd]. split; [reflexivity | split; [lia | left; reflexivity]].
  - vm_compute. discriminate.
Defined.

(** X4. On a valid order of a total weight up to [2 ** 40] the cost does
    not depend on the order in which the mapping lists its entries. *)
Theorem cost_independent_of_entry_order (order order' : order_data) :
  valid_order order -> Permutation order order' ->
  (order_weight order <= exact_range_bound)%Q ->
  App64._calculate_overall_minimum_cost order =
  App64._calculate_overall_minimum_cost order'.
Proof.
  intros Hvalid Hperm Hb.
  assert (valid_order order') as Hvalid'.
  { unfold valid_order. rewrite <- Hperm. exact Hvalid. }
  rewrite (exact_range_calculation order (valid_order_accepted _ Hvalid) Hb).
  rewrite (exact_range_calculation order' (valid_order_accepted _ Hvalid'))
    by (rewrite <- (order_weight_perm _ _ Hperm); exact Hb).
  f_equal. apply exact_cost_independent_of_entry_order; assumption.
Qed.

Lemma cost_independent_of_entry_order_witness :
  App64._calculate_overall_minimum_cost
    [("A"%string, PyInt 1); ("G"%string, PyInt 1);
     ("H"%string, PyInt 1); ("I"%string, PyInt 3)] =
  App64._calculate_overall_minimum_cost
    [("G"%string, PyInt 1); ("A"%string, PyInt 1);
     ("H"%string, PyInt 1); ("I"%string, PyInt 3)].
Proof.
  apply cost_independent_of_entry_order.
  - exact valid_order_example.
  - apply perm_swap.
  - vm_compute. discriminate.
Defined.

(** X5. In the exact range, that is for every mapping whose entries are
    all accepted and whose total weight is at most [2 ** 40], the float
    calculation returns what the same calculation returns in exact
    arithmetic: no float operation rounds, overflows or raises. *)
Theorem float_calculation_exact_in_range (order : order_data) :
  Forall accepted_entry order ->
  (order_weight order <= exact_range_bound)%Q ->
  App64._calculate_overall_minimum_cost order
  = Value (App._calculate_overall_minimum_cost App.DISTANCES order).
Proof. apply exact_range_calculation. Qed.

Lemma float_calculation_exact_in_range_witness :
  App64._calculate_overall_minimum_cost
    [("A"%string, PyInt 1); ("G"%string, PyInt 1);
     ("H"%string, PyInt 1); ("I"%string, PyInt 3)]
  = Value (App._calculate_overall_minimum_cost App.DISTANCES
             [("A"%string, PyInt 1); ("G"%string, PyInt 1);
              ("H"%string, PyInt 1); ("I"%string, PyInt 3)]).
Proof.
  apply float_calculation_exact_in_range.
  - apply valid_order_accepted, valid_order_example.
  - vm_compute. discriminate.
Defined.

(** X6. A valid order of a total weight up to [2 ** 40] with at least one
    positive quantity never costs less than 20: the cheapest leg to the hub
    is two units long and the lowest rate is 10. *)
Theorem nonempty_order_costs_at_least_20 (order : order_data) :
  valid_order order -> has_positive order ->
  (order_weight order <= exact_range_bound)%Q ->
  exists c, App64._calculate_overall_minimum_cost order = Value (Cost c) /\
            20 <= c.
Proof.
  intros Hvalid Hpos Hb.
  rewrite (exact_range_calculation order (valid_order_accepted _ Hvalid) Hb).
  destruct (exact_nonempty_order_costs_at_least_20 order Hvalid Hpos)
    as (c & -> & Hc).
  exists c. auto.
Qed.

Lemma nonempty_order_costs_at_least_20_witness :
  exists c,
    App64._calculate_overall_minimum_cost
      [("A"%string, PyInt 1); ("G"%string, PyInt 1);
       ("H"%string, PyInt 1); ("I"%string, PyInt 3)] = Value (Cost c) /\
    20 <= c.
Proof.
  apply nonempty_order_costs_at_least_20.
  - exact valid_order_example.
  - apply Exists_cons. left. exists 1. split; [reflexivity | lia].
  - vm_compute. discriminate.
Defined.

(** X7. When every entry of positive quantity is for a product of one
    center [c] and the total weight is at most [2 ** 40], the cost is the
    rounded float price of the single leg from [c] to the hub carrying the
    whole order. *)
Theorem single_center_order_cost (order : order_data) (c : location) :
  valid_order order -> has_positive order -> only_center c order ->
  (order_weight order <= exact_range_bound)%Q ->
  exists w p,
    (w == order_weight order)%Q /\
    App64._calculate_travel_cost_between_stops c L1 (B64.Finite w)
      = Value (B64.Finite p) /\
    App64._calculate_overall_minimum_cost order = Value (Cost (py_round p)).
Proof.
  intros Hvalid Hpos Honly Hb.
  pose proof (valid_order_accepted _ Hvalid) as Hacc.
  destruct (exact_single_center_order_cost order c Hvalid Hpos Honly)
    as (st & p' & Hp & Hleg & Hcost).
  destruct initial_half_integral as [Ht Hc].
  destruct (parse_order_same order App64.initial_demand App.initial_demand
              initial_same_demand initial_keys_ok Ht Hc Hacc)
    as (st64 & st2 & _ & Hp2 & _ & Hr & Htot).
  { change (total_weight App.initial_demand) with 0%Q. lra. }
  rewrite Hp in Hp2. injection Hp2 as <-.
  change (total_weight App.initial_demand) with 0%Q in Htot.
  destruct (travel_same_cost c L1 (total_weight st) (total_weight st)
              ltac:(reflexivity)
              ltac:(apply (half_integer_weaken (2 ^ 41));
                    [lia | apply exact_range_total, Hr]))
    as (p & Hleg64 & p2 & Hleg2 & Ep & _).
  rewrite Hleg in Hleg2. injection Hleg2 as <-.
  exists (total_weight st), p. refine (conj _ (conj Hleg64 _)).
  - rewrite Htot. ring.
  - rewrite (exact_range_calculation order Hacc Hb), Hcost.
    rewrite (py_round_comp _ _ Ep). reflexivity.
Qed.

Lemma single_center_order_cost_witness :
  exists w p,
    (w == order_weight [("G"%string, PyInt 1); ("I"%string, PyInt 3)])%Q /\
    App64._calculate_travel_cost_between_stops C3 L1 (B64.Finite w)
      = Value (B64.Finite p) /\
    App64._calculate_overall_minimum_cost
      [("G"%string, PyInt 1); ("I"%string, PyInt 3)]
    = Value (Cost (py_round p)).
Proof.
  apply single_center_order_cost.
  - repeat (apply Forall_cons; split;
            [split; [vm_compute; eauto
                    | eexists; split; [reflexivity | cbn; lia]] |]).
    apply Forall_nil. exact I.
  - apply Exists_cons. left. exists 1. split; [reflexivity | lia].
  - repeat (apply Forall_cons; split;
            [intros info Hinfo; right; vm_compute in Hinfo;
             injection Hinfo as <-; reflexivity |]).
    apply Forall_nil. exact I.
  - vm_compute. discriminate.
Defined.

(** ** Sample orders in binary64 *)

Example float_order_A1_G1_H1_I3 :
  App64._calculate_overall_minimum_cost
    [("A"%string, PyInt 1); ("G"%string, PyInt 1);
     ("H"%string, PyInt 1); ("I"%string, PyInt 3)] = Value (Cost 86).
Proof. vm_compute. reflexivity. Qed.

Example float_order_A1_B1_C1_D1 :
  App64._calculate_overall_minimum_cost
    [("A"%string, PyInt 1); ("B"%string, PyInt 1);
     ("C"%string, PyInt 1); ("D"%string, PyInt 1)] = Value (Cost 168).
Proof. vm_compute. reflexivity. Qed.

(** The total weight is a rounded sum: listed in another order, the same
    entries give another cost. *)
Example float_order_depends_on_listing :
  App64._calculate_overall_minimum_cost
    [("D"%string, PyInt (2 ^ 50)); ("H"%string, PyInt 1); ("I"%string, PyInt 1)]
  = Value (Cost 54043195528445992) /\
  App64._calculate_overall_minimum_cost
    [("H"%string, PyInt 1); ("I"%string, PyInt 1); ("D"%string, PyInt (2 ^ 50))]
  = Value (Cost 54043195528446000).
Proof. split; vm_compute; reflexivity. Qed.
